(** * ctemplate: the configuration merger, the template engine and the
      code formatter

    A shallow embedding of [src/ctemplate.ts] ([merge], [explode],
    [processFiles], the names [processFiles] and [readPath] select) and of
    [cLib.ts] ([Clib.format] and the helpers that write C text), and the
    properties of their specification.

    Text is a list of characters; the regular expressions of the program
    are kept as expressions ([Regex]) and matched as the language matches
    them.  JavaScript objects are objects of a store ([heap]), so that what
    [merge] and [explode] share or write in place is shared and written in
    place here.  The store keeps the members of an object in the order in
    which they were added; [enum_keys] gives the order in which the
    language enumerates them (array indices first).  Every object is a
    plain object: the names of the members it inherits from
    [Object.prototype] are [inherited_names], and [key in dest] sees them;
    the prototype itself is no object of the store, and where the program
    would write into it or replace it ([__proto__] as a key that is no own
    member) the model has no answer.
    A number is given by the integer that writes it, and is printed as the
    language prints the double nearest to it.  Recursive functions of the
    store take fuel, and [Stuck] is the answer of the model when it has
    none. *)

From Stdlib Require Import Ascii String ZArith Lia DecimalString.
From stdpp Require Import base list strings.
Open Scope list_scope.

(** * Text *)

(** A JavaScript string is a sequence of code units; the model keeps the
    code units below 256 ([ascii]) and writes literals through [txt]. *)
Definition text := list ascii.
Definition txt (s : string) : text := list_ascii_of_string s.

Definition tab : ascii := "009".
Definition nl : ascii := "010".
Definition vt : ascii := "011".
Definition ff : ascii := "012".
Definition cr : ascii := "013".
Definition sp : ascii := " ".
Definition nbsp : ascii := "160".
Definition dq : ascii := "034".
Definition sq : ascii := "'".
Definition bs : ascii := "\".

Definition isc (a c : ascii) : bool := bool_decide (c = a).

(** The class [\s] of a regular expression, which is also the set
    [trimRight] removes (white space and line terminators). *)
Definition is_space (c : ascii) : bool :=
  isc tab c || isc nl c || isc vt c || isc ff c || isc cr c || isc sp c || isc nbsp c.

(** [chop p s]: what follows the literal [p] at the start of [s]. *)
Fixpoint chop (p s : text) : option text :=
  match p, s with
  | [], _ => Some s
  | a :: p', b :: s' => if decide (a = b) then chop p' s' else None
  | _ :: _, [] => None
  end.

(** [span f s]: the longest prefix of [s] in the class [f], and the rest;
    a greedy [[...]*]. *)
Fixpoint span (f : ascii → bool) (s : text) : text * text :=
  match s with
  | c :: r => if f c then let '(w, r') := span f r in (c :: w, r') else ([], s)
  | [] => ([], [])
  end.

(** * String.prototype.replace with a global regular expression

    [replace] first collects every match, scanning left to right and
    resuming after each match, and then builds the result from the text
    between the matches and the replacement of each match.  [match_at s]
    is the regular expression tried at the start of [s]: its capture groups
    and the text after the match. *)
Section Scan.
Context {M : Type} (match_at : text → option (M * text)).

Inductive item := Plain (c : ascii) | Hit (m : M).

Fixpoint items_fuel (n : nat) (s : text) : list item :=
  match n, s with
  | S n', c :: s' =>
      match match_at s with
      | Some (m, rest) => Hit m :: items_fuel n' rest
      | None => Plain c :: items_fuel n' s'
      end
  | _, _ => []
  end.

Definition items (s : text) : list item := items_fuel (List.length s) s.
End Scan.
Arguments Plain {M} c.
Arguments Hit {M} m.

(** * Regular expressions

    The expressions of the program, with the matching of the language: an
    alternation tries its left side first, a greedy repetition tries one
    more round before it tries what follows, a lazy repetition the other
    way round, and a failure later on returns to the last choice that is
    still open.  A round of a repetition that takes no character is
    refused.  [Grp i] is the capture group [i]. *)
Module Regex.

Inductive re :=
| Eps
| Chr (f : ascii → bool)
| Seq (r1 r2 : re)
| Alt (r1 r2 : re)
| Star (greedy : bool) (r : re)
| Grp (i : nat) (r : re).

(** The captures so far, the last one first. *)
Definition caps := list (nat * text).

(** A matcher takes the text still to match, the captures, and what is to
    be matched after it. *)
Definition matcher (A : Type) := text → caps → (text → caps → option A) → option A.

Definition orelse {A} (x y : option A) : option A :=
  match x with Some a => Some a | None => y end.

Fixpoint star {A} (greedy : bool) (body : matcher A) (n : nat) : matcher A :=
  λ s c k,
  match n with
  | 0 => None
  | S n' =>
      let more :=
        body s c (λ s' c',
          if List.length s' <? List.length s then star greedy body n' s' c' k
          else None) in
      if greedy then orelse more (k s c) else orelse (k s c) more
  end.

(** [n] bounds the rounds of a repetition: more than the length of the
    text is enough, since every round takes a character. *)
Fixpoint run {A} (r : re) (n : nat) : matcher A :=
  λ s c k,
  match r with
  | Eps => k s c
  | Chr f =>
      match s with
      | x :: s' => if f x then k s' c else None
      | [] => None
      end
  | Seq r1 r2 => run r1 n s c (λ s' c', run r2 n s' c' k)
  | Alt r1 r2 => orelse (run r1 n s c k) (run r2 n s c k)
  | Star g r' => star g (run r' n) n s c k
  | Grp i r' =>
      run r' n s c (λ s' c',
        k s' ((i, take (List.length s - List.length s') s) :: c'))
  end.

(** The expression at the start of [s]: the captures and the text after
    the match. *)
Definition exec (r : re) (s : text) : option (caps * text) :=
  run r (S (List.length s)) s [] (λ s' c, Some (c, s')).

(** The capture group [i]; [None] when it took no part in the match. *)
Fixpoint group (i : nat) (c : caps) : option text :=
  match c with
  | [] => None
  | (j, w) :: c' => if decide (i = j) then Some w else group i c'
  end.

(** A literal text, [r+] and [r+?], [r?], the dot under the flag [s], and
    [[^a]]. *)
Fixpoint lit (p : text) : re :=
  match p with
  | [] => Eps
  | a :: p' => Seq (Chr (isc a)) (lit p')
  end.

Definition plus (greedy : bool) (r : re) : re := Seq r (Star greedy r).
Definition maybe (r : re) : re := Alt r Eps.
Definition any : re := Chr (λ _, true).
Definition but (a : ascii) : re := Chr (λ c, negb (isc a c)).

End Regex.
Import Regex.

Module Clib.

(** ** The literals of both passes:
    ["(?:\\"|[^"])+"|'\\''|'[^']'] *)
Definition literal_re : re :=
  Alt (Seq (Chr (isc dq))
        (Seq (plus true (Alt (lit [bs; dq]) (but dq))) (Chr (isc dq))))
   (Alt (lit [sq; bs; sq; sq])
        (Seq (Chr (isc sq)) (Seq (but sq) (Chr (isc sq))))).

(** ** First pass: [/(literal)|([\t\n\r]+)/g] *)

Definition is_break (c : ascii) : bool := isc tab c || isc nl c || isc cr c.

Definition strip_re : re :=
  Alt (Grp 1 literal_re) (Grp 2 (plus true (Chr is_break))).

(** The groups of a match as its callback tells them apart: [string] when
    the first group took part, the run of breaks otherwise. *)
Inductive strip_groups := SString (s : text) | SBreak (w : text).

Definition strip_at (s : text) : option (strip_groups * text) :=
  match exec strip_re s with
  | Some (c, k) =>
      Some (match group 1 c with
            | Some l => SString l
            | None => SBreak (default [] (group 2 c))
            end, k)
  | None => None
  end.

(** The callback keeps a literal and drops a run of breaks. *)
Definition strip_out (i : item (M:=strip_groups)) : text :=
  match i with
  | Plain c => [c]
  | Hit (SString l) => l
  | Hit (SBreak _) => []
  end.

Definition strip (code : text) : text :=
  List.concat (map strip_out (items strip_at code)).

(** ** Second pass: [/(=\s*\{)|(\{)|([,;}])|(literal)/g] *)

Definition scan_re : re :=
  Alt (Grp 1 (Seq (Chr (isc "=")) (Seq (Star true (Chr is_space)) (Chr (isc "{")))))
   (Alt (Grp 2 (Chr (isc "{")))
    (Alt (Grp 3 (Chr (λ c, isc "," c || isc ";" c || isc "}" c)))
         (Grp 4 literal_re))).

(** The groups of a match in the order its callback tests them: [string],
    [open1], [open2], and then the character of [symbol]. *)
Inductive scan_groups :=
| GOpen1 | GOpen2 | GSymbol (c : ascii) | GString (s : text).

Definition scan_at (s : text) : option (scan_groups * text) :=
  match exec scan_re s with
  | Some (c, k) =>
      Some (match group 4 c, group 1 c, group 2 c, group 3 c with
            | Some l, _, _, _ => GString l
            | None, Some _, _, _ => GOpen1
            | None, None, Some _, _ => GOpen2
            | None, None, None, Some (x :: _) => GSymbol x
            | _, _, _, _ => GSymbol "000"
            end, k)
  | None => None
  end.

(** FormatterState: the two variables the callback closes over. *)
Record fstate := { indent : text; mode : nat }.

(** The callback of the second pass: the new state and the replacement. *)
Definition on_match (st : fstate) (g : scan_groups) : fstate * text :=
  match g with
  | GString l => (st, l)
  | GOpen1 =>
      let i := indent st ++ [tab] in
      ({| indent := i; mode := mode st + 1 |}, txt "= {" ++ [nl] ++ i)
  | GOpen2 =>
      let i := indent st ++ [tab] in
      ({| indent := i; mode := if 0 <? mode st then mode st + 1 else 0 |},
       txt "{" ++ [nl] ++ i)
  | GSymbol c =>
      if isc "}" c then
        let i := tail (indent st) in
        ({| indent := i; mode := if 0 <? mode st then mode st - 1 else 0 |},
         [nl] ++ i ++ txt "}")
      else if isc ";" c then (st, txt ";" ++ [nl] ++ indent st)
      else if isc "," c then
        (st, if 0 <? mode st then txt "," ++ [nl] ++ indent st else txt ",")
      else (st, txt "undefined")
  end.

Fixpoint emit (st : fstate) (its : list (item (M:=scan_groups))) : text :=
  match its with
  | [] => []
  | Plain c :: r => c :: emit st r
  | Hit g :: r => let '(st', e) := on_match st g in e ++ emit st' r
  end.

Definition scan (st : fstate) (s : text) : text := emit st (items scan_at s).

(** ** Third pass: a newline, any tabs (the first group) and one or more
    spaces, or else a newline, one or more tabs or spaces and a newline;
    replaced by a newline and the first group *)

Definition tidy_re : re :=
  Alt (Seq (Chr (isc nl))
           (Seq (Grp 1 (Star true (Chr (isc tab)))) (plus true (Chr (isc sp)))))
      (Seq (Chr (isc nl))
           (Seq (plus true (Chr (λ c, isc tab c || isc sp c))) (Chr (isc nl)))).

(** A match and its first group. *)
Definition tidy_at (s : text) : option (option text * text) :=
  match exec tidy_re s with
  | Some (c, k) => Some (group 1 c, k)
  | None => None
  end.

Definition tidy_out (i : item (M:=option text)) : text :=
  match i with
  | Plain c => [c]
  | Hit (Some t) => nl :: t
  | Hit None => [nl]
  end.

Definition tidy (s : text) : text :=
  List.concat (map tidy_out (items tidy_at s)).

Fixpoint trimRight (s : text) : text :=
  match s with
  | [] => []
  | c :: r =>
      match trimRight r with
      | [] => if is_space c then [] else [c]
      | r' => c :: r'
      end
  end.

(** [format(code, initialIndent)]; an absent [initialIndent] is 0. *)
Definition format (code : text) (initialIndent : nat) : text :=
  let st := {| indent := repeat tab initialIndent; mode := 0 |} in
  trimRight (tidy (scan st (strip code))).

End Clib.
Import Clib.

(** ** Lines of a text, for the properties of the output *)

Fixpoint lines (s : text) : list text :=
  match s with
  | [] => [[]]
  | c :: r =>
      if isc nl c then [] :: lines r
      else match lines r with
           | l :: ls => (c :: l) :: ls
           | [] => [[c]]
           end
  end.

Definition blank (l : text) : bool := forallb is_space l.

(** Two consecutive blank lines somewhere. *)
Fixpoint blank_pair (ls : list text) : bool :=
  match ls with
  | a :: (b :: _) as r => (blank a && blank b) || blank_pair r
  | _ => false
  end.

(** The text, or the line, ends in white space. *)
Definition ends_blank (l : text) : bool :=
  match last l with
  | Some c => is_space c
  | None => false
  end.

(** ** Where the newlines of the formatter's output come from

    A newline is justified when the character before it is an opening
    brace, a semicolon or a comma, or when tabs and a closing brace follow
    it: these are the newlines the second pass writes. *)
Definition opener (c : ascii) : bool := isc "{" c || isc ";" c || isc "," c.

Fixpoint closes (s : text) : bool :=
  match s with
  | c :: r => if isc tab c then closes r else isc "}" c
  | [] => false
  end.

Fixpoint justified (px : bool) (s : text) : bool :=
  match s with
  | [] => true
  | c :: r => (if isc nl c then px || closes r else true) && justified (opener c) r
  end.

Definition tabs (i : text) : Prop := forallb (isc tab) i = true.

(** * JavaScript values and the object store *)

Inductive outcome (A : Type) : Type :=
| Ok (a : A)
| Throw (msg : string)
| Stuck.
Arguments Ok {A} a.
Arguments Throw {A} msg.
Arguments Stuck {A}.

Definition loc := nat.

Inductive val :=
| VUndefined | VNull
| VBool (b : bool) | VNum (n : Z) | VStr (s : string)
| VRef (l : loc).

Definition props := list (string * val).

Inductive obj :=
| ODict (ps : props)
| OArr (es : list val).

Definition heap := list obj.

Fixpoint pget (k : string) (ps : props) : option val :=
  match ps with
  | [] => None
  | (k', v) :: r => if decide (k = k') then Some v else pget k r
  end.

Fixpoint pput (k : string) (v : val) (ps : props) : props :=
  match ps with
  | [] => [(k, v)]
  | (k', v') :: r => if decide (k = k') then (k, v) :: r else (k', v') :: pput k v r
  end.

Fixpoint pdel (k : string) (ps : props) : props :=
  match ps with
  | [] => []
  | (k', v') :: r => if decide (k = k') then pdel k r else (k', v') :: pdel k r
  end.

Definition keys (ps : props) : list string := map fst ps.

Definition alloc (h : heap) (o : obj) : heap * loc := (h ++ [o], List.length h).

Definition dict_at (h : heap) (l : loc) : option props :=
  match h !! l with Some (ODict ps) => Some ps | _ => None end.

Definition arr_at (h : heap) (l : loc) : option (list val) :=
  match h !! l with Some (OArr es) => Some es | _ => None end.

(** [o[key]]: [undefined] when the property is absent. *)
Definition get_prop (h : heap) (o : loc) (k : string) : val :=
  match dict_at h o with
  | Some ps => default VUndefined (pget k ps)
  | None => VUndefined
  end.

(** [o[key] = v] *)
Definition set_prop (h : heap) (o : loc) (k : string) (v : val) : heap :=
  match dict_at h o with
  | Some ps => <[o := ODict (pput k v ps)]> h
  | None => h
  end.

(** [delete o[key]] *)
Definition del_prop (h : heap) (o : loc) (k : string) : heap :=
  match dict_at h o with
  | Some ps => <[o := ODict (pdel k ps)]> h
  | None => h
  end.

(** [isDict(o)]: a truthy value of type object that is not an array. *)
Definition isDict (h : heap) (v : val) : option loc :=
  match v with
  | VRef l => match h !! l with Some (ODict _) => Some l | _ => None end
  | _ => None
  end.

Definition isArray (h : heap) (v : val) : option loc :=
  match v with
  | VRef l => match h !! l with Some (OArr _) => Some l | _ => None end
  | _ => None
  end.

Definition join (sep : string) (l : list string) : string := String.concat sep l.

Definition merge_error (path : list string) : string :=
  ("merging of key '" ++ join "." path ++ "' failed")%string.

(** ** The names of members

    Every object of the store is a plain object: its prototype is
    [Object.prototype], whose members it inherits.  None of them is
    enumerable, all of them are functions but [__proto__], whose value is
    [Object.prototype] itself and whose assignment sets the prototype of
    the object. *)
Definition inherited_names : list string :=
  [ "constructor"; "__defineGetter__"; "__defineSetter__"; "hasOwnProperty";
    "__lookupGetter__"; "__lookupSetter__"; "isPrototypeOf";
    "propertyIsEnumerable"; "toString"; "valueOf"; "__proto__";
    "toLocaleString" ]%string.

Definition inherited (k : string) : bool := bool_decide (k ∈ inherited_names).

Definition proto : string := "__proto__".

(** An array index: the decimal writing, with no zero before it, of a
    number below [2 ^ 32 - 1]. *)
Fixpoint index_value (s : string) (acc : N) : option N :=
  match s with
  | EmptyString => Some acc
  | String c r =>
      let n := N_of_ascii c in
      if ((48 <=? n) && (n <=? 57))%N
      then index_value r (10 * acc + (n - 48))%N
      else None
  end.

Definition array_index (k : string) : option N :=
  if decide (k = "0"%string) then Some 0%N
  else
    match k with
    | EmptyString => None
    | String c _ =>
        if decide (c = "0"%char) then None
        else
          match index_value k 0 with
          | Some n => if (n <? 2 ^ 32 - 1)%N then Some n else None
          | None => None
          end
    end.

Fixpoint insert_index (x : N * string) (l : list (N * string)) : list (N * string) :=
  match l with
  | [] => [x]
  | y :: r => if (fst x <? fst y)%N then x :: l else y :: insert_index x r
  end.

(** The own keys of an object in the order in which [for ... in],
    [Object.keys] and [Object.entries] give them: the array indices in
    ascending order, and then the other keys in the order in which they
    were added, which is the order the store keeps. *)
Definition enum_keys (ks : list string) : list string :=
  map snd (foldr insert_index []
             (omap (λ k, match array_index k with
                         | Some n => Some (n, k)
                         | None => None
                         end) ks))
  ++ List.filter (λ k, match array_index k with Some _ => false | None => true end) ks.

(** The own members in that order, as [Object.entries] gives them. *)
Definition own_entries (ps : props) : props :=
  omap (λ k, match pget k ps with Some v => Some (k, v) | None => None end)
       (enum_keys (keys ps)).

(** A name that is no array index and none of an inherited member. *)
Definition ordinary (k : string) : bool :=
  negb (inherited k) && match array_index k with Some _ => false | None => true end.

(** [forEach] over a snapshot of keys, with exceptions. *)
Fixpoint each_key {S : Type} (step : string → S → outcome S)
    (ks : list string) (s : S) : outcome S :=
  match ks with
  | [] => Ok s
  | k :: ks' =>
      match step k s with
      | Ok s' => each_key step ks' s'
      | e => e
      end
  end.

(** * merge *)

(** The body of the loop of [merge], for one [key] of [src]; [rec] is the
    recursive call.  [key in dest] holds for an own member of [dest] and
    for an inherited one.  An inherited member is a function, which is
    neither a dict nor an array, but for [__proto__]: [dest[key]] is then
    [Object.prototype], a dict, and when [src[key]] is a dict too the
    recursive call writes into [Object.prototype], which the store does
    not hold: the model has no answer ([Stuck]). *)
Definition merge_key (rec : heap → loc → loc → list string → outcome heap)
    (dest src : loc) (path : list string) (key : string) (h : heap)
  : outcome heap :=
  match dict_at h dest with
  | None => Stuck
  | Some pd =>
      let sv := get_prop h src key in
      match pget key pd with
      | Some dv =>
          match isDict h dv, isDict h sv with
          | Some d', Some s' => rec h d' s' (path ++ [key])
          | _, _ =>
              match isArray h dv, isArray h sv with
              | Some d', Some s' =>
                  match arr_at h d', arr_at h s' with
                  | Some ed, Some es => Ok (<[d' := OArr (ed ++ es)]> h)
                  | _, _ => Stuck
                  end
              | _, _ => Throw (merge_error (path ++ [key]))
              end
          end
      | None =>
          if inherited key then
            if decide (key = proto) then
              match isDict h sv with
              | Some _ => Stuck
              | None => Throw (merge_error (path ++ [key]))
              end
            else Throw (merge_error (path ++ [key]))
          else Ok (set_prop h dest key sv)
      end
  end.

(** [for (let key in src)] goes through the keys [src] has when the loop
    starts, in the order of [enum_keys]: the loop deletes no key, and it
    adds a key to [src] only when [src] and [dest] share an object, a key
    that is then not enumerated.  No inherited member is enumerable. *)
Fixpoint merge (n : nat) (h : heap) (dest src : loc) (path : list string)
  : outcome heap :=
  match n with
  | 0 => Stuck
  | S n' =>
      match dict_at h src with
      | None => Stuck
      | Some ps =>
          each_key (merge_key (merge n') dest src path) (enum_keys (keys ps)) h
      end
  end.

(** * explode *)

(** [key.split(".")] *)
Fixpoint split_dots (s : string) : list string :=
  match s with
  | EmptyString => [EmptyString]
  | String c r =>
      if decide (c = "."%char) then EmptyString :: split_dots r
      else match split_dots r with
           | x :: xs => String c x :: xs
           | [] => [String c EmptyString]
           end
  end.

(** The chain of fresh one-key dicts below [head]: one for each segment,
    the innermost holding [value].  Each is made by an assignment
    [o[key] = ...] to a fresh object; for the key [__proto__] that
    assignment sets the prototype of the object and adds no member, which
    the store does not model: the model has no answer ([Stuck]). *)
Fixpoint chain (h : heap) (segs : list string) (value : val)
  : outcome (heap * val) :=
  match segs with
  | [] => Ok (h, value)
  | s :: r =>
      if decide (s = proto) then Stuck
      else
        match chain h r value with
        | Ok (h1, inner) =>
            let '(h2, l) := alloc h1 (ODict [(s, inner)]) in
            Ok (h2, VRef l)
        | e => e
        end
  end.

(** The callback of [explode], for one [key] of [o]; [rec] is the recursive
    call and [mrg] is [merge]. *)
Definition explode_key
    (rec : heap → loc → list string → outcome heap)
    (mrg : heap → loc → loc → list string → outcome heap)
    (o : loc) (path : list string) (key : string) (h : heap) : outcome heap :=
  let list := split_dots key in
  let value := get_prop h o key in
  match list with
  | first :: _ :: _ =>
      let h1 := del_prop h o key in
      match chain h1 list value with
      | Ok (h2, VRef head) =>
          match mrg h2 o head (path ++ [first]) with
          | Ok h3 =>
              match isDict h3 value with
              | Some l => rec h3 l list
              | None => Ok h3
              end
          | e => e
          end
      | Ok _ => Stuck
      | Throw m => Throw m
      | Stuck => Stuck
      end
  | _ =>
      match isDict h value with
      | Some l => rec h l (path ++ [key])
      | None => Ok h
      end
  end.

Fixpoint explode (n : nat) (h : heap) (o : loc) (path : list string)
  : outcome heap :=
  match n with
  | 0 => Stuck
  | S n' =>
      match dict_at h o with
      | None => Stuck
      | Some ps =>
          each_key (explode_key (explode n') (merge n') o path)
                   (enum_keys (keys ps)) h
      end
  end.

(** * JSON documents

    What [JSON.parse] returns for a text, as a tree.  An object of a parsed
    text has no two members of one name ([wf] below): of a repeated name
    the parser keeps the last member. *)

Inductive tree :=
| TNull | TBool (b : bool) | TNum (n : Z) | TStr (s : string)
| TArr (es : list tree)
| TDict (ps : list (string * tree)).

Definition tprops := list (string * tree).

(** Loading the members of an array or of an object, in order. *)
Fixpoint load_all {A B : Type} (ld : A → heap → heap * B)
    (xs : list A) (h : heap) : heap * list B :=
  match xs with
  | [] => (h, [])
  | x :: r =>
      let '(h1, v) := ld x h in
      let '(h2, vs) := load_all ld r h1 in (h2, v :: vs)
  end.

Definition load_member (ld : tree → heap → heap * val)
    (kv : string * tree) (h : heap) : heap * (string * val) :=
  let '(h1, v) := ld (snd kv) h in (h1, (fst kv, v)).

(** [JSON.parse]: every array and object of the document is a fresh object
    of the store. *)
Fixpoint load (t : tree) (h : heap) : heap * val :=
  match t with
  | TNull => (h, VNull)
  | TBool b => (h, VBool b)
  | TNum n => (h, VNum n)
  | TStr s => (h, VStr s)
  | TArr es =>
      let '(h', vs) := load_all load es h in
      let '(h'', l) := alloc h' (OArr vs) in (h'', VRef l)
  | TDict ps =>
      let '(h', qs) := load_all (load_member load) ps h in
      let '(h'', l) := alloc h' (ODict qs) in (h'', VRef l)
  end.

(** The document a value of the store denotes, read through the references. *)
Fixpoint read (n : nat) (h : heap) (v : val) : option tree :=
  match n with
  | 0 => None
  | S n' =>
      match v with
      | VNull => Some TNull
      | VBool b => Some (TBool b)
      | VNum z => Some (TNum z)
      | VStr s => Some (TStr s)
      | VRef l =>
          match h !! l with
          | Some (OArr es) =>
              TArr <$> mapM (read n' h) es
          | Some (ODict ps) =>
              TDict <$> mapM (λ kv, pair (fst kv) <$> read n' h (snd kv)) ps
          | None => None
          end
      | VUndefined => None
      end
  end.

Fixpoint tget (k : string) (ps : tprops) : option tree :=
  match ps with
  | [] => None
  | (k', v) :: r => if decide (k = k') then Some v else tget k r
  end.

Fixpoint tput (k : string) (v : tree) (ps : tprops) : tprops :=
  match ps with
  | [] => [(k, v)]
  | (k', v') :: r => if decide (k = k') then (k, v) :: r else (k', v') :: tput k v r
  end.

Definition tkeys (ps : tprops) : list string := map fst ps.

(** The member of a document at a dotted path, through objects. *)
Fixpoint tat (q : list string) (t : tree) : option tree :=
  match q with
  | [] => Some t
  | k :: q' =>
      match t with
      | TDict ps =>
          match tget k ps with
          | Some t' => tat q' t'
          | None => None
          end
      | _ => None
      end
  end.

(** An object has no two members of one name, at any depth. *)
Fixpoint wf (t : tree) : bool :=
  match t with
  | TArr es => forallb wf es
  | TDict ps =>
      bool_decide (NoDup (map fst ps)) && forallb (λ kv, wf (snd kv)) ps
  | _ => true
  end.

(** Nesting of objects within objects. *)
Fixpoint depth (t : tree) : nat :=
  match t with
  | TDict ps => S (list_max (map (λ kv, depth (snd kv)) ps))
  | _ => 0
  end.

(** A name with a dot. *)
Fixpoint has_dot (s : string) : bool :=
  match s with
  | EmptyString => false
  | String c r => bool_decide (c = "."%char) || has_dot r
  end.

(** An exploded document: no member name has a dot, in the objects that
    [explode] goes through (those below objects). *)
Fixpoint plain (t : tree) : bool :=
  match t with
  | TDict ps => forallb (λ kv, negb (has_dot (fst kv)) && plain (snd kv)) ps
  | _ => true
  end.

(** [f] holds of every member name of the document, in the objects that
    [merge] and [explode] go through (those below objects). *)
Fixpoint names_all (f : string → bool) (t : tree) : bool :=
  match t with
  | TDict ps => forallb (λ kv, f (fst kv) && names_all f (snd kv)) ps
  | _ => true
  end.

(** ** merge on documents

    What [merge] computes when [dest] and [src] are two separate documents
    and the member names of [src] are [ordinary], as a function of the
    documents; [merge_refines] below relates the two. *)
Definition tmerge_key (rec : tprops → tprops → list string → outcome tprops)
    (B : tprops) (path : list string) (key : string) (A : tprops)
  : outcome tprops :=
  match tget key B with
  | None => Stuck
  | Some tb =>
      match tget key A with
      | None => Ok (tput key tb A)
      | Some ta =>
          match ta, tb with
          | TDict a', TDict b' =>
              match rec a' b' (path ++ [key]) with
              | Ok c => Ok (tput key (TDict c) A)
              | Throw m => Throw m
              | Stuck => Stuck
              end
          | TArr ea, TArr eb => Ok (tput key (TArr (ea ++ eb)) A)
          | _, _ => Throw (merge_error (path ++ [key]))
          end
      end
  end.

Fixpoint tmerge (n : nat) (A B : tprops) (path : list string) : outcome tprops :=
  match n with
  | 0 => Stuck
  | S n' => each_key (tmerge_key (tmerge n') B path) (tkeys B) A
  end.

(** A conflict of [merge] at the dotted path [q]: both documents bind it
    below objects, and not to two objects nor to two arrays. *)
Definition mergeable (ta tb : tree) : bool :=
  match ta, tb with
  | TDict _, TDict _ | TArr _, TArr _ => true
  | _, _ => false
  end.

Inductive conflict : tprops → tprops → list string → Prop :=
| conflict_here A B k ta tb :
    tget k A = Some ta → tget k B = Some tb → mergeable ta tb = false →
    conflict A B [k]
| conflict_below A B k a' b' q :
    tget k A = Some (TDict a') → tget k B = Some (TDict b') →
    conflict a' b' q → conflict A B (k :: q).

Definition is_scalar (t : tree) : bool :=
  match t with TDict _ | TArr _ => false | _ => true end.

Definition is_dict (t : tree) : bool :=
  match t with TDict _ => true | _ => false end.

(** One side binds [q] to an object and the other to a scalar. *)
Inductive clash : tprops → tprops → list string → Prop :=
| clash_here A B k ta tb :
    tget k A = Some ta → tget k B = Some tb →
    is_dict ta && is_scalar tb || is_scalar ta && is_dict tb = true →
    clash A B [k]
| clash_below A B k a' b' q :
    tget k A = Some (TDict a') → tget k B = Some (TDict b') →
    clash a' b' q → clash A B (k :: q).

(** Deep equality of documents: the same members, in whatever order. *)
Fixpoint deep_equal (a b : tree) {struct a} : bool :=
  match a, b with
  | TNull, TNull => true
  | TBool x, TBool y => bool_decide (x = y)
  | TNum x, TNum y => bool_decide (x = y)
  | TStr x, TStr y => bool_decide (x = y)
  | TArr xs, TArr ys =>
      (fix go (xs ys : list tree) {struct xs} : bool :=
         match xs, ys with
         | [], [] => true
         | x :: xs', y :: ys' => deep_equal x y && go xs' ys'
         | _, _ => false
         end) xs ys
  | TDict ps, TDict qs =>
      bool_decide (List.length ps = List.length qs) &&
      (fix go (ps : list (string * tree)) : bool :=
         match ps with
         | [] => true
         | (k, x) :: ps' =>
             match tget k qs with
             | Some y => deep_equal x y
             | None => false
             end && go ps'
         end) ps
  | _, _ => false
  end.

(** The configuration fold of [processFiles]: each source is exploded and
    merged into one accumulator, in order. *)
Fixpoint apply_sources (n : nat) (h : heap) (output : loc) (docs : list tree)
  : outcome heap :=
  match docs with
  | [] => Ok h
  | d :: r =>
      match load d h with
      | (h1, VRef o) =>
          match explode n h1 o [] with
          | Ok h2 =>
              match merge n h2 output o [] with
              | Ok h3 => apply_sources n h3 output r
              | e => e
              end
          | e => e
          end
      | _ => Stuck
      end
  end.

Definition build_config (n : nat) (docs : list tree) : outcome (heap * loc) :=
  let '(h, output) := alloc [] (ODict []) in
  match apply_sources n h output docs with
  | Ok h' => Ok (h', output)
  | Throw m => Throw m
  | Stuck => Stuck
  end.

Definition explode_doc (n : nat) (t : tree) : outcome (option tree) :=
  match load t [] with
  | (h, VRef o) =>
      match explode n h o [] with
      | Ok h' => Ok (read n h' (VRef o))
      | Throw m => Throw m
      | Stuck => Stuck
      end
  | _ => Stuck
  end.

Definition config_doc (n : nat) (docs : list tree) : outcome (option tree) :=
  match build_config n docs with
  | Ok (h, o) => Ok (read n h (VRef o))
  | Throw m => Throw m
  | Stuck => Stuck
  end.

(** The documents of the examples. *)
Definition dotted : tree := TDict [("a.b.c.d"%string, TNum 42)].

Definition nested : tree :=
  TDict [("a"%string, TDict [("b"%string,
           TDict [("c"%string, TDict [("d"%string, TNum 42)])])])].

Definition fragment1 : tree :=
  TDict [ ("example.array"%string, TArr [TNum 1; TNum 2]);
          ("example.something.a"%string, TNum 1);
          ("someMember"%string, TNum 42) ].

Definition fragment2 : tree :=
  TDict [ ("example"%string,
           TDict [ ("array"%string, TArr [TNum 3; TNum 4]);
                   ("something"%string, TDict [("b"%string, TNum 2)]) ]) ].

Definition merged : tree :=
  TDict [ ("example"%string,
           TDict [ ("array"%string, TArr [TNum 1; TNum 2; TNum 3; TNum 4]);
                   ("something"%string,
                    TDict [("a"%string, TNum 1); ("b"%string, TNum 2)]) ]);
          ("someMember"%string, TNum 42) ].

(** A dotted key whose object lands on an object that is there already. *)
Definition overlaid : tree :=
  TDict [ ("a"%string, TDict [("b"%string, TDict [])]);
          ("a.b"%string, TDict [("c.d"%string, TNum 1)]) ].

Definition overlaid_once : tree :=
  TDict [("a"%string, TDict [("b"%string, TDict [("c.d"%string, TNum 1)])])].

Definition overlaid_twice : tree :=
  TDict [("a"%string, TDict [("b"%string,
           TDict [("c"%string, TDict [("d"%string, TNum 1)])])])].

(** * Documents in the store *)

(** [reads P h v t]: the value [v] denotes the document [t] in the store [h],
    through objects at locations in [P] only. *)
Inductive reads (P : loc → Prop) (h : heap) : val → tree → Prop :=
| R_null : reads P h VNull TNull
| R_bool b : reads P h (VBool b) (TBool b)
| R_num n : reads P h (VNum n) (TNum n)
| R_str s : reads P h (VStr s) (TStr s)
| R_arr l vs es :
    P l → h !! l = Some (OArr vs) → Forall2 (reads P h) vs es →
    reads P h (VRef l) (TArr es)
| R_dict l qs ps :
    P l → h !! l = Some (ODict qs) →
    Forall2 (λ q p, fst q = fst p ∧ reads P h (snd q) (snd p)) qs ps →
    reads P h (VRef l) (TDict ps).

(** [lays h lo t v hi]: the document [t] is laid out in the store [h] as
    [load] lays it out, in the locations from [lo] up to [hi], excluded, each
    used once, with [v] for its value. *)
Inductive lays (h : heap) : nat → tree → val → nat → Prop :=
| L_null lo : lays h lo TNull VNull lo
| L_bool lo b : lays h lo (TBool b) (VBool b) lo
| L_num lo n : lays h lo (TNum n) (VNum n) lo
| L_str lo s : lays h lo (TStr s) (VStr s) lo
| L_arr lo es vs l :
    lays_arr h lo es vs l → h !! l = Some (OArr vs) →
    lays h lo (TArr es) (VRef l) (S l)
| L_dict lo ps qs l :
    lays_dict h lo ps qs l → h !! l = Some (ODict qs) →
    lays h lo (TDict ps) (VRef l) (S l)
with lays_arr (h : heap) : nat → list tree → list val → nat → Prop :=
| LA_nil lo : lays_arr h lo [] [] lo
| LA_cons lo e es v vs mid hi :
    lays h lo e v mid → lays_arr h mid es vs hi →
    lays_arr h lo (e :: es) (v :: vs) hi
with lays_dict (h : heap) : nat → tprops → props → nat → Prop :=
| LD_nil lo : lays_dict h lo [] [] lo
| LD_cons lo k e ps v qs mid hi :
    lays h lo e v mid → lays_dict h mid ps qs hi →
    lays_dict h lo ((k, e) :: ps) ((k, v) :: qs) hi.

Scheme lays_mut := Minimality for lays Sort Prop
  with lays_arr_mut := Minimality for lays_arr Sort Prop
  with lays_dict_mut := Minimality for lays_dict Sort Prop.
Combined Scheme lays_mutind from lays_mut, lays_arr_mut, lays_dict_mut.

(** Nesting of arrays and objects: the fuel [read] needs, less one. *)
Fixpoint height (t : tree) : nat :=
  match t with
  | TArr es => S (list_max (map height es))
  | TDict ps => S (list_max (map (λ kv, height (snd kv)) ps))
  | _ => 0
  end.

(** [merge(A, B, path)] on two documents just parsed: the store after it
    and the value of [A]. *)
Definition merge_docs (n : nat) (A B : tprops) (path : list string)
  : outcome (heap * val) :=
  let '(h1, a) := load (TDict A) [] in
  let '(h2, b) := load (TDict B) h1 in
  match a, b with
  | VRef dest, VRef src =>
      match merge n h2 dest src path with
      | Ok h' => Ok (h', a)
      | Throw m => Throw m
      | Stuck => Stuck
      end
  | _, _ => Stuck
  end.

(** ** Ranges of locations, and the loop of merge *)

Definition within (lo hi : nat) (l : loc) : Prop := lo ≤ l < hi.


Definition load_ok (t : tree) : Prop :=
  ∀ h, ∃ objs, fst (load t h) = h ++ objs ∧
    lays (fst (load t h)) (List.length h) t (snd (load t h))
         (List.length (fst (load t h))).


(** The members of [dest] during the loop over the keys [ks] of [src] still
    to visit: the members are in consecutive ranges of locations; a member
    whose key is still to visit is laid out in its range as it was loaded,
    and every member denotes its document through its range and the
    locations [PB] of [src]. *)
Inductive inv (h : heap) (PB : loc → Prop) (ks : list string)
  : nat → props → tprops → nat → Prop :=
| inv_nil lo : inv h PB ks lo [] [] lo
| inv_cons lo mid hi k v t pd A :
    lo ≤ mid →
    (k ∈ ks → lays h lo t v mid) →
    reads (λ l, within lo mid l ∨ PB l) h v t →
    inv h PB ks mid pd A hi →
    inv h PB ks lo ((k, v) :: pd) ((k, t) :: A) hi.

(** * The template engine *)

(** ** The block regular expression
    [(?:\r?\n?<\?\?|<\?)(.+?)(?:\?\?>\r?\n?|\?>)] with the flags [g] and
    [s] *)

Definition open_re : re :=
  Alt (Seq (maybe (Chr (isc cr))) (Seq (maybe (Chr (isc nl))) (lit (txt "<??"))))
      (lit (txt "<?")).

Definition close_re : re :=
  Alt (Seq (lit (txt "??>")) (Seq (maybe (Chr (isc cr))) (maybe (Chr (isc nl)))))
      (lit (txt "?>")).

Definition block_re : re :=
  Seq open_re (Seq (Grp 1 (plus false any)) close_re).

(** The expression at the start of [s]: the code of the block (the first
    group) and the text after the block. *)
Definition block_at (s : text) : option (text * text) :=
  match exec block_re s with
  | Some (c, k) => Some (default [] (group 1 c), k)
  | None => None
  end.

(** ** String conversion of a block's result *)

Definition of_Z (n : Z) : string := NilZero.string_of_int (Z.to_int n).

(** *** Numbers

    A number of the program is a double.  [VNum z] is the number that the
    integer [z] writes: [z] itself below [2 ^ 53], and the double nearest
    to [z] from there on.  [Number::toString] writes the fewest digits
    that give the double back when they are read, then the zeros up to
    the units, and the exponent form from 22 digits on. *)

(** The double nearest to [r], for [r] not negative: its 53 leading bits,
    rounded to nearest, ties to even. *)
Definition round_double (r : Z) : Z :=
  let bits := (Z.log2 r + 1)%Z in
  if (bits <=? 53)%Z then r
  else
    let sh := (bits - 53)%Z in
    let q := Z.shiftr r sh in
    let rest := (r - Z.shiftl q sh)%Z in
    let half := Z.shiftl 1 (sh - 1) in
    Z.shiftl (if (half <? rest)%Z || ((rest =? half)%Z && Z.odd q)
              then (q + 1)%Z else q) sh.

(** The integer of [k] digits and zeros that is read as the double [X],
    for the least [k]: of the two around [X], the nearer one that is read
    as [X]; [D] is the number of digits of [X]. *)
Fixpoint shortest_fuel (n : nat) (k D X : Z) : Z :=
  match n with
  | O => X
  | S n' =>
      let e := (D - k)%Z in
      if (e <=? 0)%Z then X
      else
        let p := (10 ^ e)%Z in
        let lo := (X / p * p)%Z in
        let hi := (lo + p)%Z in
        let okl := (round_double lo =? X)%Z in
        let okh := (round_double hi =? X)%Z in
        if okl && okh then
          if (X - lo <? hi - X)%Z then lo
          else if (hi - X <? X - lo)%Z then hi
          else if Z.even (X / p) then lo else hi
        else if okl then lo
        else if okh then hi
        else shortest_fuel n' (k + 1)%Z D X
  end.

(** A double is told from every other by 17 digits. *)
Definition shortest (X : Z) : Z :=
  shortest_fuel 17 1 (Z.of_nat (String.length (of_Z X))) X.

Fixpoint drop_zeros (s : list ascii) : list ascii :=
  match s with
  | c :: r => if bool_decide (c = "0"%char) then drop_zeros r else s
  | [] => []
  end.

(** The digits [ds] of an integer in the exponent form: the first digit,
    the others without the zeros at the end, and the exponent. *)
Definition exponent_form (ds : string) : string :=
  match rev (drop_zeros (rev (list_ascii_of_string ds))) with
  | [] => ds
  | d :: rest =>
      (String d (match rest with
                 | [] => EmptyString
                 | _ => String "."%char (string_of_list_ascii rest)
                 end)
       ++ "e+" ++ of_Z (Z.of_nat (String.length ds) - 1))%string
  end.

Definition big_number (x : Z) : string :=
  let X := round_double x in
  if (2 ^ 1024 <=? X)%Z then "Infinity"%string
  else
    let ds := of_Z (shortest X) in
    if String.length ds <=? 21 then ds else exponent_form ds.

(** [Number::toString] of the number [z] writes. *)
Definition number_string (z : Z) : string :=
  if (Z.abs z <? 2 ^ 53)%Z then of_Z z
  else if (z <? 0)%Z then ("-" ++ big_number (- z))%string
  else big_number z.

(** [ToString] of a value of the store, which holds data ([val] has no
    function and no symbol), for the values whose conversion returns
    ([has_string] below).  An array is its elements joined by commas,
    [null] and [undefined] elements being empty; an object is written by
    the [toString] it inherits. *)
Fixpoint to_str (n : nat) (h : heap) (v : val) : string :=
  match v with
  | VUndefined => "undefined"
  | VNull => "null"
  | VBool true => "true"
  | VBool false => "false"
  | VNum z => number_string z
  | VStr s => s
  | VRef l =>
      match n, h !! l with
      | S n', Some (OArr es) =>
          join ","
            (map (λ e, match e with
                       | VUndefined | VNull => EmptyString
                       | _ => to_str n' h e
                       end) es)
      | _, Some (ODict _) => "[object Object]"
      | _, _ => EmptyString
      end
  end.

Definition to_string (h : heap) (v : val) : string := to_str (List.length h) h v.

(** The values whose conversion to a string returns.  An object with an own
    member [toString] is none: the member is a datum, not a function, the
    [valueOf] the object inherits returns the object, and the conversion
    throws a [TypeError]; nor is an array with such an element. *)
Fixpoint has_str (n : nat) (h : heap) (v : val) : bool :=
  match v with
  | VRef l =>
      match n, h !! l with
      | S n', Some (OArr es) => forallb (has_str n' h) es
      | _, Some (ODict ps) =>
          match pget "toString" ps with Some _ => false | None => true end
      | _, _ => false
      end
  | _ => true
  end.

Definition has_string (h : heap) (v : val) : bool := has_str (List.length h) h v.

(** [output === undefined ? "" : output], then converted to a string by
    [replace]. *)
Definition replacement (h : heap) (output : val) : text :=
  match output with
  | VUndefined => []
  | _ => txt (to_string h output)
  end.

Definition truthy (v : val) : bool :=
  match v with
  | VUndefined | VNull => false
  | VBool b => b
  | VNum z => negb (Z.eqb z 0)
  | VStr s => negb (bool_decide (s = EmptyString))
  | VRef _ => true
  end.

(** [if (!config.ctemplate) config.ctemplate = {}] *)
Definition ensure_ctemplate (h : heap) (config : loc) : heap :=
  if truthy (get_prop h config "ctemplate") then h
  else let '(h1, l) := alloc h (ODict []) in set_prop h1 config "ctemplate" (VRef l).

(** [{config, ..., ...(config.ctemplate.export || {})}]: the bindings of the
    sandbox that are data, the exported members of an object after [config];
    the host's own ([console], [require], [process], [schemaVerify], [C],
    [assert]) are the evaluator's. *)
Definition sandbox_props (h : heap) (config : loc) : props :=
  let exported :=
    match get_prop h config "ctemplate" with
    | VRef c =>
        match isDict h (get_prop h c "export") with
        | Some e => default [] (dict_at h e)
        | None => []
        end
    | _ => []
    end in
  fold_left (λ ps kv, pput (fst kv) (snd kv) ps) exported
            [("config"%string, VRef config)].

(** The one sandbox object of a run, made before the loop over the files. *)
Definition scope (h : heap) (config : loc) : heap * loc :=
  let h1 := ensure_ctemplate h config in
  alloc h1 (ODict (sandbox_props h1 config)).

Section Engine.

(** [vm.runInContext(code, context)]: the script evaluator, a capability
    of the host.  It runs [code] with the object at [context] as its
    global object, in a store, and returns a value and the store it
    leaves, or throws. *)
Variable runInContext : text → loc → heap → outcome (val * heap).

(** The callback of [replace], over the matches in order. *)
Fixpoint render_items (context : loc) (its : list (item (M:=text))) (h : heap)
  : outcome (text * heap) :=
  match its with
  | [] => Ok ([], h)
  | Plain c :: r =>
      match render_items context r h with
      | Ok (o, h') => Ok (c :: o, h')
      | e => e
      end
  | Hit code :: r =>
      match runInContext code context h with
      | Ok (output, h1) =>
          match render_items context r h1 with
          | Ok (o, h') => Ok (replacement h1 output ++ o, h')
          | e => e
          end
      | Throw m => Throw m
      | Stuck => Stuck
      end
  end.

Definition render (context : loc) (s : text) (h : heap) : outcome (text * heap) :=
  render_items context (items block_at s) h.

(** [config.ctemplate.preamble ? config.ctemplate.preamble + result :
    result] *)
Definition with_preamble (h : heap) (config : loc) (result : text)
  : outcome text :=
  match get_prop h config "ctemplate" with
  | VUndefined | VNull => Throw "TypeError"
  | VRef c =>
      let p := get_prop h c "preamble" in
      Ok (if truthy p then txt (to_string h p) ++ result else result)
  | _ => Ok result
  end.

(** The body of the loop over the files, for the text of one file: what
    is written for it.  [vm.createContext(sandbox)] makes the object
    [sandbox] itself the global object of a context and returns it. *)
Definition processFile (sandbox config : loc) (h : heap) (file : text)
  : outcome (text * heap) :=
  let context := sandbox in
  match render context file h with
  | Ok (result, h') =>
      match with_preamble h' config result with
      | Ok out => Ok (out, h')
      | Throw m => Throw m
      | Stuck => Stuck
      end
  | e => e
  end.

Fixpoint processLoop (sandbox config : loc) (h : heap) (files : list text)
  : outcome (list text * heap) :=
  match files with
  | [] => Ok ([], h)
  | file :: r =>
      match processFile sandbox config h file with
      | Ok (out, h1) =>
          match processLoop sandbox config h1 r with
          | Ok (outs, h') => Ok (out :: outs, h')
          | e => e
          end
      | Throw m => Throw m
      | Stuck => Stuck
      end
  end.

(** [processFiles], from the merged configuration on: the texts written
    for the texts of the input files, in order. *)
Definition processFiles (h : heap) (config : loc) (files : list text)
  : outcome (list text) :=
  let '(h', sandbox) := scope h config in
  match processLoop sandbox config h' files with
  | Ok (outs, _) => Ok outs
  | Throw m => Throw m
  | Stuck => Stuck
  end.

End Engine.

(** ** A fragment of the script language, to run examples

    Expressions over the global object of the context. *)
Inductive expr :=
| ENum (n : Z)
| EVar (x : string)
| EGet (e : expr) (k : string)
| EAssign (x : string) (e : expr)
| ESet (e : expr) (k : string) (e' : expr).

Fixpoint eval (e : expr) (context : loc) (h : heap) : outcome (val * heap) :=
  match e with
  | ENum n => Ok (VNum n, h)
  | EVar x =>
      match dict_at h context with
      | Some ps =>
          match pget x ps with
          | Some v => Ok (v, h)
          | None => Throw "ReferenceError"
          end
      | None => Stuck
      end
  | EGet e k =>
      match eval e context h with
      | Ok (VUndefined, _) | Ok (VNull, _) => Throw "TypeError"
      | Ok (VRef l, h') => Ok (get_prop h' l k, h')
      | Ok (_, h') => Ok (VUndefined, h')
      | e => e
      end
  | EAssign x e =>
      match eval e context h with
      | Ok (v, h') => Ok (v, set_prop h' context x v)
      | e => e
      end
  | ESet e k e' =>
      match eval e context h with
      | Ok (VUndefined, _) | Ok (VNull, _) => Throw "TypeError"
      | Ok (o, h1) =>
          match eval e' context h1 with
          | Ok (v, h2) =>
              Ok (v, match o with VRef l => set_prop h2 l k v | _ => h2 end)
          | e => e
          end
      | e => e
      end
  end.

(** An evaluator for the scripts of a table of parsed programs. *)
Fixpoint parsed (table : list (text * expr)) (code : text) : option expr :=
  match table with
  | [] => None
  | (c, e) :: r => if decide (c = code) then Some e else parsed r code
  end.

Definition run_table (table : list (text * expr)) (code : text)
    (context : loc) (h : heap) : outcome (val * heap) :=
  match parsed table code with
  | Some e => eval e context h
  | None => Throw "SyntaxError"
  end.

(** A run from configuration documents to the written texts. *)
Definition ctemplate (n : nat) (evaluator : text → loc → heap → outcome (val * heap))
    (docs : list tree) (files : list text) : outcome (list text) :=
  match build_config n docs with
  | Ok (h, config) => processFiles evaluator h config files
  | Throw m => Throw m
  | Stuck => Stuck
  end.


(** A block with the short markers, on a line of its own. *)
Definition short_block (code : text) : text :=
  [nl] ++ txt "<?" ++ code ++ txt "?>" ++ [nl].

(** Two scripts: one sets a member of the configuration, one reads it. *)
Definition leak_table : list (text * expr) :=
  [ (txt " config.leak = 1 ", ESet (EVar "config") "leak" (ENum 1));
    (txt " config.leak ", EGet (EVar "config") "leak") ].

(** * The expressions as functions

    What the expressions above match, written out as functions on the
    text; [strip_at_eq], [scan_at_eq], [tidy_at_eq] and [block_at_eq] below
    prove them equal to the expressions, and the properties are proved on
    them. *)

(** The rest of a double-quoted literal, from inside it: the repeated
    group and the closing quote.  An escaped quote is tried first and
    continues the literal; when no later quote closes it, the backslash is
    taken as an ordinary character and the quote closes the literal. *)
Fixpoint str_tail (s : text) : option (text * text) :=
  match s with
  | [] => None
  | c :: r =>
      if isc dq c then Some ([dq], r)
      else
        match r with
        | d :: r' =>
            if isc bs c && isc dq d then
              match str_tail r' with
              | Some (m, k) => Some (c :: d :: m, k)
              | None => Some ([c; d], r')
              end
            else
              match str_tail r with
              | Some (m, k) => Some (c :: m, k)
              | None => None
              end
        | [] => None
        end
  end.

Definition literal (s : text) : option (text * text) :=
  match s with
  | q :: r =>
      if isc dq q then
        match r with
        | c :: _ =>
            if isc dq c then None
            else match str_tail r with
                 | Some (m, k) => Some (q :: m, k)
                 | None => None
                 end
        | [] => None
        end
      else
        match chop [sq; bs; sq; sq] s with
        | Some k => Some ([sq; bs; sq; sq], k)
        | None =>
            match r with
            | a :: b :: k =>
                if isc sq q && negb (isc sq a) && isc sq b
                then Some ([q; a; b], k) else None
            | _ => None
            end
        end
  | [] => None
  end.

Definition strip_direct (s : text) : option (strip_groups * text) :=
  match literal s with
  | Some (l, k) => Some (SString l, k)
  | None =>
      match span is_break s with
      | ((_ :: _) as w, k) => Some (SBreak w, k)
      | _ => None
      end
  end.

Definition open1_at (s : text) : option text :=
  match s with
  | c :: r =>
      if isc "=" c then
        match snd (span is_space r) with
        | b :: k => if isc "{" b then Some k else None
        | [] => None
        end
      else None
  | [] => None
  end.

Definition scan_direct (s : text) : option (scan_groups * text) :=
  match open1_at s with
  | Some k => Some (GOpen1, k)
  | None =>
      match s with
      | c :: k =>
          if isc "{" c then Some (GOpen2, k)
          else if isc "," c || isc ";" c || isc "}" c then Some (GSymbol c, k)
          else match literal s with
               | Some (l, k') => Some (GString l, k')
               | None => None
               end
      | [] => None
      end
  end.

Definition tidy_direct (s : text) : option (option text * text) :=
  match s with
  | c :: r =>
      if isc nl c then
        let '(t, r1) := span (isc tab) r in
        match span (isc sp) r1 with
        | (_ :: _, k) => Some (Some t, k)
        | _ =>
            match span (λ c, isc tab c || isc sp c) r with
            | (_ :: _, d :: k) => if isc nl d then Some (None, k) else None
            | _ => None
            end
        end
      else None
  | [] => None
  end.

(** An optional character. *)
Definition opt (c : ascii) (s : text) : text :=
  match s with
  | d :: r => if isc c d then r else s
  | [] => []
  end.

(** The close marker at the start of [s]: the long form with the carriage
    return and the newline after it, or else the short form. *)
Definition close_at (s : text) : option text :=
  match chop (txt "??>") s with
  | Some r => Some (opt nl (opt cr r))
  | None => chop (txt "?>") s
  end.

(** The lazy group and the close marker: the code is one character at
    least, and ends at the first close marker after that. *)
Fixpoint body_close (s : text) : option (text * text) :=
  match s with
  | [] => None
  | c :: r =>
      match close_at r with
      | Some k => Some ([c], k)
      | None =>
          match body_close r with
          | Some (code, k) => Some (c :: code, k)
          | None => None
          end
      end
  end.

(** The whole expression at the start of [s]: the code of the block and the
    text after the block.  The long open marker, with the carriage return
    and the newline before it, is tried first. *)
Definition block_direct (s : text) : option (text * text) :=
  match
    match chop (txt "<??") (opt nl (opt cr s)) with
    | Some r => body_close r
    | None => None
    end
  with
  | Some m => Some m
  | None =>
      match chop (txt "<?") s with
      | Some r => body_close r
      | None => None
      end
  end.

(** A greedy repetition of a class: what follows is tried after the
    longest run of the class, then after shorter and shorter ones. *)
Fixpoint back {A} (f : ascii → bool) (s : text) (k : text → option A) : option A :=
  match s with
  | x :: s' => if f x then orelse (back f s' k) (k s) else k s
  | [] => k []
  end.

(** A lazy repetition of any character: what follows is tried on the text,
    then after one character, and so on. *)
Fixpoint forth {A} (s : text) (k : text → option A) : option A :=
  orelse (k s) (match s with _ :: s' => forth s' k | [] => None end).

(** ** Markers in a text *)

(** The open marker, short or long, occurs in [s]. *)
Fixpoint has_open (s : text) : bool :=
  match s with
  | c :: r =>
      (isc "<" c && match r with d :: _ => isc "?" d | [] => false end)
      || has_open r
  | [] => false
  end.

(** The close marker, short or long, occurs in [s]. *)
Fixpoint has_close (s : text) : bool :=
  match s with
  | c :: r =>
      (isc "?" c && match r with d :: _ => isc ">" d | [] => false end)
      || has_close r
  | [] => false
  end.

Ltac crunch :=
  repeat (simpl in *; unfold isc, opt, nl, cr in *;
          try case_bool_decide; try case_decide; simplify_eq; try done).

(** Text before a block: no match starts in [X] when no open marker occurs
    in [X] and the text after it is empty or starts with a newline, but for
    a carriage return that ends [X] before a newline and a long open
    marker. *)
Definition apart (X T : text) : Prop :=
  T = [] ∨ ∃ T', T = nl :: T' ∧ (last X = Some cr → chop (txt "<??") T' = None).

(** The text [X] written before what [r] writes. *)
Definition after (X : text) (r : outcome (text * heap)) : outcome (text * heap) :=
  match r with
  | Ok (o, h) => Ok (X ++ o, h)
  | e => e
  end.

(** Well-formed code of a block: not empty, without a close marker, and
    with no question mark first or last (it would extend the marker). *)
Definition code_ok (code : text) : Prop :=
  has_close code = false ∧ head code ≠ None ∧
  head code ≠ Some "?"%char ∧ last code ≠ Some "?"%char.


(** Evaluators with one answer. *)
Definition always (v : val) (code : text) (context : loc) (h : heap)
  : outcome (val * heap) := Ok (v, h).

(** * More of the program *)

(** ** What a text is without its white space *)

Definition dense (s : text) : text := List.filter (λ c, negb (is_space c)) s.


(** ** Expressions with anchors, and searching

    [$] at the end of an expression: what follows the match is the end of
    the text.  [x.match(r)] without the flag [g] looks for the first
    position where [r] matches. *)
Definition exec_end (r : re) (s : text) : option (caps * text) :=
  run r (S (List.length s)) s []
    (λ s' c, match s' with [] => Some (c, s') | _ :: _ => None end).

Fixpoint search {A} (m : text → option A) (s : text) : option A :=
  match m s with
  | Some a => Some a
  | None => match s with _ :: s' => search m s' | [] => None end
  end.

(** [Array.prototype.join] on an array of strings. *)
Fixpoint tjoin (sep : text) (l : list text) : text :=
  match l with
  | [] => []
  | [x] => x
  | x :: r => x ++ sep ++ tjoin sep r
  end.

(** ** The helpers of cLib.ts that build C text *)
Module CHelpers.

(** [/;\s*$/] *)
Definition semi_re : re := Seq (Chr (isc ";")) (Star true (Chr is_space)).

Definition ends_semi (x : text) : bool :=
  bool_decide (is_Some (search (exec_end semi_re) x)).

(** [x => x.match(/;\s*$/) ? x : (x + ";")] *)
Definition terminate (x : text) : text :=
  if ends_semi x then x else x ++ txt ";".

(** [${v || ""}] and [${v || "void"}] *)
Definition or_else (h : heap) (v : val) (d : text) : text :=
  if truthy v then txt (to_string h v) else d.

(** [value ? (" = " + value) : ""] *)
Definition init_part (h : heap) (value : val) : text :=
  if truthy value then txt " = " ++ txt (to_string h value) else [].

Definition struct (h : heap) (name : val) (list : list text) : text :=
  txt "struct " ++ or_else h name [] ++ txt "{"
  ++ tjoin (txt " ") (map terminate list) ++ txt "}".

Definition union (h : heap) (name : val) (list : list text) : text :=
  txt "union " ++ or_else h name [] ++ txt "{"
  ++ tjoin (txt " ") (map terminate list) ++ txt "}".

Definition typedef (name type : text) : text :=
  txt "typedef " ++ type ++ txt " " ++ name ++ txt ";".

(** [size == undefined]: [undefined] or [null]. *)
Definition absent (v : val) : bool :=
  match v with VUndefined | VNull => true | _ => false end.

Definition array (h : heap) (name type : text) (size value : val) : text :=
  type ++ txt " " ++ name ++ txt "["
  ++ (if absent size then [] else txt (to_string h size)) ++ txt "]"
  ++ init_part h value ++ txt ";".

Definition variable (h : heap) (name type : text) (value : val) : text :=
  type ++ txt " " ++ name ++ init_part h value ++ txt ";".

Definition call (func : text) (args : list text) : text :=
  func ++ txt "(" ++ tjoin (txt ", ") args ++ txt ")".

Definition function (h : heap) (name : text) (args : list text) (ret : val) : text :=
  or_else h ret (txt "void") ++ txt " " ++ name ++ txt "("
  ++ tjoin (txt ", ") args ++ txt ")".

Definition block (lines : list text) : text :=
  txt "{" ++ tjoin [] (map terminate lines) ++ txt "}".

Definition define (name value : text) : text :=
  txt "#define " ++ name ++ txt " " ++ value ++ [nl].

(** *** Escapes *)

(** [c.toString(8)], with fuel for the digits. *)
Fixpoint octal_fuel (n : nat) (c : N) : text :=
  match n with
  | 0 => []
  | S n' =>
      (if (c <? 8)%N then [] else octal_fuel n' (c / 8)%N)
      ++ [ascii_of_N (48 + c mod 8)]
  end.

Definition octal (c : N) : text := octal_fuel (S (N.to_nat (N.log2 c))) c.

(** [s.padStart(n, "0")] *)
Definition padStart (n : nat) (s : text) : text :=
  repeat "0"%char (n - List.length s) ++ s.

(** What both loops add for a code [c] that is not escaped by a backslash
    and itself: the character when it is printable, its octal escape
    otherwise. *)
Definition printable (c : N) : bool := ((32 <=? c) && (c <=? 126))%N.

Definition plain_or_octal (c : N) : text :=
  if printable c then [ascii_of_N c] else bs :: padStart 3 (octal c).

Definition blob_byte (c : N) : text :=
  if ((c =? 34) || (c =? 63) || (c =? 92))%N then [bs; ascii_of_N c]
  else plain_or_octal c.

(** [blob(data)]; the elements of a [Uint8Array] are below 256. *)
Definition blob (data : list N) : text :=
  [dq] ++ List.concat (map blob_byte data) ++ [dq].

(** What the loop of [charArray] adds for the code unit [c], which is
    [value.charCodeAt(i)]: [value[i]] is the character of that code. *)
Definition char_escape (c : N) : text :=
  if ((c =? 39) || (c =? 63) || (c =? 92))%N then [bs; ascii_of_N c]
  else plain_or_octal c.

(** The elements [out] of [charArray], quoted. *)
Definition char_literals (value : list N) : list text :=
  map (λ c, [sq] ++ char_escape c ++ [sq]) value.

(** [charArray(value)]; the string [value] is given by its code units,
    which are below 65536.  What is written is ASCII whatever they are: an
    octal escape has as many digits as the code needs, three at least. *)
Definition charArray (value : list N) : text :=
  txt "{" ++ tjoin (txt ",") (char_literals value) ++ txt "}".

End CHelpers.


(** ** Reading a C literal back

    The codes a C compiler reads from the body of a string or character
    literal closed by the quote [q], for the escapes the program writes:
    a backslash with a quote, a question mark or a backslash, and a
    backslash with one to three octal digits.  [None] for any other escape
    and for a quote [q] that is not escaped. *)
Definition octal_digit (c : ascii) : option N :=
  let n := N_of_ascii c in
  if ((48 <=? n) && (n <=? 55))%N then Some (n - 48)%N else None.

Fixpoint c_codes_fuel (n : nat) (q : ascii) (s : text) : option (list N) :=
  match s, n with
  | [], _ => Some []
  | _ :: _, 0 => None
  | c :: r, S n' =>
      if isc bs c then
        match r with
        | [] => None
        | d :: r1 =>
            if isc dq d || isc sq d || isc "?" d || isc bs d
            then cons (N_of_ascii d) <$> c_codes_fuel n' q r1
            else
              match octal_digit d with
              | None => None
              | Some a =>
                  match r1 with
                  | e :: r2 =>
                      match octal_digit e with
                      | Some b =>
                          match r2 with
                          | f :: r3 =>
                              match octal_digit f with
                              | Some g =>
                                  cons (a * 64 + b * 8 + g)%N
                                    <$> c_codes_fuel n' q r3
                              | None =>
                                  cons (a * 8 + b)%N <$> c_codes_fuel n' q r2
                              end
                          | [] => Some [(a * 8 + b)%N]
                          end
                      | None => cons a <$> c_codes_fuel n' q r1
                      end
                  | [] => Some [a]
                  end
              end
        end
      else if isc q c then None
      else cons (N_of_ascii c) <$> c_codes_fuel n' q r
  end.

Definition c_codes (q : ascii) (s : text) : option (list N) :=
  c_codes_fuel (List.length s) q s.

(** A literal in quotes [q]: the text between the first and the last
    character, which are [q]. *)
Definition c_literal (q : ascii) (s : text) : option (list N) :=
  match s with
  | a :: r =>
      match last r with
      | Some z => if isc q a && isc q z then c_codes q (removelast r) else None
      | None => None
      end
  | [] => None
  end.

(** A string literal, and a character literal, which holds one code. *)
Definition c_string (s : text) : option (list N) := c_literal dq s.

Definition c_char (s : text) : option N :=
  match c_literal sq s with
  | Some [c] => Some c
  | _ => None
  end.

(** The body of the character constant whose opening quote was just read,
    and what follows its closing quote: the constant ends at the first
    quote that no backslash escapes. *)
Fixpoint constant_end (s : text) : option (text * text) :=
  match s with
  | [] => None
  | c :: r =>
      if isc sq c then Some ([], r)
      else if isc bs c then
        match r with
        | d :: r' =>
            match constant_end r' with
            | Some (b, k) => Some (c :: d :: b, k)
            | None => None
            end
        | [] => None
        end
      else
        match constant_end r with
        | Some (b, k) => Some (c :: b, k)
        | None => None
        end
  end.

(** Character constants with commas between them, to the end of [s]: the
    code of each; [None] when one of them holds no code or more than
    one. *)
Fixpoint c_constants (n : nat) (s : text) : option (list N) :=
  match n, s with
  | S n', q :: r =>
      if isc sq q then
        match constant_end r with
        | Some (body, k) =>
            match c_codes sq body with
            | Some [c] =>
                match k with
                | [] => Some [c]
                | x :: k' =>
                    if isc "," x then cons c <$> c_constants n' k' else None
                end
            | _ => None
            end
        | None => None
        end
      else None
  | _, _ => None
  end.

(** An initializer of an array of characters: character constants in
    braces. *)
Definition c_char_array (s : text) : option (list N) :=
  match s with
  | a :: r =>
      match last r with
      | Some z =>
          if isc "{" a && isc "}" z then
            match removelast r with
            | [] => Some []
            | body => c_constants (List.length body) body
            end
          else None
      | None => None
      end
  | [] => None
  end.


(** The three shapes of what [blob] and [charArray] write for one code
    [c], read with the closing quote [q]: an escaped quote, question mark
    or backslash; a character that is neither a backslash nor [q]; a
    backslash and three octal digits. *)
Definition escape_of (q : ascii) (w : text) (c : N) : bool :=
  match w with
  | [x] => negb (isc bs x) && negb (isc q x) && (N_of_ascii x =? c)%N
  | [b; x] =>
      isc bs b && (isc dq x || isc sq x || isc "?" x || isc bs x)
      && (N_of_ascii x =? c)%N
  | [b; d2; d1; d0] =>
      isc bs b &&
      match octal_digit d2, octal_digit d1, octal_digit d0 with
      | Some a, Some b', Some g => (a * 64 + b' * 8 + g =? c)%N
      | _, _, _ => false
      end
  | _ => false
  end.


(** ** Exploded keys *)

(** The chain of objects a dotted key stands for: one object for each
    segment, the innermost holding the value. *)
Definition nest (segs : list string) (t : tree) : tree :=
  foldr (λ s acc, TDict [(s, acc)]) t segs.


(** ** The names of files *)

(** The dot of an expression without the flag [s]: any character but a
    line terminator. *)
Definition dot : re := Chr (λ c, negb (isc nl c || isc cr c)).

(** [/^(.+)[.]template$/] *)
Definition template_re : re := Seq (Grp 1 (plus true dot)) (lit (txt ".template")).

(** [file.match(/^(.+)[.]template$/)], and [match[1]]: the file to write
    when the option [output] is not given; [None] is the case that dies. *)
Definition output_name (file : text) : option text :=
  match exec_end template_re file with
  | Some (c, _) => group 1 c
  | None => None
  end.

(** [/\.config\.(js|json)$/] and [/\.schema\.(js|json)$/] *)
Definition kind_re (kind : text) : re :=
  Seq (lit (txt "." ++ kind ++ txt "."))
      (Grp 1 (Alt (lit (txt "js")) (lit (txt "json")))).

(** [x => x.match(regexp)], the filter of [readPath] on the names of a
    directory. *)
Definition selected (kind : text) (x : text) : bool :=
  bool_decide (is_Some (search (exec_end (kind_re kind)) x)).

Definition readdir_filter (kind : text) (names : list text) : list text :=
  List.filter (selected kind) names.


(** ** Plain C text, for the properties of the formatter on it

    [calm]: a character that is no brace, semicolon or quote and none of
    the breaks the first pass removes; [quiet]: not the equals sign
    either. *)
Definition calm (c : ascii) : bool :=
  negb (isc "{" c || isc "}" c || isc ";" c || isc dq c || isc sq c || is_break c).

Definition quiet (c : ascii) : bool := calm c && negb (isc "=" c).

(** An element of [struct], [union] or [block]: a text, with or without
    the semicolon that ends it. *)
Definition element (lb : text * bool) : text :=
  if snd lb then fst lb ++ txt ";" else fst lb.


(** ** defineGroup *)

(** [String.prototype.toUpperCase] on the code units below 256.  The sharp
    s becomes two letters; the capitals of the micro sign and of the y
    with diaeresis are code units above 255, which [text] does not hold:
    [None]. *)
Definition upper_unit (c : ascii) : option text :=
  let n := N_of_ascii c in
  if ((97 <=? n) && (n <=? 122))%N then Some [ascii_of_N (n - 32)]
  else if (n =? 223)%N then Some (txt "SS")
  else if ((n =? 181) || (n =? 255))%N then None
  else if ((224 <=? n) && (n <=? 254) && negb (n =? 247))%N
       then Some [ascii_of_N (n - 32)]
  else Some [c].

Fixpoint toUpperCase (s : text) : option text :=
  match s with
  | [] => Some []
  | c :: r =>
      match upper_unit c, toUpperCase r with
      | Some u, Some r' => Some (u ++ r')
      | _, _ => None
      end
  end.

(** The class [[A-Z]]. *)
Definition is_capital (c : ascii) : bool :=
  let n := N_of_ascii c in ((65 <=? n) && (n <=? 90))%N.

(** [key.replace(/[A-Z]/g, m => "_" + m)]: the expression is one character
    of a class, so every capital is a match. *)
Definition underscore (key : text) : text :=
  List.concat (map (λ c, if is_capital c then ["_"%char; c] else [c]) key).

(** [key.replace(/[A-Z]/g, m => "_" + m).toUpperCase()] *)
Definition macro_name (key : text) : option text := toUpperCase (underscore key).

(** One line of [defineGroup], for an entry of [Object.entries(object)]. *)
Definition define_line (h : heap) (prefix suffix : val) (kv : string * val)
  : option text :=
  match macro_name (txt (fst kv)) with
  | Some name =>
      Some (txt "#define " ++ CHelpers.or_else h prefix [] ++ name
            ++ CHelpers.or_else h suffix [] ++ txt " " ++ txt (to_string h (snd kv)))
  | None => None
  end.

(** [defineGroup(object, prefix, suffix)], on the entries of [object] in
    their order. *)
Definition defineGroup (h : heap) (entries : props) (prefix suffix : val)
  : option text :=
  match mapM (define_line h prefix suffix) entries with
  | Some ls => Some (tjoin [nl] ls)
  | None => None
  end.

(** Letters and digits of ASCII; the characters of a macro name made of
    them; and a capital back in lower case. *)
Definition alnum (c : ascii) : bool :=
  let n := N_of_ascii c in
  ((48 <=? n) && (n <=? 57) || (65 <=? n) && (n <=? 90) || (97 <=? n) && (n <=? 122))%N.

Definition macro_char (c : ascii) : bool :=
  let n := N_of_ascii c in
  ((48 <=? n) && (n <=? 57) || (65 <=? n) && (n <=? 90) || (n =? 95))%N.

Definition lower (c : ascii) : ascii :=
  if is_capital c then ascii_of_N (N_of_ascii c + 32) else c.

(** The key a macro name was made from: a letter after an underscore was a
    capital, any other letter was not. *)
Fixpoint camel (s : text) : text :=
  match s with
  | [] => []
  | c :: r =>
      if isc "_" c then
        match r with
        | d :: r' => d :: camel r'
        | [] => []
        end
      else lower c :: camel r
  end.


(** ** initializer *)

(** [initializer(value)].  The recursion takes fuel; [None] is the answer
    of the model without it, or for a reference to no object. *)
Fixpoint initializer (n : nat) (h : heap) (value : val) : option text :=
  match n with
  | 0 => None
  | S n' =>
      match value with
      | VRef l =>
          match h !! l with
          | Some (OArr es) =>
              match mapM (initializer n' h) es with
              | Some ts => Some (txt "{" ++ tjoin (txt ", ") ts ++ txt "}")
              | None => None
              end
          | Some (ODict ps) =>
              match mapM (λ kv, match initializer n' h (snd kv) with
                                | Some t =>
                                    Some (txt "." ++ txt (fst kv) ++ txt " = " ++ t)
                                | None => None
                                end) (own_entries ps) with
              | Some ts => Some (txt "{" ++ tjoin (txt ", ") ts ++ txt "}")
              | None => None
              end
          | None => None
          end
      | VNull => Some (txt "NULL")
      | _ => Some (txt (to_string h value))
      end
  end.

(** A character of a plain element of an initializer: [quiet], and no
    comma. *)
Definition atom (c : ascii) : bool := quiet c && negb (isc "," c).

(** * Properties *)

Lemma isc_true a c : isc a c = true ↔ c = a.
Proof. unfold isc. apply bool_decide_eq_true. Qed.

Lemma isc_false a c : isc a c = false ↔ c ≠ a.
Proof. unfold isc. apply bool_decide_eq_false. Qed.

Lemma isc_refl a : isc a a = true.
Proof. by apply isc_true. Qed.

Lemma chop_spec p s k : chop p s = Some k → s = p ++ k.
Proof.
  revert s. induction p as [|a p IH]; intros [|b s] H; simpl in *; try congruence.
  case_decide; [subst|done]. f_equal. by apply IH.
Qed.

Lemma chop_app p k : chop p (p ++ k) = Some k.
Proof. induction p as [|a p IH]; simpl; [done|]. by rewrite decide_True. Qed.

Lemma span_spec f s w k :
  span f s = (w, k) →
  s = w ++ k ∧ forallb f w = true ∧ (match k with c :: _ => f c = false | [] => True end).
Proof.
  revert w k. induction s as [|c r IH]; intros w k H; simpl in H.
  - by inversion H.
  - destruct (f c) eqn:E.
    + destruct (span f r) as [w' k'] eqn:E'. inversion H; subst.
      destruct (IH _ _ eq_refl) as (-> & ? & ?). simpl. rewrite E. auto.
    + inversion H; subst. simpl. auto.
Qed.

Lemma span_app f w k :
  forallb f w = true → (match k with c :: _ => f c = false | [] => True end) →
  span f (w ++ k) = (w, k).
Proof.
  intros Hw Hk. induction w as [|c w IH]; simpl in *.
  - destruct k; [done|]. simpl. by rewrite Hk.
  - apply andb_true_iff in Hw as [-> Hw]. by rewrite IH.
Qed.

Section ScanFacts.

Context {M : Type} (match_at : text → option (M * text)).
Hypothesis shorter :
  ∀ s m k, match_at s = Some (m, k) → List.length k < List.length s.

Lemma items_fuel_irrel n n' s :
  List.length s ≤ n → List.length s ≤ n' →
  items_fuel match_at n s = items_fuel match_at n' s.
Proof.
  revert n' s. induction n as [|n IH]; intros [|n'] [|c s] Hn Hn';
    simpl in *; try done; try lia.
  destruct (match_at (c :: s)) as [[m k]|] eqn:E.
  - apply shorter in E. simpl in E. f_equal. apply IH; lia.
  - f_equal. apply IH; lia.
Qed.

Lemma items_fuel_enough n s :
  List.length s ≤ n → items_fuel match_at n s = items match_at s.
Proof. intros. by apply items_fuel_irrel. Qed.

Lemma items_nil : items match_at [] = [].
Proof. done. Qed.

Lemma items_hit s m k :
  match_at s = Some (m, k) → items match_at s = Hit m :: items match_at k.
Proof.
  intros E. pose proof (shorter _ _ _ E) as Hlt.
  destruct s as [|c s]; [simpl in Hlt; lia|].
  unfold items at 1. simpl. rewrite E. f_equal.
  apply items_fuel_enough. simpl in Hlt. lia.
Qed.

Lemma items_plain c s :
  match_at (c :: s) = None →
  items match_at (c :: s) = Plain c :: items match_at s.
Proof. intros E. unfold items at 1. simpl. by rewrite E. Qed.

End ScanFacts.

(** ** The regular expressions *)

Lemma str_tail_spec s m k : str_tail s = Some (m, k) → s = m ++ k ∧ m ≠ [].
Proof.
  revert m k. induction s as [s IH] using (induction_ltof1 _ (@List.length ascii)).
  unfold ltof in IH. intros m k H. destruct s as [|c r]; [done|]. simpl in H.
  destruct (isc dq c) eqn:Ec.
  { apply isc_true in Ec as ->. by inversion H. }
  destruct r as [|d r']; [done|].
  destruct (isc bs c && isc dq d) eqn:Eb.
  - destruct (str_tail r') as [[m' k']|] eqn:E'.
    + inversion H; subst. destruct (IH r' ltac:(simpl; lia) _ _ E') as [-> _]. done.
    + by inversion H.
  - destruct (str_tail (d :: r')) as [[m' k']|] eqn:E'; [|done].
    inversion H; subst. destruct (IH (d :: r') ltac:(simpl; lia) _ _ E') as [-> _]. done.
Qed.

Lemma literal_spec s l k : literal s = Some (l, k) → s = l ++ k ∧ l ≠ [].
Proof.
  unfold literal. destruct s as [|q r]; [done|].
  destruct (isc dq q) eqn:Eq.
  - destruct r as [|c r']; [done|]. destruct (isc dq c); [done|].
    destruct (str_tail (c :: r')) as [[m k']|] eqn:E; [|done].
    intros H; inversion H; subst. apply str_tail_spec in E as [-> _]. done.
  - destruct (chop [sq; bs; sq; sq] (q :: r)) as [k'|] eqn:E.
    + intros H; inversion H; subst. apply chop_spec in E. done.
    + destruct r as [|a [|b k']]; try done.
      destruct (isc sq q && negb (isc sq a) && isc sq b); [|done].
      intros H; by inversion H.
Qed.

Section RegexFacts.
#[local] Arguments run {A} !r n s c k /.

Section RunFacts.
Context {A : Type}.
Implicit Types (k : text → caps → option A) (c : caps) (s : text).

Lemma orelse_None_r (x : option A) : orelse x None = x.
Proof. by destruct x. Qed.

Lemma orelse_Some (x y : option A) : is_Some x → orelse x y = x.
Proof. by intros [a ->]. Qed.

Lemma run_lit p n s c k :
  run (lit p) n s c k = match chop p s with Some s' => k s' c | None => None end.
Proof.
  revert s. induction p as [|a p IH]; intros s; [done|].
  destruct s as [|x s]; [done|]. cbn [lit run chop]. unfold isc.
  case_bool_decide; subst.
  - by rewrite decide_True.
  - by rewrite decide_False by done.
Qed.

Lemma star_class f n m s c k :
  List.length s < m →
  star true (run (Chr f) n) m s c k = back f s (λ s', k s' c).
Proof.
  revert s. induction m as [|m IH]; intros s Hm; [lia|].
  destruct s as [|x s]; [done|]. cbn [star run back].
  destruct (f x); [|done].
  assert ((List.length s <? List.length (x :: s)) = true) as ->.
  { apply Nat.ltb_lt. simpl. lia. }
  rewrite IH; [done|]. simpl in Hm. lia.
Qed.

Lemma back_head f s (k : text → option A) :
  (∀ x r, f x = true → k (x :: r) = None) → back f s k = k (snd (span f s)).
Proof.
  intros Hk. induction s as [|x s IH]; [done|]. simpl.
  destruct (f x) eqn:E; [|done].
  rewrite IH, (Hk _ _ E), orelse_None_r. by destruct (span f s).
Qed.

Lemma back_accept f s (k : text → option A) :
  (∀ r, is_Some (k r)) → back f s k = k (snd (span f s)).
Proof.
  intros Hk. induction s as [|x s IH]; [done|]. simpl.
  destruct (f x) eqn:E; [|done].
  rewrite IH, orelse_Some by done. by destruct (span f s).
Qed.

Lemma star_any n m s c k :
  List.length s < m →
  star false (run any n) m s c k = forth s (λ s', k s' c).
Proof.
  revert s. induction m as [|m IH]; intros s Hm; [lia|].
  destruct s as [|x s]; [by cbn; rewrite orelse_None_r|].
  cbn [star run any forth].
  assert ((List.length s <? List.length (x :: s)) = true) as ->.
  { apply Nat.ltb_lt. simpl. lia. }
  rewrite IH; [done|]. simpl in Hm. lia.
Qed.
End RunFacts.

Lemma take_consumed (w r : text) :
  take (List.length (w ++ r) - List.length r) (w ++ r) = w.
Proof.
  rewrite length_app. replace (_ + _ - _) with (List.length w) by lia.
  by rewrite take_app_length.
Qed.

Lemma span_fst_snd f s : s = fst (span f s) ++ snd (span f s).
Proof.
  destruct (span f s) as [w k] eqn:E. by apply span_spec in E as (-> & _).
Qed.


Section ClassFacts.
Context {A : Type}.
Implicit Types (k : text → caps → option A) (c : caps) (s : text).

Lemma star_head f n m s c k :
  List.length s < m → (∀ x r, f x = true → k (x :: r) c = None) →
  star true (run (Chr f) n) m s c k = k (snd (span f s)) c.
Proof. intros Hn Hk. rewrite star_class by done. by rewrite back_head. Qed.

Lemma star_accept f n m s c k :
  List.length s < m → (∀ r, is_Some (k r c)) →
  star true (run (Chr f) n) m s c k = k (snd (span f s)) c.
Proof. intros Hn Hk. rewrite star_class by done. by rewrite back_accept. Qed.

Lemma run_plus_head f n s c k :
  List.length s < n → (∀ x r, f x = true → k (x :: r) c = None) →
  run (plus true (Chr f)) n s c k =
  match span f s with (_ :: _, r) => k r c | _ => None end.
Proof.
  intros Hn Hk. unfold plus. cbn [run]. destruct s as [|x s]; [done|].
  cbn [span]. destruct (f x); [|done].
  rewrite star_head by (simpl in Hn; done || lia).
  by destruct (span f s).
Qed.

Lemma run_plus_accept f n s c k :
  List.length s < n → (∀ r, is_Some (k r c)) →
  run (plus true (Chr f)) n s c k =
  match span f s with (_ :: _, r) => k r c | _ => None end.
Proof.
  intros Hn Hk. unfold plus. cbn [run]. destruct s as [|x s]; [done|].
  cbn [span]. destruct (f x); [|done].
  rewrite star_accept by (simpl in Hn; done || lia).
  by destruct (span f s).
Qed.
End ClassFacts.

(** *** The third pass *)

Lemma tidy_at_eq s : tidy_at s = tidy_direct s.
Proof.
  unfold tidy_at, exec, tidy_re, tidy_direct.
  destruct s as [|x r]; [done|].
  set (n := S (List.length (x :: r))).
  assert (Hn : List.length r < n) by (subst n; simpl; lia).
  cbn [run]. destruct (isc nl x) eqn:Ex; [|done].
  rewrite star_head; [|done|]; cycle 1.
  { intros y z Hy. unfold plus. cbn [run]. apply isc_true in Hy as ->. done. }
  rewrite (run_plus_head (λ c, isc tab c || isc sp c)); [|done|]; cycle 1.
  { intros y z Hy. destruct (isc nl y) eqn:En; [|done].
    apply isc_true in En as ->. done. }
  destruct (span (isc tab) r) as [t r1] eqn:E1. cbn [snd].
  pose proof (span_spec _ _ _ _ E1) as (Hr & _ & _).
  rewrite run_plus_accept; [| |by eauto]; cycle 1.
  { rewrite Hr, length_app in Hn. lia. }
  destruct (span (isc sp) r1) as [[|y w] k] eqn:E2.
  - cbn [orelse].
    destruct (span (λ c, isc tab c || isc sp c) r) as [[|z u] [|d k']]; try done.
    by destruct (isc nl d).
  - cbn [orelse group]. rewrite decide_True by done.
    by rewrite Hr, take_consumed.
Qed.

(** *** String and character literals *)

Section Literal.
Context {A : Type}.
Implicit Types (k : text → caps → option A) (c : caps) (s : text).

(** The repeated group of a string literal and the closing quote, for a
    continuation that accepts. *)
Lemma star_str_tail (body : matcher A) k' n k c :
  (∀ s c k0, body s c k0 = run (Alt (lit [bs; dq]) (but dq)) n s c k0) →
  (∀ s c, k' s c = run (Chr (isc dq)) n s c k) →
  (∀ r, is_Some (k r c)) →
  ∀ m s, List.length s < m →
  star true body m s c k'
  = match str_tail s with Some (_, r) => k r c | None => None end.
Proof.
  intros Hbody Hk' Hk. induction m as [|m IH]; intros s Hm; [lia|].
  destruct s as [|x r]; cbn [star]; rewrite Hbody, Hk'; [done|].
  cbn [run orelse but str_tail]. rewrite run_lit.
  destruct (isc dq x) eqn:Ex.
  { apply isc_true in Ex as ->. simpl. by destruct (k r c). }
  rewrite orelse_None_r. cbn [negb].
  assert (Hr : (List.length r <? List.length (x :: r)) = true).
  { apply Nat.ltb_lt. simpl. lia. }
  rewrite Hr. destruct r as [|d r'].
  { simpl. rewrite IH by (simpl in *; lia). by destruct (decide (bs = x)). }
  rewrite (IH (d :: r')) by (simpl in *; lia).
  destruct (isc bs x && isc dq d) eqn:Eb.
  - apply andb_true_iff in Eb as [->%isc_true ->%isc_true].
    cbn [chop]. rewrite !decide_True by done.
    assert (Hr' : (List.length r' <? List.length (bs :: dq :: r')) = true).
    { apply Nat.ltb_lt. simpl. lia. }
    rewrite Hr', IH by (simpl in *; lia).
    cbn [str_tail]. rewrite isc_refl.
    destruct (str_tail r') as [[w r2]|]; cbn [orelse].
    + by destruct (Hk r2) as [a ->].
    + done.
  - assert (chop [bs; dq] (x :: d :: r') = None) as ->.
    { cbn [chop]. destruct (decide (bs = x)) as [<-|]; [|done].
      destruct (decide (dq = d)) as [<-|]; [|done].
      by rewrite !isc_refl in Eb. }
    cbn [orelse]. by destruct (str_tail (d :: r')) as [[w r2]|].
Qed.

Lemma run_literal n s c k :
  List.length s < n → (∀ r, is_Some (k r c)) →
  run literal_re n s c k
  = match literal s with Some (_, r) => k r c | None => None end.
Proof.
  intros Hn Hk. unfold literal_re, literal, plus.
  destruct s as [|q r]; [done|]. cbn [run]. rewrite !run_lit.
  destruct (isc dq q) eqn:Eq.
  - apply isc_true in Eq as ->.
    assert (chop [sq; bs; sq; sq] (dq :: r) = None) as -> by done.
    assert (isc sq dq = false) as -> by done. cbn [orelse].
    rewrite orelse_None_r.
    destruct r as [|x r1]; [done|]. unfold but at 2. cbn [run].
    destruct (isc dq x) eqn:Ex.
    { apply isc_true in Ex as ->. done. }
    cbn [negb str_tail]. rewrite Ex.
    rewrite (star_str_tail _ _ n k c) by (done || simpl in *; lia).
    destruct r1 as [|d r'].
    { simpl. by destruct (decide (bs = x)). }
    destruct (isc bs x && isc dq d) eqn:Eb.
    + apply andb_true_iff in Eb as [->%isc_true ->%isc_true].
      cbn [chop]. rewrite !decide_True by done.
      rewrite (star_str_tail _ _ n k c) by (done || simpl in *; lia).
      cbn [str_tail]. rewrite isc_refl.
      destruct (str_tail r') as [[w r2]|]; cbn [orelse]; [|done].
      by destruct (Hk r2) as [a ->].
    + assert (chop [bs; dq] (x :: d :: r') = None) as ->.
      { cbn [chop]. destruct (decide (bs = x)) as [<-|]; [|done].
        destruct (decide (dq = d)) as [<-|]; [|done].
        by rewrite !isc_refl in Eb. }
      cbn [orelse]. by destruct (str_tail (d :: r')) as [[w r2]|].
  - cbn [orelse]. destruct (chop [sq; bs; sq; sq] (q :: r)) as [k0|].
    { by rewrite orelse_Some. }
    cbn [orelse]. destruct r as [|a [|b k0]]; unfold but; cbn [run].
    + by destruct (isc sq q).
    + destruct (isc sq q); [|done]. by destruct (negb (isc sq a)).
    + destruct (isc sq q); [|done]. destruct (negb (isc sq a)); [|done].
      by destruct (isc sq b).
Qed.
End Literal.

Lemma literal_consumed s l k :
  literal s = Some (l, k) → take (List.length s - List.length k) s = l.
Proof. intros [-> _]%literal_spec. apply take_consumed. Qed.

(** *** The first pass *)

Lemma strip_at_eq s : strip_at s = strip_direct s.
Proof.
  unfold strip_at, exec, strip_re, strip_direct.
  set (n := S (List.length s)).
  assert (Hn : List.length s < n) by (subst n; lia).
  cbn [run]. rewrite run_literal by eauto.
  destruct (literal s) as [[l k]|] eqn:El.
  - cbn [orelse group]. rewrite decide_True by done.
    by rewrite (literal_consumed _ _ _ El).
  - cbn [orelse]. rewrite run_plus_accept by eauto.
    destruct (span is_break s) as [[|x w] k] eqn:E; [done|].
    cbn [group]. rewrite decide_False by done. rewrite decide_True by done.
    apply span_spec in E as (E & _). simpl. by rewrite E, take_consumed.
Qed.

(** *** The second pass *)

Lemma scan_at_eq s : scan_at s = scan_direct s.
Proof.
  unfold scan_at, exec, scan_re, scan_direct, open1_at.
  set (n := S (List.length s)).
  assert (Hn : List.length s < n) by (subst n; lia).
  cbn [run]. rewrite run_literal by eauto.
  destruct s as [|x r]; [done|].
  assert (Hone : take (List.length (x :: r) - List.length r) (x :: r) = [x]).
  { apply (take_consumed [x] r). }
  rewrite Hone.
  destruct (isc "=" x) eqn:Eeq.
  - apply isc_true in Eeq as ->.
    rewrite star_head; [|simpl in Hn; lia|]; cycle 1.
    { intros y z Hy. destruct (isc "{" y) eqn:E; [|done].
      apply isc_true in E as ->. done. }
    destruct (span is_space r).2 as [|b k]; [by destruct r as [|? [|? ?]]|].
    destruct (isc "{" b); [done|]. by destruct r as [|? [|? ?]].
  - cbn [orelse]. destruct (isc "{" x); [done|].
    cbn [orelse]. destruct (isc "," x || isc ";" x || isc "}" x); [done|].
    cbn [orelse]. destruct (literal (x :: r)) as [[l k]|] eqn:El; [|done].
    cbn [group]. rewrite decide_True by done.
    by rewrite (literal_consumed _ _ _ El).
Qed.

(** *** The block expression *)

Section Block.
Context {A : Type}.
Implicit Types (k : text → caps → option A) (c : caps) (s : text).

Lemma run_open n s c k :
  run open_re n s c k
  = orelse match chop (txt "<??") (opt nl (opt cr s)) with
           | Some r => k r c
           | None => None
           end
           match chop (txt "<?") s with
           | Some r => k r c
           | None => None
           end.
Proof.
  unfold open_re, maybe. cbn [run]. rewrite !run_lit. f_equal.
  assert (Hcr : ∀ r, chop (txt "<??") (cr :: r) = None) by done.
  assert (Hnl : ∀ r, chop (txt "<??") (nl :: r) = None) by done.
  destruct s as [|a s1]; [done|]. cbn [opt].
  destruct (isc cr a) eqn:Ea.
  - apply isc_true in Ea as ->. rewrite Hcr. cbn [orelse isc].
    assert (isc nl cr = false) as -> by done. cbn [orelse].
    rewrite orelse_None_r, run_lit.
    destruct s1 as [|b s2]; [done|]. cbn [opt].
    destruct (isc nl b) eqn:Eb.
    + apply isc_true in Eb as ->. by rewrite run_lit, Hnl, orelse_None_r.
    + reflexivity.
  - cbn [orelse opt]. destruct (isc nl a) eqn:Eb.
    + apply isc_true in Eb as ->. by rewrite run_lit, Hnl, orelse_None_r.
    + reflexivity.
Qed.

Lemma orelse_is_Some (x y : option A) : is_Some y → is_Some (orelse x y).
Proof. by destruct x. Qed.

Lemma run_close n s c k :
  (∀ r, is_Some (k r c)) →
  run close_re n s c k
  = match close_at s with Some r => k r c | None => None end.
Proof.
  intros Hk. unfold close_re, maybe, close_at. cbn [run]. rewrite !run_lit.
  destruct (chop (txt "??>") s) as [r|] eqn:E; [|done].
  cbn [run].
  rewrite orelse_Some by (by do 2 apply orelse_is_Some).
  destruct r as [|a r1]; [done|]. cbn [opt].
  destruct (isc cr a) eqn:Ea.
  - apply isc_true in Ea as ->. assert (isc nl cr = false) as -> by done.
    rewrite orelse_Some by (by apply orelse_is_Some).
    destruct r1 as [|b r2]; [done|]. cbn [opt].
    destruct (isc nl b); [|reflexivity]. by destruct (Hk r2) as [? ->].
  - cbn [orelse opt]. destruct (isc nl a); [|reflexivity]. by destruct (Hk r1) as [? ->].
Qed.

Lemma forth_ext s (k1 k2 : text → option A) :
  (∀ r, List.length r ≤ List.length s → k1 r = k2 r) → forth s k1 = forth s k2.
Proof.
  induction s as [|x s IH]; intros H; simpl.
  - by rewrite H.
  - rewrite H by done. rewrite IH; [done|]. intros r Hr. apply H. simpl. lia.
Qed.
End Block.

Lemma body_close_cons x r :
  body_close (x :: r)
  = match close_at r with
    | Some k => Some ([x], k)
    | None =>
        match body_close r with
        | Some (code, k) => Some (x :: code, k)
        | None => None
        end
    end.
Proof. done. Qed.

Lemma forth_body_close c full : ∀ r p x,
  full = p ++ x :: r →
  forth r (λ s, match close_at s with
                | Some k => Some ((1, take (List.length full - List.length s) full) :: c, k)
                | None => None
                end)
  = match body_close (x :: r) with
    | Some (code, k) => Some ((1, p ++ code) :: c, k)
    | None => None
    end.
Proof.
  induction r as [|y r IH]; intros p x Hf; [reflexivity|].
  cbn [forth]. rewrite (body_close_cons x).
  destruct (close_at (y :: r)) as [k|] eqn:E.
  - cbn [orelse]. do 3 f_equal. subst full.
    change (p ++ x :: y :: r) with (p ++ [x] ++ y :: r). rewrite app_assoc.
    f_equal. apply take_consumed.
  - cbn [orelse]. rewrite (IH (p ++ [x]) y) by (rewrite <- app_assoc; exact Hf).
    destruct (body_close (y :: r)) as [[code k]|]; [|reflexivity].
    by rewrite <- app_assoc.
Qed.

(** The lazy group with the close marker after it. *)
Lemma run_code_close n s c :
  List.length s < n →
  run (Seq (Grp 1 (plus false any)) close_re) n s c (λ s' c', Some (c', s'))
  = match body_close s with
    | Some (code, k) => Some ((1, code) :: c, k)
    | None => None
    end.
Proof.
  intros Hn. unfold plus. cbn [run]. destruct s as [|x r]; [done|].
  unfold any at 1. cbn [run]. rewrite star_any by (simpl in Hn; lia).
  etrans; [|exact (forth_body_close c (x :: r) r [] x eq_refl)].
  apply forth_ext. intros r' Hr'. by rewrite run_close by eauto.
Qed.

Lemma block_at_eq s : block_at s = block_direct s.
Proof.
  unfold block_at, exec, block_re, block_direct.
  set (n := S (List.length s)).
  change (run (Seq open_re (Seq (Grp 1 (plus false any)) close_re)) n s []
            (λ s' c, Some (c, s')))
    with (run open_re n s []
            (λ s1 c1, run (Seq (Grp 1 (plus false any)) close_re) n s1 c1
                        (λ s' c, Some (c, s')))).
  rewrite run_open.
  assert (Hopt : ∀ a (r : text), List.length (opt a r) ≤ List.length r).
  { intros a [|b r]; simpl; [done|]. destruct (isc a b); simpl; lia. }
  destruct (chop (txt "<??") (opt nl (opt cr s))) as [r|] eqn:E1.
  - rewrite run_code_close; cycle 1.
    { apply chop_spec, (f_equal List.length) in E1. rewrite length_app in E1.
      pose proof (Hopt nl (opt cr s)). pose proof (Hopt cr s).
      subst n. simpl in *. lia. }
    destruct (body_close r) as [[code k]|]; [done|]. cbn [orelse].
    destruct (chop (txt "<?") s) as [r'|] eqn:E2; [|done].
    rewrite run_code_close; cycle 1.
    { apply chop_spec, (f_equal List.length) in E2. rewrite length_app in E2.
      subst n. simpl in *. lia. }
    by destruct (body_close r') as [[code k]|].
  - cbn [orelse]. destruct (chop (txt "<?") s) as [r'|] eqn:E2; [|done].
    rewrite run_code_close; cycle 1.
    { apply chop_spec, (f_equal List.length) in E2. rewrite length_app in E2.
      subst n. simpl in *. lia. }
    by destruct (body_close r') as [[code k]|].
Qed.
End RegexFacts.

(** ** The formatter *)

Lemma consumed_shorter (l k : text) : l ≠ [] → List.length k < List.length (l ++ k).
Proof. intros. rewrite length_app. destruct l; [done|simpl; lia]. Qed.

Lemma strip_at_spec s g k :
  strip_at s = Some (g, k) → ∃ l, s = l ++ k ∧ l ≠ [] ∧
    match g with SString m => m = l | SBreak _ => forallb is_break l = true end.
Proof.
  rewrite strip_at_eq. unfold strip_direct. destruct (literal s) as [[l k']|] eqn:E.
  - intros H; inversion H; subst. apply literal_spec in E as [-> ?]. eauto.
  - destruct (span is_break s) as [[|c w] k'] eqn:E'; [done|].
    intros H; inversion H; subst. apply span_spec in E' as (-> & ? & _). eauto.
Qed.

Lemma strip_at_shorter s g k :
  strip_at s = Some (g, k) → List.length k < List.length s.
Proof. intros (l & -> & ? & _)%strip_at_spec. by apply consumed_shorter. Qed.

Lemma open1_at_spec s k :
  open1_at s = Some k ↔
  ∃ w, s = txt "=" ++ w ++ txt "{" ++ k ∧ forallb is_space w = true.
Proof.
  unfold open1_at. split.
  - destruct s as [|c r]; [done|]. destruct (isc "=" c) eqn:Ec; [|done].
    apply isc_true in Ec as ->.
    destruct (span is_space r) as [w k'] eqn:E. simpl.
    destruct k' as [|b k'']; [done|]. destruct (isc "{" b) eqn:Eb; [|done].
    apply isc_true in Eb as ->. intros H; inversion H; subst.
    apply span_spec in E as (-> & ? & _). by exists w.
  - intros (w & -> & Hw). simpl. rewrite (span_app is_space w ("{"%char :: k)); done.
Qed.

Lemma scan_at_spec s g k :
  scan_at s = Some (g, k) → ∃ l, s = l ++ k ∧ l ≠ [] ∧
    match g with GString m => m = l | _ => True end.
Proof.
  rewrite scan_at_eq. unfold scan_direct. destruct (open1_at s) as [k'|] eqn:E.
  - intros H; inversion H; subst. apply open1_at_spec in E as (w & -> & _).
    exists (txt "=" ++ w ++ txt "{"). by rewrite <- !app_assoc.
  - destruct s as [|c r]; [done|]. destruct (isc "{" c).
    { intros H; inversion H; subst. by exists [c]. }
    destruct (isc "," c || isc ";" c || isc "}" c).
    { intros H; inversion H; subst. by exists [c]. }
    destruct (literal (c :: r)) as [[l k']|] eqn:E'; [|done].
    intros H; inversion H; subst. apply literal_spec in E' as [-> ?]. eauto.
Qed.

Lemma scan_at_shorter s g k :
  scan_at s = Some (g, k) → List.length k < List.length s.
Proof. intros (l & -> & ? & _)%scan_at_spec. by apply consumed_shorter. Qed.

Lemma tidy_at_spec s g k :
  tidy_at s = Some (g, k) →
  match g with
  | Some t => ∃ w, s = nl :: t ++ w ++ k ∧ forallb (isc tab) t = true ∧
                   forallb (isc sp) w = true ∧ w ≠ []
  | None => ∃ w, s = nl :: w ++ nl :: k ∧ w ≠ [] ∧
                 forallb (λ c, isc tab c || isc sp c) w = true
  end.
Proof.
  rewrite tidy_at_eq. unfold tidy_direct. destruct s as [|c r]; [done|].
  destruct (isc nl c) eqn:Ec; [|done]. apply isc_true in Ec as ->.
  destruct (span (isc tab) r) as [t r1] eqn:E1.
  destruct (span (isc sp) r1) as [w r2] eqn:E2.
  apply span_spec in E1 as (-> & Ht & Hr1).
  apply span_spec in E2 as (-> & Hw & Hr2).
  destruct w as [|a w].
  - destruct (span _ (t ++ [] ++ r2)) as [u r3] eqn:E3.
    apply span_spec in E3 as (E3 & Hu & Hr3).
    destruct u as [|b u]; [done|]. destruct r3 as [|d r4]; [done|].
    destruct (isc nl d) eqn:Ed; [|done]. apply isc_true in Ed as ->.
    intros H; inversion H; subst. exists (b :: u). by rewrite E3.
  - intros H; inversion H; subst. exists (a :: w). done.
Qed.

Lemma tidy_at_shorter s g k :
  tidy_at s = Some (g, k) → List.length k < List.length s.
Proof.
  intros H%tidy_at_spec. destruct g as [t|].
  - destruct H as (w & -> & _ & _ & Hw). simpl. rewrite !length_app.
    destruct w; [done|simpl; lia].
  - destruct H as (w & -> & _). simpl. rewrite !length_app. simpl. lia.
Qed.

Lemma scan_hit st s g k :
  scan_at s = Some (g, k) →
  scan st s = snd (on_match st g) ++ scan (fst (on_match st g)) k.
Proof.
  intros E. unfold scan. rewrite (items_hit _ scan_at_shorter _ _ _ E).
  simpl. by destruct (on_match st g).
Qed.

Lemma scan_plain st c s :
  scan_at (c :: s) = None → scan st (c :: s) = c :: scan st s.
Proof. intros E. unfold scan. by rewrite (items_plain _ _ _ E). Qed.

(** C9. During a scan, whatever the state [st] reached so far: an opening
    brace after an equals sign and any white space [w] (so after "= ") is
    an initializer start, written as "= {" and a newline at a deeper
    indent, which leaves the mode positive; a bare opening brace keeps mode
    0 at 0 and increments a positive mode; and a comma is followed by a
    newline and the indent exactly when the mode is positive. *)
Theorem format_initializer_mode (st : fstate) (k : text) :
  let deeper := indent st ++ [tab] in
  (∀ w, forallb is_space w = true →
     scan st (txt "=" ++ w ++ txt "{" ++ k)
     = txt "= {" ++ [nl] ++ deeper
       ++ scan {| indent := deeper; mode := mode st + 1 |} k)
  ∧ (0 <? mode st + 1) = true
  ∧ scan st (txt "{" ++ k)
    = txt "{" ++ [nl] ++ deeper
      ++ scan {| indent := deeper;
                 mode := match mode st with 0 => 0 | S m => S m + 1 end |} k
  ∧ scan st (txt "," ++ k)
    = (match mode st with
       | 0 => txt ","
       | S _ => txt "," ++ [nl] ++ indent st
       end) ++ scan st k.
Proof.
  intros deeper. split; [|split; [|split]].
  - intros w Hw.
    assert (E : scan_at (txt "=" ++ w ++ txt "{" ++ k) = Some (GOpen1, k)).
    { rewrite scan_at_eq. unfold scan_direct.
      assert (open1_at (txt "=" ++ w ++ txt "{" ++ k) = Some k) as ->; [|done].
      apply open1_at_spec. by exists w. }
    by rewrite (scan_hit _ _ _ _ E).
  - apply Nat.ltb_lt. lia.
  - rewrite (scan_hit st _ GOpen2 k); [|by rewrite scan_at_eq].
    simpl. by destruct (mode st).
  - rewrite (scan_hit st _ (GSymbol ","%char) k); [|by rewrite scan_at_eq].
    simpl. destruct (mode st); simpl; by rewrite <- ?app_assoc.
Qed.

Lemma format_initializer_mode_witness :
  scan {| indent := []; mode := 0 |} (txt "=" ++ txt " " ++ txt "{" ++ txt "1,2}")
  = txt "= {" ++ [nl] ++ [tab]
    ++ scan {| indent := [tab]; mode := 1 |} (txt "1,2}").
Proof.
  apply (proj1 (format_initializer_mode {| indent := []; mode := 0 |} (txt "1,2}"))).
  reflexivity.
Defined.

Lemma closes_app r b : closes r = true → closes (r ++ b) = true.
Proof. induction r as [|c r IH]; simpl; [done|]. destruct (isc tab c); auto. Qed.

Lemma closes_not_blank r : closes r = true → blank (hd [] (lines r)) = false.
Proof.
  induction r as [|c r IH]; simpl; [done|].
  destruct (isc tab c) eqn:Et.
  - intros H. apply isc_true in Et as ->. simpl.
    specialize (IH H). destruct (lines r); simpl in *; [done|]. done.
  - intros ->%isc_true. simpl. by destruct (lines r).
Qed.

Lemma justified_mono px s : justified false s = true → justified px s = true.
Proof.
  destruct s as [|c r]; simpl; [done|].
  destruct (isc nl c); [|done]. simpl.
  intros [-> ->]%andb_true_iff. by rewrite orb_true_r.
Qed.

Lemma justified_app px a b :
  justified px a = true → justified false b = true → justified px (a ++ b) = true.
Proof.
  revert px. induction a as [|c a IH]; intros px Ha Hb; simpl in *.
  - by apply justified_mono.
  - apply andb_true_iff in Ha as [H1 H2]. rewrite IH by done.
    rewrite andb_true_r. destruct (isc nl c); [|done].
    apply orb_true_iff in H1 as [->|H1]; [done|].
    by rewrite closes_app, orb_true_r.
Qed.

Lemma justified_plain px s : nl ∉ s → justified px s = true.
Proof.
  revert px. induction s as [|c r IH]; intros px H; simpl; [done|].
  apply not_elem_of_cons in H as [H1 H2]. rewrite IH by done.
  apply not_eq_sym, isc_false in H1. by rewrite H1.
Qed.

Lemma justified_app_inv px a b :
  justified px (a ++ b) = true →
  justified (match last a with Some c => opener c | None => px end) b = true.
Proof.
  revert px. induction a as [|c a IH]; intros px H; simpl in *; [done|].
  apply andb_true_iff in H as [_ H]. apply IH in H.
  rewrite last_cons. by destruct (last a).
Qed.

Lemma tabs_no_nl i : tabs i → nl ∉ i.
Proof.
  unfold tabs. induction i as [|c i IH]; simpl; [intros _; apply not_elem_of_nil|].
  intros [Hc Hi]%andb_true_iff. apply not_elem_of_cons. split; [|auto].
  apply isc_true in Hc as ->. done.
Qed.

Lemma closes_tabs i k : tabs i → closes (i ++ txt "}" ++ k) = true.
Proof.
  unfold tabs. induction i as [|c i IH]; simpl; [done|].
  intros [-> Hi]%andb_true_iff. auto.
Qed.

Lemma on_match_justified st g :
  tabs (indent st) →
  match g with GString l => nl ∉ l | _ => True end →
  justified false (snd (on_match st g)) = true ∧ tabs (indent (fst (on_match st g))).
Proof.
  intros Hi Hg.
  assert (Hd : tabs (indent st ++ [tab])).
  { unfold tabs in *. by rewrite forallb_app, Hi. }
  assert (Ht : tabs (tail (indent st))).
  { unfold tabs in *. destruct (indent st); [done|]. simpl in Hi.
    by apply andb_true_iff in Hi as [_ ?]. }
  destruct g as [| |c|l]; simpl.
  - split; [|done]. apply justified_plain, tabs_no_nl, Hd.
  - split; [|done]. apply justified_plain, tabs_no_nl, Hd.
  - destruct (isc "}" c); [|destruct (isc ";" c); [|destruct (isc "," c)]]; simpl.
    + split; [|done]. rewrite (closes_tabs _ []) by done. simpl.
      apply justified_plain. intros [H|H]%elem_of_app.
      * by apply tabs_no_nl in H.
      * by apply list_elem_of_singleton in H.
    + split; [|done]. apply justified_plain, tabs_no_nl, Hi.
    + split; [|done]. destruct (0 <? mode st); simpl; [|done].
      apply justified_plain, tabs_no_nl, Hi.
    + done.
  - split; [|done]. by apply justified_plain.
Qed.

Lemma scan_justified s st :
  nl ∉ s → tabs (indent st) → justified false (scan st s) = true.
Proof.
  revert st. induction s as [s IH] using (induction_ltof1 _ (@List.length ascii)).
  unfold ltof in IH. intros st Hs Hi.
  destruct s as [|c r]; [done|].
  destruct (scan_at (c :: r)) as [[g k]|] eqn:E.
  - rewrite (scan_hit _ _ _ _ E).
    destruct (scan_at_spec _ _ _ E) as (l & El & Hl & Hg).
    rewrite El in Hs. apply not_elem_of_app in Hs as [Hs1 Hs2].
    destruct (on_match_justified st g Hi) as [H1 H2].
    { destruct g; try done. by subst. }
    apply justified_app; [done|]. apply IH; [|done..].
    rewrite El. by apply consumed_shorter.
  - rewrite (scan_plain _ _ _ E). apply not_elem_of_cons in Hs as [Hc Hr].
    simpl. apply not_eq_sym, isc_false in Hc. rewrite Hc. simpl.
    apply justified_mono. apply IH; [simpl; lia|done..].
Qed.

Lemma tidy_hit s g k :
  tidy_at s = Some (g, k) →
  tidy s = nl :: match g with Some t => t | None => [] end ++ tidy k.
Proof.
  intros E. unfold tidy. rewrite (items_hit _ tidy_at_shorter _ _ _ E).
  simpl. by destruct g.
Qed.

Lemma tidy_plain c s : tidy_at (c :: s) = None → tidy (c :: s) = c :: tidy s.
Proof. intros E. unfold tidy. by rewrite (items_plain _ _ _ E). Qed.

Lemma tidy_other c s : c ≠ nl → tidy (c :: s) = c :: tidy s.
Proof.
  intros Hc. apply tidy_plain. rewrite tidy_at_eq. unfold tidy_direct.
  apply isc_false in Hc. by rewrite Hc.
Qed.

Lemma closes_tidy r : closes r = true → closes (tidy r) = true.
Proof.
  induction r as [|c r IH]; simpl; [done|].
  destruct (isc tab c) eqn:Et.
  - apply isc_true in Et as ->. intros H. rewrite tidy_other by done.
    simpl. auto.
  - intros ->%isc_true. by rewrite tidy_other.
Qed.

Lemma closes_spaces t w k :
  forallb (λ c, isc tab c || isc sp c) t = true →
  match w with c :: _ => isc sp c = true ∨ isc nl c = true | [] => False end →
  closes (t ++ w ++ k) = false.
Proof.
  intros Ht Hw. induction t as [|c t IH]; simpl in *.
  - destruct w as [|c w]; [done|]. simpl.
    destruct Hw as [->%isc_true| ->%isc_true]; done.
  - apply andb_true_iff in Ht as [Hc Ht].
    apply orb_true_iff in Hc as [->%isc_true| ->%isc_true]; simpl; auto.
Qed.

Lemma forallb_weaken (f g : ascii → bool) (l : text) :
  (∀ c, f c = true → g c = true) → forallb f l = true → forallb g l = true.
Proof.
  intros Hfg. induction l as [|c l IH]; simpl; [done|].
  intros [Hc Hl]%andb_true_iff. rewrite (Hfg _ Hc). auto.
Qed.

Lemma tidy_justified s px : justified px s = true → justified px (tidy s) = true.
Proof.
  revert px. induction s as [s IH] using (induction_ltof1 _ (@List.length ascii)).
  unfold ltof in IH. intros px H.
  destruct s as [|c r]; [done|].
  destruct (tidy_at (c :: r)) as [[g k]|] eqn:E.
  - rewrite (tidy_hit _ _ _ E).
    pose proof (tidy_at_shorter _ _ _ E) as Hlt.
    apply tidy_at_spec in E. destruct g as [t|].
    + destruct E as (w & E & Ht & Hw & Hne). rewrite E in H.
      simpl in H. apply andb_true_iff in H as [H1 H2].
      rewrite closes_spaces in H1; cycle 1.
      { eapply forallb_weaken; [|exact Ht]. by intros ? ->. }
      { destruct w as [|a w]; [done|]. simpl in Hw.
        apply andb_true_iff in Hw as [-> _]. by left. }
      rewrite orb_false_r in H1. subst px. simpl.
      rewrite app_assoc in H2. apply justified_app_inv in H2.
      assert (last (t ++ w) = Some sp) as El.
      { rewrite last_app. destruct (last w) as [a|] eqn:Ea.
        - assert (a ∈ w) as Hin.
          { apply last_Some in Ea as [w' ->]. apply elem_of_app. right. by left. }
          apply list_elem_of_In in Hin.
          rewrite forallb_forall in Hw. apply Hw, isc_true in Hin. by subst.
        - apply last_None in Ea. done. }
      rewrite El in H2. apply justified_app.
      * apply justified_plain, tabs_no_nl, Ht.
      * apply IH; [lia|done].
    + destruct E as (w & E & Hne & Hw). rewrite E in H.
      simpl in H. apply andb_true_iff in H as [H1 H2].
      change (w ++ nl :: k) with (w ++ [nl] ++ k) in H1, H2.
      rewrite (closes_spaces w [nl] k) in H1 by (done || by right).
      rewrite orb_false_r in H1. subst px. simpl.
      rewrite app_assoc in H2. apply justified_app_inv in H2.
      rewrite last_snoc in H2. apply IH; [lia|done].
  - rewrite (tidy_plain _ _ E). simpl in *.
    apply andb_true_iff in H as [H1 H2]. rewrite IH by (simpl; lia || done).
    rewrite andb_true_r. destruct (isc nl c); [|done].
    apply orb_true_iff in H1 as [->|H1]; [done|].
    by rewrite closes_tidy, orb_true_r.
Qed.

Lemma trimRight_keep c r : is_space c = false → trimRight (c :: r) = c :: trimRight r.
Proof. intros H. simpl. rewrite H. by destruct (trimRight r). Qed.

Lemma trimRight_cons c r :
  trimRight r ≠ [] → trimRight (c :: r) = c :: trimRight r.
Proof. intros H. simpl. by destruct (trimRight r). Qed.

Lemma closes_trimRight r : closes r = true → closes (trimRight r) = true.
Proof.
  induction r as [|c r IH]; [done|]. intros H. simpl in H.
  destruct (isc tab c) eqn:Et.
  - specialize (IH H). rewrite trimRight_cons.
    + simpl. by rewrite Et.
    + intros E. by rewrite E in IH.
  - apply isc_true in H as ->. by rewrite trimRight_keep.
Qed.

Lemma trimRight_justified s px :
  justified px s = true → justified px (trimRight s) = true.
Proof.
  revert px. induction s as [|c r IH]; intros px H; [done|].
  simpl in H. apply andb_true_iff in H as [H1 H2].
  simpl. destruct (trimRight r) as [|d r'] eqn:E.
  - destruct (is_space c) eqn:Ec; [done|]. simpl.
    destruct (isc nl c) eqn:En; [|done].
    apply isc_true in En as ->. done.
  - specialize (IH _ H2).
    change (justified px (c :: d :: r')) with
      ((if isc nl c then px || closes (d :: r') else true)
       && justified (opener c) (d :: r')).
    rewrite IH, andb_true_r.
    destruct (isc nl c); [|done].
    apply orb_true_iff in H1 as [->|H1]; [done|].
    apply closes_trimRight in H1. rewrite E in H1. by rewrite H1, orb_true_r.
Qed.

Lemma trimRight_ends s : ends_blank (trimRight s) = false.
Proof.
  unfold ends_blank. induction s as [|c r IH]; [done|]. simpl.
  destruct (trimRight r) as [|d r'] eqn:E.
  - destruct (is_space c) eqn:Ec; [done|]. simpl. done.
  - by rewrite last_cons_cons.
Qed.

Lemma lines_nonempty s : lines s ≠ [].
Proof. destruct s as [|c r]; simpl; [done|]. destruct (isc nl c); [done|]. by destruct (lines r). Qed.

Lemma lines_app_plain p s :
  nl ∉ p → lines (p ++ s) = (p ++ hd [] (lines s)) :: tail (lines s).
Proof.
  induction p as [|c p IH]; intros Hp; simpl.
  - pose proof (lines_nonempty s). by destruct (lines s).
  - apply not_elem_of_cons in Hp as [Hc Hp].
    apply not_eq_sym, isc_false in Hc. rewrite Hc. by rewrite IH.
Qed.

Lemma opener_not_space c : opener c = true → is_space c = false.
Proof.
  unfold opener. intros H.
  repeat (apply orb_true_iff in H as [H|H]); apply isc_true in H as ->; done.
Qed.

Lemma blank_app a b : blank (a ++ b) = blank a && blank b.
Proof. apply forallb_app. Qed.

Lemma justified_lines s p px :
  nl ∉ p → (px = true → blank p = false) →
  justified px s = true → blank_pair (lines (p ++ s)) = false.
Proof.
  revert p px. induction s as [|c r IH]; intros p px Hp Hpx H.
  - by rewrite lines_app_plain.
  - simpl in H. apply andb_true_iff in H as [H1 H2].
    destruct (isc nl c) eqn:Ec.
    + apply isc_true in Ec as ->. rewrite lines_app_plain by done. simpl.
      rewrite app_nil_r. pose proof (lines_nonempty r) as Hne.
      specialize (IH [] false (not_elem_of_nil _) ltac:(done) H2). simpl in IH.
      destruct (lines r) as [|l ls] eqn:El; [done|]. rewrite IH.
      rewrite orb_false_r. apply orb_true_iff in H1 as [->|H1].
      * by rewrite Hpx.
      * apply closes_not_blank in H1. rewrite El in H1. simpl in H1.
        by rewrite H1, andb_false_r.
    + change (p ++ c :: r) with (p ++ [c] ++ r). rewrite app_assoc.
      apply (IH _ (opener c)); [| |done].
      * intros [?|?%list_elem_of_singleton]%elem_of_app; [done|].
        subst. by rewrite isc_refl in Ec.
      * intros Ho. rewrite blank_app. simpl.
        by rewrite (opener_not_space _ Ho), andb_false_r.
Qed.

(** C8, as the code has it.  The output of [format] as a whole never ends
    in white space; and when the first pass leaves no newline (every
    newline of the input is outside what the expression of the literals
    matches), the output never has two consecutive blank lines. *)
Theorem format_output_shape (code : text) (initialIndent : nat) :
  ends_blank (format code initialIndent) = false
  ∧ (nl ∉ strip code → blank_pair (lines (format code initialIndent)) = false).
Proof.
  unfold format. split; [apply trimRight_ends|]. intros H.
  apply (justified_lines _ [] false); [apply not_elem_of_nil|done|].
  apply trimRight_justified, tidy_justified, scan_justified; [done|].
  unfold tabs. simpl. induction initialIndent; simpl; auto.
Qed.

(** The claim of C8 fails: a space between a semicolon and a closing brace
    leaves a line that is one tab; and the newlines of a literal are kept,
    so two blank lines follow each other.  What the expression takes for a
    literal need not be a literal of C: it has one character at least
    between its quotes, so after the first quote of an empty literal the
    second one opens a match that runs to the next quote, newlines
    included. *)
Lemma format_lines_counterexample :
  format (txt "void f(){a; }") 0
    = txt "void f(){" ++ [nl; tab] ++ txt "a;" ++ [nl; tab; nl] ++ txt "}"
  ∧ existsb ends_blank (lines (format (txt "void f(){a; }") 0)) = true
  ∧ blank_pair (lines (format [dq; nl; nl; nl; dq] 0)) = true
  ∧ blank_pair (lines (format (txt "f(" ++ [dq; dq] ++ txt ");" ++ [nl; nl; nl]
                               ++ txt "g(" ++ [dq; dq] ++ txt ");") 0)) = true.
Proof. repeat split; vm_compute; reflexivity. Qed.

Lemma format_output_shape_witness :
  (nl ∉ strip (txt "void f(){a; }"))
  ∧ blank_pair (lines (format (txt "void f(){a; }") 0)) = false.
Proof.
  assert (H : nl ∉ strip (txt "void f(){a; }")).
  { apply (bool_decide_unpack _). vm_compute. exact I. }
  split; [exact H|]. exact (proj2 (format_output_shape _ 0) H).
Defined.

(** ** merge on documents *)

(** *** The loop combinator *)

Lemma each_key_app {S} (step : string → S → outcome S) ks1 ks2 s :
  each_key step (ks1 ++ ks2) s =
  match each_key step ks1 s with
  | Ok s' => each_key step ks2 s'
  | e => e
  end.
Proof.
  revert s. induction ks1 as [|k ks1 IH]; intros s; simpl; [done|].
  destruct (step k s); auto.
Qed.

(** *** Property lists *)

Lemma tget_tput_eq k v ps : tget k (tput k v ps) = Some v.
Proof.
  induction ps as [|[k' v'] r IH]; simpl.
  - by rewrite decide_True.
  - destruct (decide (k = k')); simpl.
    + by rewrite decide_True.
    + by rewrite decide_False.
Qed.

Lemma tget_tput_ne k k' v ps : k ≠ k' → tget k (tput k' v ps) = tget k ps.
Proof.
  intros Hne. induction ps as [|[k'' v''] r IH]; simpl.
  - by rewrite decide_False.
  - destruct (decide (k' = k'')); simpl.
    + subst. by rewrite !decide_False.
    + destruct (decide (k = k'')); auto.
Qed.

Lemma tget_Some_keys k ps : is_Some (tget k ps) ↔ k ∈ tkeys ps.
Proof.
  induction ps as [|[k' v'] r IH]; simpl.
  - split; [by intros [? ?]|by intros ?%elem_of_nil].
  - destruct (decide (k = k')); subst.
    + split; [intros _; left|eauto].
    + rewrite IH. split; [by right|].
      intros [?|?]%elem_of_cons; done.
Qed.

Lemma tget_None_keys k ps : tget k ps = None ↔ k ∉ tkeys ps.
Proof. rewrite <- tget_Some_keys. rewrite eq_None_not_Some. done. Qed.

(** *** The merge of documents *)

Section TMergeKey.
Context (rec : tprops → tprops → list string → outcome tprops).
Context (B : tprops) (path : list string).

Lemma tmerge_key_other k k' A A' :
  tmerge_key rec B path k' A = Ok A' → k ≠ k' → tget k A' = tget k A.
Proof.
  unfold tmerge_key. intros H Hne.
  destruct (tget k' B) as [tb|]; [|done].
  destruct (tget k' A) as [ta|].
  - destruct ta, tb; try done.
    + inversion H; subst. by apply tget_tput_ne.
    + destruct (rec _ _ _); try done. inversion H; subst. by apply tget_tput_ne.
  - inversion H; subst. by apply tget_tput_ne.
Qed.

Lemma tmerge_key_bound k A A' :
  tmerge_key rec B path k A = Ok A' → is_Some (tget k A').
Proof.
  unfold tmerge_key. intros H.
  destruct (tget k B) as [tb|]; [|done].
  destruct (tget k A) as [ta|].
  - destruct ta, tb; try done.
    + inversion H; subst. rewrite tget_tput_eq. eauto.
    + destruct (rec _ _ _); try done. inversion H; subst.
      rewrite tget_tput_eq. eauto.
  - inversion H; subst. rewrite tget_tput_eq. eauto.
Qed.

Lemma tmerge_key_arrays k A A' ea eb :
  tmerge_key rec B path k A = Ok A' →
  tget k A = Some (TArr ea) → tget k B = Some (TArr eb) →
  tget k A' = Some (TArr (ea ++ eb)).
Proof.
  unfold tmerge_key. intros H Ha Hb. rewrite Ha, Hb in H.
  inversion H; subst. apply tget_tput_eq.
Qed.

(** After the loop over [ks], started from [A0]. *)
Lemma tmerge_loop_get ks A0 C k :
  each_key (tmerge_key rec B path) ks A0 = Ok C →
  (k ∈ ks → is_Some (tget k C)) ∧
  (k ∉ ks → tget k C = tget k A0) ∧
  (is_Some (tget k A0) → is_Some (tget k C)).
Proof.
  revert A0. induction ks as [|k' ks IH]; intros A0 H; simpl in H.
  - inversion H; subst. split; [by intros ?%elem_of_nil|done].
  - destruct (tmerge_key rec B path k' A0) as [A1| |] eqn:E; try done.
    destruct (IH _ H) as (I1 & I2 & I3).
    assert (Hk' : is_Some (tget k A0) → is_Some (tget k A1)).
    { destruct (decide (k = k')) as [->|Hne].
      - intros _. by eapply tmerge_key_bound.
      - by rewrite (tmerge_key_other _ _ _ _ E Hne). }
    split; [|split].
    + intros [->|Hin]%elem_of_cons; [|auto].
      apply I3. by eapply tmerge_key_bound.
    + intros [Hne Hni]%not_elem_of_cons. rewrite I2 by done.
      by eapply tmerge_key_other.
    + auto.
Qed.

Lemma tmerge_loop_arrays ks A0 C k ea eb :
  each_key (tmerge_key rec B path) ks A0 = Ok C →
  NoDup ks → k ∈ ks →
  tget k A0 = Some (TArr ea) → tget k B = Some (TArr eb) →
  tget k C = Some (TArr (ea ++ eb)).
Proof.
  revert A0. induction ks as [|k' ks IH]; intros A0 H Hnd Hin Ha Hb; simpl in H.
  - by apply elem_of_nil in Hin.
  - destruct (tmerge_key rec B path k' A0) as [A1| |] eqn:E; try done.
    apply NoDup_cons in Hnd as [Hk' Hnd].
    destruct (decide (k = k')) as [->|Hne].
    + destruct (tmerge_loop_get _ _ _ k' H) as (_ & I2 & _).
      rewrite I2 by done. by eapply tmerge_key_arrays.
    + apply elem_of_cons in Hin as [?|Hin]; [done|].
      apply (IH A1); try done.
      by rewrite (tmerge_key_other _ _ _ _ E Hne).
Qed.
End TMergeKey.

(** For documents that merge, the result has the keys of both, and an array
    on both sides becomes the elements of [A] followed by those of [B]. *)
Lemma tmerge_keys_arrays n A B path C :
  tmerge n A B path = Ok C → NoDup (tkeys B) →
  (∀ k, k ∈ tkeys A ∨ k ∈ tkeys B → k ∈ tkeys C) ∧
  (∀ k ea eb, tget k A = Some (TArr ea) → tget k B = Some (TArr eb) →
              tget k C = Some (TArr (ea ++ eb))).
Proof.
  destruct n as [|n]; [done|]. simpl. intros H Hnd. split.
  - intros k Hk. apply tget_Some_keys.
    destruct (tmerge_loop_get _ _ _ _ _ _ k H) as (I1 & _ & I3).
    destruct Hk as [Hk|Hk]; [apply I3|apply I1]; [|done]. by apply tget_Some_keys.
  - intros k ea eb Ha Hb. eapply tmerge_loop_arrays; try done.
    apply tget_Some_keys. eauto.
Qed.

Lemma wf_dict B :
  wf (TDict B) = true ↔ NoDup (tkeys B) ∧ ∀ k t, (k, t) ∈ B → wf t = true.
Proof.
  simpl. rewrite andb_true_iff, bool_decide_eq_true, forallb_forall.
  split; intros [H1 H2]; (split; [done|]).
  - intros k t Hin. apply list_elem_of_In in Hin. apply (H2 (k, t) Hin).
  - intros [k t] Hin. apply list_elem_of_In in Hin. by apply (H2 k t).
Qed.

Lemma tget_elem k t ps : tget k ps = Some t → (k, t) ∈ ps.
Proof.
  induction ps as [|[k' v'] r IH]; simpl; [done|].
  destruct (decide (k = k')); subst.
  - intros [= ->]. left.
  - intros H. right. auto.
Qed.

Lemma wf_tget B k t : wf (TDict B) = true → tget k B = Some t → wf t = true.
Proof. intros [_ H]%wf_dict Hk%tget_elem. eauto. Qed.

Lemma depth_tget B k t :
  tget k B = Some t → depth t < depth (TDict B).
Proof.
  intros Hin%tget_elem. simpl. apply Nat.lt_succ_r.
  induction B as [|[k' t'] r IH]; [by apply elem_of_nil in Hin|].
  simpl. apply elem_of_cons in Hin as [[= -> ->]|Hin]; [lia|].
  specialize (IH Hin). lia.
Qed.

Section TMergeLoop.
Context (rec : tprops → tprops → list string → outcome tprops).
Context (B : tprops) (path : list string).

(** A key of a loop that ends well was visited once, in a state that
    still had the binding the loop started with. *)
Lemma tmerge_loop_visit ks A0 C k :
  each_key (tmerge_key rec B path) ks A0 = Ok C → NoDup ks → k ∈ ks →
  ∃ A1 A2, tget k A1 = tget k A0 ∧ tmerge_key rec B path k A1 = Ok A2.
Proof.
  revert A0. induction ks as [|k' ks IH]; intros A0 H Hnd Hin; simpl in H.
  - by apply elem_of_nil in Hin.
  - destruct (tmerge_key rec B path k' A0) as [A1| |] eqn:E; try done.
    apply NoDup_cons in Hnd as [Hk' Hnd].
    destruct (decide (k = k')) as [->|Hne]; [by eauto|].
    apply elem_of_cons in Hin as [?|Hin]; [done|].
    destruct (IH _ H Hnd Hin) as (A2 & A3 & E1 & E2).
    exists A2, A3. split; [|done]. rewrite E1. by eapply tmerge_key_other.
Qed.

Lemma tmerge_loop_throw ks A0 m :
  each_key (tmerge_key rec B path) ks A0 = Throw m → NoDup ks →
  ∃ k A1, k ∈ ks ∧ tget k A1 = tget k A0 ∧ tmerge_key rec B path k A1 = Throw m.
Proof.
  revert A0. induction ks as [|k' ks IH]; intros A0 H Hnd; simpl in H; [done|].
  apply NoDup_cons in Hnd as [Hk' Hnd].
  destruct (tmerge_key rec B path k' A0) as [A1| |] eqn:E; try done.
  - destruct (IH _ H Hnd) as (k & A2 & Hin & E1 & E2).
    exists k, A2. split; [by right|]. split; [|done].
    rewrite E1. eapply tmerge_key_other; [done|]. intros ->. done.
  - inversion H; subst. exists k', A0. split; [left|done].
Qed.

Lemma tmerge_loop_total ks A0 :
  (∀ k, k ∈ ks → is_Some (tget k B)) →
  (∀ k b a p, tget k B = Some (TDict b) → rec a b p ≠ Stuck) →
  each_key (tmerge_key rec B path) ks A0 ≠ Stuck.
Proof.
  intros Hks Hrec. revert A0. induction ks as [|k ks IH]; intros A0; simpl; [done|].
  destruct (tmerge_key rec B path k A0) as [A1| |] eqn:E; try done.
  - apply IH. intros. apply Hks. by right.
  - exfalso. unfold tmerge_key in E.
    destruct (Hks k ltac:(left)) as [tb Hb]. rewrite Hb in E.
    destruct (tget k A0) as [ta|]; [|done].
    destruct ta, tb; try done.
    destruct (rec _ _ _) eqn:Er; try done. by eapply Hrec.
Qed.
End TMergeLoop.

(** [merge] on documents returns, given fuel for the depth of [B]. *)
Lemma tmerge_total n A B path : depth (TDict B) ≤ n → tmerge n A B path ≠ Stuck.
Proof.
  revert A B path. induction n as [|n IH]; intros A B path Hd; [simpl in Hd; lia|].
  simpl. apply tmerge_loop_total.
  - intros k Hk. by apply tget_Some_keys.
  - intros k b a p Hb. apply IH. apply depth_tget in Hb. lia.
Qed.

Lemma clash_conflict A B q : clash A B q → conflict A B q.
Proof.
  induction 1 as [A B k ta tb Ha Hb Hc|A B k a' b' q Ha Hb _ IH].
  - eapply conflict_here; [done..|]. by destruct ta, tb.
  - by eapply conflict_below.
Qed.

(** A merge of documents that throws names a conflict of the documents. *)
Lemma tmerge_throw n A B path m :
  tmerge n A B path = Throw m → wf (TDict B) = true →
  ∃ q, m = merge_error (path ++ q) ∧ conflict A B q.
Proof.
  revert A B path m. induction n as [|n IH]; intros A B path m H Hwf; [done|].
  simpl in H. pose proof Hwf as [Hnd _]%wf_dict.
  destruct (tmerge_loop_throw _ _ _ _ _ _ H Hnd) as (k & A1 & Hin & E1 & E2).
  unfold tmerge_key in E2.
  destruct (tget k B) as [tb|] eqn:Hb; [|done].
  rewrite E1 in E2. destruct (tget k A) as [ta|] eqn:Ha; [|done].
  assert (mergeable ta tb = false →
          @Throw tprops (merge_error (path ++ [k])) = Throw m →
          ∃ q, m = merge_error (path ++ q) ∧ conflict A B q) as Hhere.
  { intros Hm [= <-]. exists [k]. split; [done|]. by eapply conflict_here. }
  destruct ta, tb; try (by apply Hhere).
  destruct (tmerge n ps ps0 (path ++ [k])) as [c|m'|] eqn:Er; try done.
  inversion E2; subst. apply IH in Er as (q & -> & Hq).
  - exists (k :: q). split; [by rewrite <- app_assoc|]. by eapply conflict_below.
  - by eapply wf_tget.
Qed.

(** Documents that merge have no conflict. *)
Lemma tmerge_ok_no_conflict n A B path C :
  tmerge n A B path = Ok C → wf (TDict B) = true → ∀ q, ¬ conflict A B q.
Proof.
  revert A B path C. induction n as [|n IH]; intros A B path C H Hwf q Hq; [done|].
  simpl in H. pose proof Hwf as [Hnd _]%wf_dict.
  destruct Hq as [A B k ta tb Ha Hb Hm|A B k a' b' q Ha Hb Hq].
  - destruct (tmerge_loop_visit _ _ _ _ _ _ k H Hnd) as (A1 & A2 & E1 & E2).
    { apply tget_Some_keys. eauto. }
    unfold tmerge_key in E2. rewrite Hb, E1, Ha in E2. by destruct ta, tb.
  - destruct (tmerge_loop_visit _ _ _ _ _ _ k H Hnd) as (A1 & A2 & E1 & E2).
    { apply tget_Some_keys. eauto. }
    unfold tmerge_key in E2. rewrite Hb, E1, Ha in E2.
    destruct (tmerge n a' b' (path ++ [k])) as [c|m'|] eqn:Er; try done.
    eapply IH; [exact Er| |exact Hq]. by eapply wf_tget.
Qed.

(** With a conflict, and fuel for the depth of [B], the merge of documents
    throws, and names a conflict. *)
Lemma tmerge_conflict n A B path q :
  conflict A B q → wf (TDict B) = true → depth (TDict B) ≤ n →
  ∃ q', tmerge n A B path = Throw (merge_error (path ++ q')) ∧ conflict A B q'.
Proof.
  intros Hq Hwf Hn. destruct (tmerge n A B path) as [C|m|] eqn:E.
  - exfalso. by eapply tmerge_ok_no_conflict.
  - apply tmerge_throw in E as (q' & -> & ?); eauto.
  - exfalso. by eapply tmerge_total.
Qed.

(** The binding of a key of [B] after a loop that ends well: that of the
    one step that visited it. *)
Lemma tmerge_loop_bound (rec : tprops → tprops → list string → outcome tprops)
    B path ks A0 C k :
  each_key (tmerge_key rec B path) ks A0 = Ok C → NoDup ks → k ∈ ks →
  ∃ A1 A2, tget k A1 = tget k A0 ∧ tmerge_key rec B path k A1 = Ok A2
           ∧ tget k C = tget k A2.
Proof.
  revert A0. induction ks as [|k' ks IH]; intros A0 H Hnd Hin; simpl in H.
  - by apply elem_of_nil in Hin.
  - destruct (tmerge_key rec B path k' A0) as [A1| |] eqn:E; try done.
    apply NoDup_cons in Hnd as [Hk' Hnd].
    destruct (decide (k = k')) as [->|Hne].
    + exists A0, A1. split; [done|]. split; [done|].
      destruct (tmerge_loop_get _ _ _ _ _ _ k' H) as (_ & E' & _). by apply E'.
    + apply elem_of_cons in Hin as [?|Hin]; [done|].
      destruct (IH _ H Hnd Hin) as (A2 & A3 & E1 & E2 & E3).
      exists A2, A3. split; [|done]. rewrite E1. by eapply tmerge_key_other.
Qed.

(** The same at every depth: what is bound at a dotted path in [A] or in
    [B] is bound in the result, and two arrays at one path become the
    elements of [A] followed by those of [B]. *)
Lemma tmerge_paths n : ∀ A B path C,
  tmerge n A B path = Ok C → wf (TDict B) = true →
  ∀ q,
    (is_Some (tat q (TDict A)) ∨ is_Some (tat q (TDict B)) →
     is_Some (tat q (TDict C))) ∧
    (∀ ea eb, tat q (TDict A) = Some (TArr ea) → tat q (TDict B) = Some (TArr eb) →
              tat q (TDict C) = Some (TArr (ea ++ eb))).
Proof.
  induction n as [|n IH]; intros A B path C H Hwf q; [done|].
  destruct q as [|k q]; [split; [by eauto|done]|].
  simpl in H. pose proof Hwf as [Hnd _]%wf_dict. cbn [tat].
  destruct (tget k B) as [tb|] eqn:Hb.
  - destruct (tmerge_loop_bound _ _ _ _ _ _ k H Hnd) as (A1 & A2 & E1 & E2 & E3).
    { apply tget_Some_keys. eauto. }
    rewrite E3. unfold tmerge_key in E2. rewrite Hb, E1 in E2.
    destruct (tget k A) as [ta|] eqn:Ha.
    + destruct ta as [| | | |ea|a'], tb as [| | | |eb|b']; try done.
      * inversion E2; subst. rewrite tget_tput_eq.
        destruct q as [|k' q]; simpl.
        -- split; [by eauto|]. by intros ? ? [= ->] [= ->].
        -- split; [by intros [[? ?]|[? ?]]|done].
      * destruct (tmerge n a' b' (path ++ [k])) as [c|m|] eqn:Er; try done.
        inversion E2; subst. rewrite tget_tput_eq.
        apply (IH _ _ _ _ Er). by eapply wf_tget.
    + inversion E2; subst. rewrite tget_tput_eq.
      split; [by intros [[? ?]|?]|done].
  - destruct (tmerge_loop_get _ _ _ _ _ _ k H) as (_ & E & _).
    rewrite E by by apply tget_None_keys.
    split; [by intros [?|[? ?]]|]. by intros.
Qed.

(** ** Documents in the store: induction, frames *)

Lemma reads_ind' (P : loc → Prop) (h : heap) (Q : val → tree → Prop) :
  Q VNull TNull →
  (∀ b, Q (VBool b) (TBool b)) →
  (∀ n, Q (VNum n) (TNum n)) →
  (∀ s, Q (VStr s) (TStr s)) →
  (∀ l vs es, P l → h !! l = Some (OArr vs) →
     Forall2 (λ v e, reads P h v e ∧ Q v e) vs es → Q (VRef l) (TArr es)) →
  (∀ l qs ps, P l → h !! l = Some (ODict qs) →
     Forall2 (λ q p, fst q = fst p ∧ reads P h (snd q) (snd p) ∧ Q (snd q) (snd p)) qs ps →
     Q (VRef l) (TDict ps)) →
  ∀ v t, reads P h v t → Q v t.
Proof.
  intros H1 H2 H3 H4 H5 H6. fix IH 3. intros v t [|b|n|s|l vs es Hl Hh Hf|l qs ps Hl Hh Hf].
  - apply H1.
  - apply H2.
  - apply H3.
  - apply H4.
  - apply (H5 l vs es Hl Hh). clear Hh.
    induction Hf as [|v' e' vs' es' Hv _ IHf]; constructor; auto.
  - apply (H6 l qs ps Hl Hh). clear Hh.
    induction Hf as [|q p qs' ps' [Hk Hv] _ IHf]; constructor; auto.
Qed.

Lemma reads_impl (P P' : loc → Prop) h h' v t :
  reads P h v t →
  (∀ l, P l → P' l ∧ h' !! l = h !! l) →
  reads P' h' v t.
Proof.
  intros H Hf. induction H as [| | | |l vs es Hl Hh IH|l qs ps Hl Hh IH] using reads_ind';
    try by constructor.
  - destruct (Hf l Hl) as [Hl' E]. eapply R_arr; [done|by rewrite E|].
    eapply Forall2_impl; [exact IH|]. by intros ?? [_ ?].
  - destruct (Hf l Hl) as [Hl' E]. eapply R_dict; [done|by rewrite E|].
    eapply Forall2_impl; [exact IH|]. by intros ?? (? & _ & ?).
Qed.

Lemma reads_weaken (P P' : loc → Prop) h v t :
  reads P h v t → (∀ l, P l → P' l) → reads P' h v t.
Proof. intros H Hi. eapply reads_impl; [done|]. auto. Qed.

Lemma reads_frame (P : loc → Prop) h h' v t :
  reads P h v t → (∀ l, P l → h' !! l = h !! l) → reads P h' v t.
Proof. intros H Hi. eapply reads_impl; [done|]. auto. Qed.

Lemma lays_bounds h :
  (∀ lo t v hi, lays h lo t v hi → lo ≤ hi) ∧
  (∀ lo es vs hi, lays_arr h lo es vs hi → lo ≤ hi) ∧
  (∀ lo ps qs hi, lays_dict h lo ps qs hi → lo ≤ hi).
Proof. apply lays_mutind; intros; lia. Qed.

Lemma lays_le h lo t v hi : lays h lo t v hi → lo ≤ hi.
Proof. apply lays_bounds. Qed.

Lemma lays_dict_le h lo ps qs hi : lays_dict h lo ps qs hi → lo ≤ hi.
Proof. apply lays_bounds. Qed.

Lemma lays_arr_le h lo ps qs hi : lays_arr h lo ps qs hi → lo ≤ hi.
Proof. apply lays_bounds. Qed.

Lemma lays_frame_all h h' :
  (∀ lo t v hi, lays h lo t v hi →
     (∀ l, within lo hi l → h' !! l = h !! l) → lays h' lo t v hi) ∧
  (∀ lo es vs hi, lays_arr h lo es vs hi →
     (∀ l, within lo hi l → h' !! l = h !! l) → lays_arr h' lo es vs hi) ∧
  (∀ lo ps qs hi, lays_dict h lo ps qs hi →
     (∀ l, within lo hi l → h' !! l = h !! l) → lays_dict h' lo ps qs hi).
Proof.
  apply lays_mutind; try by constructor.
  - intros lo es vs l Ha IH Hl Hf. pose proof (lays_arr_le _ _ _ _ _ Ha).
    econstructor.
    + apply IH. intros l' [? ?]. apply Hf. unfold within. lia.
    + rewrite Hf; [done|]. unfold within. lia.
  - intros lo ps qs l Ha IH Hl Hf. pose proof (lays_dict_le _ _ _ _ _ Ha).
    econstructor.
    + apply IH. intros l' [? ?]. apply Hf. unfold within. lia.
    + rewrite Hf; [done|]. unfold within. lia.
  - intros lo e es v vs mid hi H1 IH1 H2 IH2 Hf.
    pose proof (lays_le _ _ _ _ _ H1). pose proof (lays_arr_le _ _ _ _ _ H2).
    econstructor.
    + apply IH1. intros l' [? ?]. apply Hf. unfold within. lia.
    + apply IH2. intros l' [? ?]. apply Hf. unfold within. lia.
  - intros lo k e ps v qs mid hi H1 IH1 H2 IH2 Hf.
    pose proof (lays_le _ _ _ _ _ H1). pose proof (lays_dict_le _ _ _ _ _ H2).
    econstructor.
    + apply IH1. intros l' [? ?]. apply Hf. unfold within. lia.
    + apply IH2. intros l' [? ?]. apply Hf. unfold within. lia.
Qed.

Lemma lays_frame h h' lo t v hi :
  lays h lo t v hi → (∀ l, within lo hi l → h' !! l = h !! l) → lays h' lo t v hi.
Proof. apply lays_frame_all. Qed.

Lemma lays_dict_frame h h' lo ps qs hi :
  lays_dict h lo ps qs hi → (∀ l, within lo hi l → h' !! l = h !! l) →
  lays_dict h' lo ps qs hi.
Proof. apply lays_frame_all. Qed.

Lemma lays_reads_all h :
  (∀ lo t v hi, lays h lo t v hi → reads (within lo hi) h v t) ∧
  (∀ lo es vs hi, lays_arr h lo es vs hi → Forall2 (reads (within lo hi) h) vs es) ∧
  (∀ lo ps qs hi, lays_dict h lo ps qs hi →
     Forall2 (λ q p, fst q = fst p ∧ reads (within lo hi) h (snd q) (snd p)) qs ps).
Proof.
  apply lays_mutind; try by constructor.
  - intros lo es vs l Ha IH Hl. pose proof (lays_arr_le _ _ _ _ _ Ha).
    eapply R_arr; [unfold within; lia|done|].
    eapply Forall2_impl; [exact IH|]. intros v e Hr.
    eapply reads_weaken; [exact Hr|]. unfold within. lia.
  - intros lo ps qs l Ha IH Hl. pose proof (lays_dict_le _ _ _ _ _ Ha).
    eapply R_dict; [unfold within; lia|done|].
    eapply Forall2_impl; [exact IH|]. intros q p [? Hr]. split; [done|].
    eapply reads_weaken; [exact Hr|]. unfold within. lia.
  - intros lo e es v vs mid hi H1 IH1 H2 IH2.
    pose proof (lays_le _ _ _ _ _ H1). pose proof (lays_arr_le _ _ _ _ _ H2).
    constructor.
    + eapply reads_weaken; [exact IH1|]. unfold within. lia.
    + eapply Forall2_impl; [exact IH2|]. intros v' e' Hr.
      eapply reads_weaken; [exact Hr|]. unfold within. lia.
  - intros lo k e ps v qs mid hi H1 IH1 H2 IH2.
    pose proof (lays_le _ _ _ _ _ H1). pose proof (lays_dict_le _ _ _ _ _ H2).
    constructor.
    + split; [done|]. simpl. eapply reads_weaken; [exact IH1|]. unfold within. lia.
    + eapply Forall2_impl; [exact IH2|]. intros q p [? Hr]. split; [done|].
      eapply reads_weaken; [exact Hr|]. unfold within. lia.
Qed.

Lemma lays_reads h lo t v hi : lays h lo t v hi → reads (within lo hi) h v t.
Proof. apply lays_reads_all. Qed.

Lemma tree_ind' (P : tree → Prop) :
  P TNull → (∀ b, P (TBool b)) → (∀ n, P (TNum n)) → (∀ s, P (TStr s)) →
  (∀ es, Forall P es → P (TArr es)) →
  (∀ ps, Forall (λ kv, P (snd kv)) ps → P (TDict ps)) →
  ∀ t, P t.
Proof.
  intros H1 H2 H3 H4 H5 H6. fix IH 1.
  intros [|b|n|s|es|ps]; [apply H1|apply H2|apply H3|apply H4| |].
  - apply H5. induction es as [|e es IHes]; constructor; [apply IH|apply IHes].
  - apply H6. induction ps as [|[k e] ps IHps]; constructor; [apply IH|apply IHps].
Qed.

Lemma extends_frame (h objs : heap) lo hi l :
  hi ≤ List.length h → within lo hi l → (h ++ objs) !! l = h !! l.
Proof. intros ? [? ?]. apply lookup_app_l. lia. Qed.

Lemma load_all_arr es :
  Forall load_ok es →
  ∀ h, ∃ objs, fst (load_all load es h) = h ++ objs ∧
    lays_arr (fst (load_all load es h)) (List.length h) es
             (snd (load_all load es h)) (List.length (fst (load_all load es h))).
Proof.
  induction 1 as [|e es He _ IH]; intros h; simpl.
  - exists []. rewrite app_nil_r. split; [done|constructor].
  - destruct (He h) as (o1 & E1 & L1).
    destruct (load e h) as [h1 v]. simpl in *. subst h1.
    destruct (IH (h ++ o1)) as (o2 & E2 & L2).
    destruct (load_all load es (h ++ o1)) as [h2 vs]. simpl in *. subst h2.
    exists (o1 ++ o2). rewrite app_assoc. split; [done|].
    econstructor; [|exact L2].
    eapply lays_frame; [exact L1|]. intros l Hl.
    by eapply extends_frame.
Qed.

Lemma load_all_dict ps :
  Forall (λ kv, load_ok (snd kv)) ps →
  ∀ h, ∃ objs, fst (load_all (load_member load) ps h) = h ++ objs ∧
    lays_dict (fst (load_all (load_member load) ps h)) (List.length h) ps
              (snd (load_all (load_member load) ps h))
              (List.length (fst (load_all (load_member load) ps h))).
Proof.
  induction 1 as [|[k e] ps He _ IH]; intros h; simpl.
  - exists []. rewrite app_nil_r. split; [done|constructor].
  - destruct (He h) as (o1 & E1 & L1). unfold load_member at 1 3 5 7. simpl in *.
    destruct (load e h) as [h1 v]. simpl in *. subst h1.
    destruct (IH (h ++ o1)) as (o2 & E2 & L2).
    destruct (load_all (load_member load) ps (h ++ o1)) as [h2 vs]. simpl in *. subst h2.
    exists (o1 ++ o2). rewrite app_assoc. split; [done|].
    econstructor; [|exact L2].
    eapply lays_frame; [exact L1|]. intros l Hl.
    by eapply extends_frame.
Qed.

Lemma load_lays t : load_ok t.
Proof.
  induction t as [|b|n|s|es IH|ps IH] using tree_ind'; intros h;
    try (exists []; rewrite app_nil_r; split; [done|constructor]).
  - destruct (load_all_arr es IH h) as (o & E & L). simpl.
    destruct (load_all load es h) as [h' vs]. simpl in *. subst h'.
    exists (o ++ [OArr vs]). rewrite app_assoc. split; [done|].
    rewrite (length_app (h ++ o)). simpl. rewrite Nat.add_1_r.
    econstructor.
    + eapply lays_frame_all; [exact L|]. intros l Hl. by eapply extends_frame.
    + by apply list_lookup_middle.
  - destruct (load_all_dict ps IH h) as (o & E & L). simpl.
    destruct (load_all _ ps h) as [h' qs]. simpl in *. subst h'.
    exists (o ++ [ODict qs]). rewrite app_assoc. split; [done|].
    rewrite (length_app (h ++ o)). simpl. rewrite Nat.add_1_r.
    econstructor.
    + eapply lays_frame_all; [exact L|]. intros l Hl. by eapply extends_frame.
    + by apply list_lookup_middle.
Qed.

(** ** The loop of merge on a laid out document *)

Lemma lays_dict_inv h PB ks lo A qs hi :
  lays_dict h lo A qs hi → inv h PB ks lo qs A hi.
Proof.
  revert lo qs. induction A as [|[k t] A IH]; intros lo qs H; inversion H; subst.
  - constructor.
  - econstructor; [by eapply lays_le|done| |by apply IH].
    eapply reads_weaken; [by eapply lays_reads|]. by left.
Qed.

Lemma inv_le h PB ks lo pd A hi : inv h PB ks lo pd A hi → lo ≤ hi.
Proof. induction 1; lia. Qed.

Lemma inv_frame h h' PB ks ks' lo pd A hi :
  inv h PB ks lo pd A hi →
  (∀ l, within lo hi l ∨ PB l → h' !! l = h !! l) →
  (∀ k, k ∈ ks' → k ∈ ks) →
  inv h' PB ks' lo pd A hi.
Proof.
  intros H Hf Hks. induction H as [|lo mid hi k v t pd A Hle Hl Hr Hi IH].
  - constructor.
  - pose proof (inv_le _ _ _ _ _ _ _ Hi).
    econstructor; [done| | |].
    + intros Hk. eapply lays_frame; [by auto|]. intros l [? ?]. apply Hf.
      left. unfold within. lia.
    + eapply reads_frame; [done|]. intros l [[? ?]|?]; apply Hf; [left|by right].
      unfold within. lia.
    + apply IH. intros l [[? ?]|?]; apply Hf; [left|by right]. unfold within. lia.
Qed.

Lemma inv_get_None h PB ks lo pd A hi k :
  inv h PB ks lo pd A hi → pget k pd = None → tget k A = None.
Proof.
  induction 1 as [|lo mid hi k' v t pd A Hle Hl Hr Hi IH]; simpl; [done|].
  destruct (decide (k = k')); [done|auto].
Qed.

Lemma pput_absent k v pd : pget k pd = None → pput k v pd = pd ++ [(k, v)].
Proof.
  induction pd as [|[k' v'] r IH]; simpl; [done|].
  destruct (decide (k = k')); [done|]. intros H. by rewrite IH.
Qed.

Lemma tput_absent k v pd : tget k pd = None → tput k v pd = pd ++ [(k, v)].
Proof.
  induction pd as [|[k' v'] r IH]; simpl; [done|].
  destruct (decide (k = k')); [done|]. intros H. by rewrite IH.
Qed.

Lemma inv_snoc h PB ks lo pd A hi k v t :
  inv h PB ks lo pd A hi → reads PB h v t → k ∉ ks →
  inv h PB ks lo (pd ++ [(k, v)]) (A ++ [(k, t)]) hi.
Proof.
  intros H Hr Hk. induction H as [lo|lo mid hi k' v' t' pd A Hle Hl Hr' Hi IH]; simpl.
  - econstructor; [done|done| |constructor].
    eapply reads_weaken; [done|]. by right.
  - econstructor; eauto.
Qed.

Lemma inv_reads h PB ks lo pd A hi :
  inv h PB ks lo pd A hi →
  Forall2 (λ q p, fst q = fst p ∧ reads (λ l, within lo hi l ∨ PB l) h (snd q) (snd p))
          pd A.
Proof.
  induction 1 as [|lo mid hi k v t pd A Hle Hl Hr Hi IH]; constructor.
  - pose proof (inv_le _ _ _ _ _ _ _ Hi). split; [done|]. simpl.
    eapply reads_weaken; [done|]. intros l [[? ?]|?]; [left|by right].
    unfold within. lia.
  - eapply Forall2_impl; [exact IH|]. intros q p [? Hq]. split; [done|].
    eapply reads_weaken; [done|]. intros l [[? ?]|?]; [left|by right].
    unfold within. lia.
Qed.

(** The member that the loop visits at the key [k]: it is still laid out;
    and whatever the visit does inside its range leaves the other members
    as they were. *)
Lemma inv_step h PB ks lo pd A hi k dv :
  inv h PB (k :: ks) lo pd A hi → k ∉ ks → pget k pd = Some dv →
  ∃ ta lo' hi', tget k A = Some ta ∧ lo ≤ lo' ∧ hi' ≤ hi ∧ lays h lo' ta dv hi' ∧
    ∀ h' tc,
      (∀ l, ¬ within lo' hi' l → h' !! l = h !! l) →
      (∀ l, PB l → ¬ within lo hi l) →
      reads (λ l, within lo' hi' l ∨ PB l) h' dv tc →
      inv h' PB ks lo pd (tput k tc A) hi.
Proof.
  intros H Hk. induction H as [|lo mid hi k' v t pd A Hle Hl Hr Hi IH]; simpl; [done|].
  pose proof (inv_le _ _ _ _ _ _ _ Hi) as Hle'.
  destruct (decide (k = k')) as [<-|Hne].
  - intros [= ->]. exists t, lo, mid. split; [done|].
    split; [done|]. split; [done|]. split; [apply Hl; left|].
    intros h' tc Hf Hd Hr'. econstructor; [done|done|done|].
    eapply inv_frame; [done| |by intros; right].
    intros l [[? ?]|Hp]; apply Hf; unfold within; [lia|].
    intros [? ?]. apply (Hd l Hp). unfold within. lia.
  - intros Hg. destruct (IH Hg) as (ta & lo' & hi' & E & H1 & H2 & H3 & H4).
    exists ta, lo', hi'. split; [done|]. split; [lia|]. split; [done|].
    split; [done|]. intros h' tc Hf Hd Hr'.
    pose proof (lays_le _ _ _ _ _ H3).
    econstructor; [done| | |].
    + intros Hk'. eapply lays_frame; [apply Hl; by right|].
      intros l [? ?]. apply Hf. unfold within. lia.
    + eapply reads_frame; [done|]. intros l [[? ?]|Hp]; apply Hf; unfold within; [lia|].
      intros [? ?]. apply (Hd l Hp). unfold within. lia.
    + apply H4; [done| |done]. intros l Hp [? ?]. apply (Hd l Hp). unfold within. lia.
Qed.

Lemma dict_at_Some h l ps : dict_at h l = Some ps ↔ h !! l = Some (ODict ps).
Proof.
  unfold dict_at. destruct (h !! l) as [[qs|es]|]; split; intros H; by inversion H.
Qed.

Lemma arr_at_Some h l es : arr_at h l = Some es ↔ h !! l = Some (OArr es).
Proof.
  unfold arr_at. destruct (h !! l) as [[qs|es']|]; split; intros H; by inversion H.
Qed.

Lemma reads_kinds P h v t :
  reads P h v t →
  isDict h v = match t, v with TDict _, VRef l => Some l | _, _ => None end ∧
  isArray h v = match t, v with TArr _, VRef l => Some l | _, _ => None end.
Proof. destruct 1; simpl; rewrite ?H0; done. Qed.

Lemma reads_member P h qs ps k t :
  Forall2 (λ q p, fst q = fst p ∧ reads P h (snd q) (snd p)) qs ps →
  tget k ps = Some t → ∃ v, pget k qs = Some v ∧ reads P h v t.
Proof.
  induction 1 as [|[k1 v1] [k2 t2] qs ps [Hk Hr] _ IH]; simpl in *; [done|].
  subst k2. destruct (decide (k = k1)); [|done].
  intros [= ->]. eauto.
Qed.

(** ** The names of members *)

Lemma insert_index_perm x l : insert_index x l ≡ₚ x :: l.
Proof.
  induction l as [|y l IH]; simpl; [done|].
  destruct (fst x <? fst y)%N; [done|]. by rewrite IH, Permutation_swap.
Qed.

Lemma enum_keys_perm ks : enum_keys ks ≡ₚ ks.
Proof.
  unfold enum_keys. induction ks as [|k ks IH]; simpl; [done|].
  destruct (array_index k) as [i|]; simpl.
  - etrans; [apply Permutation_app_tail, (Permutation_map snd), insert_index_perm|].
    simpl. by apply perm_skip.
  - etrans; [symmetry; apply Permutation_middle|]. by apply perm_skip.
Qed.

Lemma enum_keys_elem k ks : k ∈ enum_keys ks ↔ k ∈ ks.
Proof. by rewrite enum_keys_perm. Qed.

Lemma enum_keys_plain ks :
  (∀ k, k ∈ ks → array_index k = None) → enum_keys ks = ks.
Proof.
  intros H. unfold enum_keys.
  assert (omap (λ k, match array_index k with
                     | Some n => Some (n, k) | None => None end) ks = []) as ->.
  { induction ks as [|k ks IH]; [done|]. cbn. rewrite (H k) by left.
    apply IH. intros k' Hk'. apply H. by right. }
  simpl. induction ks as [|k ks IH]; [done|]. simpl. rewrite (H k) by left.
  f_equal. apply IH. intros k' Hk'. apply H. by right.
Qed.

Lemma ordinary_spec k :
  ordinary k = true → inherited k = false ∧ array_index k = None.
Proof.
  unfold ordinary. intros [H1 H2]%andb_true_iff.
  split; [by apply negb_true_iff|]. by destruct (array_index k).
Qed.

Lemma names_tget f B k t :
  names_all f (TDict B) = true → tget k B = Some t →
  f k = true ∧ names_all f t = true.
Proof.
  simpl. induction B as [|[k' t'] B IH]; simpl; [done|].
  intros [[H1 H2]%andb_true_iff H3]%andb_true_iff.
  destruct (decide (k = k')) as [->|]; [by intros [= <-]|auto].
Qed.

Lemma names_keys f B k :
  names_all f (TDict B) = true → k ∈ tkeys B → f k = true.
Proof.
  intros H [t Ht]%tget_Some_keys. by destruct (names_tget _ _ _ _ H Ht).
Qed.

Lemma enum_keys_ordinary B :
  names_all ordinary (TDict B) = true → enum_keys (tkeys B) = tkeys B.
Proof.
  intros H. apply enum_keys_plain. intros k Hk.
  by destruct (ordinary_spec k (names_keys _ _ _ H Hk)).
Qed.

Section MergeStep.
Context (n : nat).
Context (a b : loc) (B : tprops) (path : list string) (lo : nat) (PB : loc → Prop).

(** The recursive calls refine the merge of documents. *)
Hypothesis IH : ∀ h a b A B path lo PB,
  lays h lo (TDict A) (VRef a) (S a) →
  reads PB h (VRef b) (TDict B) →
  (∀ l, PB l → ¬ within lo (S a) l) →
  wf (TDict B) = true →
  names_all ordinary (TDict B) = true →
  match tmerge n A B path with
  | Ok C => ∃ h', merge n h a b path = Ok h' ∧
      (∀ l, ¬ within lo (S a) l → h' !! l = h !! l) ∧
      reads (λ l, within lo (S a) l ∨ PB l) h' (VRef a) (TDict C)
  | Throw m => merge n h a b path = Throw m
  | Stuck => merge n h a b path = Stuck
  end.

Hypothesis Hsep : ∀ l, PB l → ¬ within lo (S a) l.
Hypothesis Hwf : wf (TDict B) = true.
Hypothesis Hnames : names_all ordinary (TDict B) = true.

Lemma merge_key_refines h pd A k ks :
  h !! a = Some (ODict pd) →
  inv h PB (k :: ks) lo pd A a →
  reads PB h (VRef b) (TDict B) →
  k ∈ tkeys B → k ∉ ks →
  match tmerge_key (tmerge n) B path k A with
  | Ok A1 => ∃ h1 pd1, merge_key (merge n) a b path k h = Ok h1 ∧
      (∀ l, ¬ within lo (S a) l → h1 !! l = h !! l) ∧
      h1 !! a = Some (ODict pd1) ∧ inv h1 PB ks lo pd1 A1 a
  | Throw m => merge_key (merge n) a b path k h = Throw m
  | Stuck => merge_key (merge n) a b path k h = Stuck
  end.
Proof.
  intros Ha Hinv Hb Hk Hks.
  pose proof (inv_le _ _ _ _ _ _ _ Hinv) as Hlo.
  assert (Hsep' : ∀ l, PB l → ¬ within lo a l).
  { intros l Hp [? ?]. apply (Hsep l Hp). unfold within. lia. }
  inversion Hb as [| | | | |? qb ? Hpb Hhb Hfb]; subst.
  apply tget_Some_keys in Hk as [tb Htb].
  destruct (names_tget _ _ _ _ Hnames Htb) as [[Hown _]%ordinary_spec Hnb].
  destruct (reads_member _ _ _ _ _ _ Hfb Htb) as (sv & Hsv & Hrs).
  unfold tmerge_key, merge_key. rewrite Htb.
  rewrite (proj2 (dict_at_Some _ _ _) Ha).
  assert (get_prop h b k = sv) as ->.
  { unfold get_prop. rewrite (proj2 (dict_at_Some _ _ _) Hhb). by rewrite Hsv. }
  destruct (pget k pd) as [dv|] eqn:Hdv.
  - destruct (inv_step _ _ _ _ _ _ _ _ _ Hinv Hks Hdv)
      as (ta & lo' & hi' & Hta & Hlo' & Hhi' & Hlay & Hcont).
    rewrite Hta.
    destruct (reads_kinds _ _ _ _ (lays_reads _ _ _ _ _ Hlay)) as [Kd1 Ka1].
    destruct (reads_kinds _ _ _ _ Hrs) as [Kd2 Ka2].
    rewrite Kd1, Kd2, Ka1, Ka2.
    destruct ta as [| | | |ea|a']; inversion Hlay as [| | | |? ? ed d' Hla Hhd|? ? qd d' Hla Hhd];
      subst; destruct tb as [| | | |eb|b']; inversion Hrs as [| | | |s' es' ? Hps Hhs Hfs|s' qs' ? Hps Hhs Hfs];
      subst; try reflexivity.
    + (* two arrays *)
      rewrite (proj2 (arr_at_Some _ _ _) Hhd), (proj2 (arr_at_Some _ _ _) Hhs).
      pose proof (lays_arr_le _ _ _ _ _ Hla) as Hle.
      assert (d' < List.length h) by (by eapply lookup_lt_Some).
      assert (d' ≠ a) by lia.
      eexists _, pd. split; [done|]. split; [|split].
      * intros l Hl. apply list_lookup_insert_ne. intros <-. apply Hl.
        unfold within. lia.
      * rewrite <- Ha. by apply list_lookup_insert_ne.
      * apply Hcont; [|done|].
        { intros l Hl. apply list_lookup_insert_ne. intros <-. apply Hl.
          unfold within. lia. }
        eapply R_arr; [left; unfold within; lia|by apply list_lookup_insert_eq|].
        apply Forall2_app.
        -- eapply Forall2_impl; [exact (proj1 (proj2 (lays_reads_all h)) _ _ _ _ Hla)|].
           intros v e Hr. eapply reads_impl; [exact Hr|].
           intros l [? ?]. split; [left; unfold within; lia|].
           apply list_lookup_insert_ne. lia.
        -- eapply Forall2_impl; [exact Hfs|]. intros v e Hr.
           eapply reads_impl; [exact Hr|]. intros l Hp. split; [by right|].
           apply list_lookup_insert_ne. intros <-. apply (Hsep' _ Hp).
           unfold within. lia.
    + (* two objects *)
      pose proof (lays_dict_le _ _ _ _ _ Hla) as Hle.
      specialize (IH h d' s' a' b' (path ++ [k]) lo' PB Hlay Hrs).
      destruct (tmerge n a' b' (path ++ [k])) as [c|m|].
      * destruct IH as (h1 & -> & Hf1 & Hr1).
        { intros l Hp [? ?]. apply (Hsep' _ Hp). unfold within. lia. }
        { by eapply wf_tget. }
        { done. }
        exists h1, pd. split; [done|]. split; [|split].
        -- intros l Hl. apply Hf1. intros [? ?]. apply Hl. unfold within. lia.
        -- rewrite Hf1; [done|]. unfold within. lia.
        -- apply Hcont; done.
      * apply IH; [|by eapply wf_tget|done].
        intros l Hp [? ?]. apply (Hsep' _ Hp). unfold within. lia.
      * apply IH; [|by eapply wf_tget|done].
        intros l Hp [? ?]. apply (Hsep' _ Hp). unfold within. lia.
  - rewrite (inv_get_None _ _ _ _ _ _ _ _ Hinv Hdv), Hown.
    assert (a < List.length h) by (by eapply lookup_lt_Some).
    exists (set_prop h a k sv), (pput k sv pd). unfold set_prop.
    rewrite (proj2 (dict_at_Some _ _ _) Ha).
    split; [done|]. split; [|split].
    + intros l Hl. apply list_lookup_insert_ne. intros <-. apply Hl.
      unfold within. lia.
    + by apply list_lookup_insert_eq.
    + rewrite pput_absent, tput_absent by eauto using inv_get_None.
      apply inv_snoc; [| |done].
      * eapply inv_frame; [done| |by intros; right].
        intros l Hl. apply list_lookup_insert_ne. intros <-.
        destruct Hl as [[? ?]|Hp]; [lia|]. apply (Hsep _ Hp). unfold within. lia.
      * eapply reads_frame; [done|]. intros l Hp.
        apply list_lookup_insert_ne. intros <-. apply (Hsep _ Hp).
        unfold within. lia.
Qed.

Lemma merge_loop_refines ks : ∀ h pd A,
  NoDup ks → (∀ k, k ∈ ks → k ∈ tkeys B) →
  h !! a = Some (ODict pd) →
  inv h PB ks lo pd A a →
  reads PB h (VRef b) (TDict B) →
  match each_key (tmerge_key (tmerge n) B path) ks A with
  | Ok C => ∃ h' pd', each_key (merge_key (merge n) a b path) ks h = Ok h' ∧
      (∀ l, ¬ within lo (S a) l → h' !! l = h !! l) ∧
      h' !! a = Some (ODict pd') ∧ inv h' PB [] lo pd' C a
  | Throw m => each_key (merge_key (merge n) a b path) ks h = Throw m
  | Stuck => each_key (merge_key (merge n) a b path) ks h = Stuck
  end.
Proof.
  induction ks as [|k ks IHks]; intros h pd A Hnd Hin Ha Hinv Hb; simpl.
  - exists h, pd. done.
  - apply NoDup_cons in Hnd as [Hk Hnd].
    pose proof (merge_key_refines h pd A k ks Ha Hinv Hb
                  (Hin k ltac:(left)) Hk) as Hstep.
    destruct (tmerge_key (tmerge n) B path k A) as [A1|m|].
    + destruct Hstep as (h1 & pd1 & -> & Hf1 & Ha1 & Hinv1).
      assert (Hb1 : reads PB h1 (VRef b) (TDict B)).
      { eapply reads_frame; [done|]. intros l Hp. apply Hf1. by apply Hsep. }
      specialize (IHks h1 pd1 A1 Hnd (λ k' Hk', Hin k' ltac:(by right))
                    Ha1 Hinv1 Hb1).
      destruct (each_key (tmerge_key (tmerge n) B path) ks A1) as [C|m|]; [|done..].
      destruct IHks as (h' & pd' & -> & Hf' & Ha' & Hinv').
      exists h', pd'. split; [done|]. split; [|done].
      intros l Hl. rewrite Hf' by done. by apply Hf1.
    + by rewrite Hstep.
    + by rewrite Hstep.
Qed.
End MergeStep.

Lemma reads_keys P h qs ps :
  Forall2 (λ q p, fst q = fst p ∧ reads P h (snd q) (snd p)) qs ps →
  keys qs = tkeys ps.
Proof.
  induction 1 as [|q p qs ps [Hk _] _ IH]; simpl; [done|]. by rewrite Hk, IH.
Qed.

(** [merge] refines the merge of documents: on a laid out document [A] and a
    document [B] of the store apart from it, whose member names are
    ordinary, [merge] throws, or gives out, as the merge of the documents
    does, and when that returns [C] it leaves [C] at [dest], having written
    inside the layout of [A] only. *)
Lemma merge_refines n : ∀ h a b A B path lo PB,
  lays h lo (TDict A) (VRef a) (S a) →
  reads PB h (VRef b) (TDict B) →
  (∀ l, PB l → ¬ within lo (S a) l) →
  wf (TDict B) = true →
  names_all ordinary (TDict B) = true →
  match tmerge n A B path with
  | Ok C => ∃ h', merge n h a b path = Ok h' ∧
      (∀ l, ¬ within lo (S a) l → h' !! l = h !! l) ∧
      reads (λ l, within lo (S a) l ∨ PB l) h' (VRef a) (TDict C)
  | Throw m => merge n h a b path = Throw m
  | Stuck => merge n h a b path = Stuck
  end.
Proof.
  induction n as [|n IH]; intros h a b A B path lo PB Hlay Hb Hsep Hwf Hnames;
    [done|].
  simpl. inversion Hlay as [| | | | |? ? qa ? Hla Hha]; subst.
  inversion Hb as [| | | | |? qb ? Hpb Hhb Hfb]; subst.
  rewrite (proj2 (dict_at_Some _ _ _) Hhb), (reads_keys _ _ _ _ Hfb),
    (enum_keys_ordinary _ Hnames).
  pose proof Hwf as [Hnd _]%wf_dict.
  pose proof (merge_loop_refines n a b B path lo PB IH Hsep Hwf Hnames (tkeys B)
                h qa A Hnd (λ _ H, H) Hha (lays_dict_inv _ _ _ _ _ _ _ Hla) Hb) as Hloop.
  destruct (each_key (tmerge_key (tmerge n) B path) (tkeys B) A) as [C|m|]; [|done..].
  destruct Hloop as (h' & pd' & -> & Hf' & Ha' & Hinv').
  exists h'. split; [done|]. split; [done|].
  pose proof (lays_dict_le _ _ _ _ _ Hla).
  eapply R_dict; [left; unfold within; lia|done|].
  eapply Forall2_impl; [exact (inv_reads _ _ _ _ _ _ _ Hinv')|].
  intros q p [? Hr]. split; [done|]. eapply reads_weaken; [done|].
  intros l [[? ?]|?]; [left|by right]. unfold within. lia.
Qed.

Lemma read_mono n m h v t : read n h v = Some t → n ≤ m → read m h v = Some t.
Proof.
  revert m v t. induction n as [|n IH]; intros m v t H Hle; [done|].
  destruct m as [|m]; [lia|]. simpl in *.
  destruct v; try done. destruct (h !! l) as [[ps|es]|]; [| |done].
  - destruct (mapM _ ps) as [qs|] eqn:E; [|done]. simpl in H. inversion H; subst.
    apply mapM_Some in E.
    assert (mapM (λ kv, pair kv.1 <$> read m h kv.2) ps = Some qs) as ->; [|done].
    apply mapM_Some. eapply Forall2_impl; [exact E|]. intros [k x] y Hx. simpl in *.
    destruct (read n h x) as [tx|] eqn:Ex; [|done].
    rewrite (IH m x tx Ex) by lia. done.
  - destruct (mapM _ es) as [qs|] eqn:E; [|done]. simpl in H. inversion H; subst.
    apply mapM_Some in E.
    assert (mapM (read m h) es = Some qs) as ->; [|done].
    apply mapM_Some. eapply Forall2_impl; [exact E|]. intros x y Hx.
    apply IH; [done|lia].
Qed.

Lemma height_elem e es : e ∈ es → height e ≤ list_max (map height es).
Proof.
  induction es as [|e' es IH]; [by intros ?%elem_of_nil|].
  simpl. intros [->|Hin]%elem_of_cons; [lia|]. specialize (IH Hin). lia.
Qed.

Lemma height_member (p : string * tree) ps :
  p ∈ ps → height (snd p) ≤ list_max (map (λ kv, height (snd kv)) ps).
Proof.
  induction ps as [|e' es IH]; [by intros ?%elem_of_nil|].
  simpl. intros [->|Hin]%elem_of_cons; [lia|]. specialize (IH Hin). lia.
Qed.

Lemma read_ref n h l :
  read (S n) h (VRef l) =
  match h !! l with
  | Some (OArr es) => TArr <$> mapM (read n h) es
  | Some (ODict ps) => TDict <$> mapM (λ kv, pair (fst kv) <$> read n h (snd kv)) ps
  | None => None
  end.
Proof. done. Qed.

(** A document that a value denotes is what [read] returns. *)
Lemma read_complete P h v t : reads P h v t → read (S (height t)) h v = Some t.
Proof.
  induction 1 as [| | | |l vs es Hl Hh IH|l qs ps Hl Hh IH] using reads_ind';
    try done.
  - rewrite read_ref, Hh. cbn [height].
    assert (mapM (read (S (list_max (map height es))) h) vs = Some es) as ->; [|done].
    apply mapM_Some. apply Forall2_same_length_lookup_2.
    { by eapply Forall2_length. }
    intros i v e Hv He. destruct (Forall2_lookup_lr _ _ _ _ _ _ IH Hv He) as [_ Hr].
    eapply read_mono; [exact Hr|].
    apply le_n_S, height_elem. by eapply list_elem_of_lookup_2.
  - rewrite read_ref, Hh. cbn [height].
    assert (mapM (λ kv, pair kv.1 <$> read (S (list_max (map (λ kv, height kv.2) ps))) h kv.2) qs
            = Some ps) as ->; [|done].
    apply mapM_Some. apply Forall2_same_length_lookup_2.
    { by eapply Forall2_length. }
    intros i q p Hq Hp. destruct (Forall2_lookup_lr _ _ _ _ _ _ IH Hq Hp) as (Hk & _ & Hr).
    erewrite read_mono; [|exact Hr|].
    + simpl. rewrite Hk. by destruct p.
    + apply le_n_S, height_member. by eapply list_elem_of_lookup_2.
Qed.

Lemma lays_TDict h lo A v hi :
  lays h lo (TDict A) v hi → ∃ a, v = VRef a ∧ hi = S a.
Proof. inversion 1; subst; eauto. Qed.

(** The two documents of [merge_docs] in the store: [A] laid out from 0,
    [B] after it. *)
Lemma merge_docs_stage A B :
  ∃ h a b,
    load (TDict B) (fst (load (TDict A) [])) = (h, VRef b) ∧
    snd (load (TDict A) []) = VRef a ∧
    lays h 0 (TDict A) (VRef a) (S a) ∧
    reads (within (S a) (List.length h)) h (VRef b) (TDict B).
Proof.
  destruct (load_lays (TDict A) []) as (o1 & E1 & L1).
  destruct (load (TDict A) []) as [h1 va] eqn:EA. simpl in E1, L1. subst h1.
  destruct (load_lays (TDict B) o1) as (o2 & E2 & L2).
  destruct (load (TDict B) o1) as [h2 vb] eqn:EB. simpl in E2, L2. subst h2.
  destruct (lays_TDict _ _ _ _ _ L1) as (a & -> & Ha).
  destruct (lays_TDict _ _ _ _ _ L2) as (b & -> & Hb).
  exists (o1 ++ o2), a, b. simpl. split; [done|]. split; [done|].
  rewrite Ha in L1, L2. split.
  - eapply lays_frame; [exact L1|]. intros l Hl. eapply extends_frame; [|done]. lia.
  - by apply lays_reads.
Qed.

(** [merge_docs] is the merge of documents, for ordinary member names. *)
Lemma merge_docs_refines n A B path :
  wf (TDict B) = true → names_all ordinary (TDict B) = true →
  match tmerge n A B path with
  | Ok C => ∃ h' a, merge_docs n A B path = Ok (h', VRef a) ∧
                    read (S (height (TDict C))) h' (VRef a) = Some (TDict C)
  | Throw m => merge_docs n A B path = Throw m
  | Stuck => merge_docs n A B path = Stuck
  end.
Proof.
  intros Hwf Hnames.
  destruct (merge_docs_stage A B) as (h & a & b & EB & EA & LA & RB).
  unfold merge_docs. destruct (load (TDict A) []) as [h1 va]. cbn [fst snd] in EA, EB.
  subst va. rewrite EB.
  pose proof (merge_refines n h a b A B path 0 _ LA RB) as Href.
  destruct (tmerge n A B path) as [C|m|].
  - destruct Href as (h' & -> & _ & Hr); [|done|done|].
    { intros l [? ?] [? ?]. lia. }
    exists h', a. split; [done|]. by eapply read_complete.
  - rewrite Href; [done| |done|done]. intros l [? ?] [? ?]. lia.
  - rewrite Href; [done| |done|done]. intros l [? ?] [? ?]. lia.
Qed.


(** C3 fails on the code.  [{"toString": 1, "a": 1}] merged into
    [{"a": {}}]: the documents have one conflict, at the key [a], bound to
    an object on one side and to a scalar on the other; [merge] throws, but
    the key its message names is [toString], where no conflict is. *)
Theorem merge_conflict_other_name :
  clash [("a"%string, TDict [])]
        [("toString"%string, TNum 1); ("a"%string, TNum 1)] ["a"%string]
  ∧ (∀ q, conflict [("a"%string, TDict [])]
                   [("toString"%string, TNum 1); ("a"%string, TNum 1)] q
          → q = ["a"%string])
  ∧ merge_docs 2 [("a"%string, TDict [])]
                 [("toString"%string, TNum 1); ("a"%string, TNum 1)] []
    = Throw "merging of key 'toString' failed"%string.
Proof.
  split; [by eapply clash_here|]. split; [|by vm_compute].
  intros q H. inversion H as [A B k ta tb Ha Hb|A B k a' b' q' Ha Hb]; subst;
    simpl in Ha; by destruct (decide (k = "a"%string)) as [->|].
Qed.

(** X18. Merging a document [B] (an object: member names are not repeated)
    whose member names are ordinary into a document [A], with fuel for the
    depth of [B], returns or throws, and throws only for a conflict of the
    two documents, with the message of [merge] for the path of the conflict
    after [path].  When it returns, what is left at [A] has every key of
    [A] and of [B], and a key bound to an array in both is bound to the
    elements of [A] followed by the elements of [B]; and so it is at every
    depth, for what is bound at a dotted path through objects. *)
Theorem merge_keys_and_sequences (n : nat) (A B : tprops) (path : list string) :
  wf (TDict B) = true → names_all ordinary (TDict B) = true →
  depth (TDict B) ≤ n →
  match merge_docs n A B path with
  | Ok (h', a) =>
      ∃ C, read (S (height (TDict C))) h' a = Some (TDict C) ∧
        (∀ k, k ∈ tkeys A ∨ k ∈ tkeys B → k ∈ tkeys C) ∧
        (∀ k ea eb, tget k A = Some (TArr ea) → tget k B = Some (TArr eb) →
                    tget k C = Some (TArr (ea ++ eb))) ∧
        (∀ q, is_Some (tat q (TDict A)) ∨ is_Some (tat q (TDict B)) →
              is_Some (tat q (TDict C))) ∧
        (∀ q ea eb, tat q (TDict A) = Some (TArr ea) →
                    tat q (TDict B) = Some (TArr eb) →
                    tat q (TDict C) = Some (TArr (ea ++ eb)))
  | Throw m =>
      ∃ q, m = ("merging of key '" ++ join "." (path ++ q) ++ "' failed")%string
           ∧ conflict A B q
  | Stuck => False
  end.
Proof.
  intros Hwf Hnames Hn.
  pose proof (merge_docs_refines n A B path Hwf Hnames) as Href.
  pose proof (tmerge_total n A B path Hn) as Htot.
  destruct (tmerge n A B path) as [C|m|] eqn:E; [| |done].
  - destruct Href as (h' & a & -> & Hr). exists C. split; [done|].
    pose proof Hwf as [Hnd _]%wf_dict.
    destruct (tmerge_keys_arrays _ _ _ _ _ E Hnd) as [H1 H2].
    split; [done|]. split; [done|].
    split; intros q; by apply (tmerge_paths _ _ _ _ _ E Hwf q).
  - rewrite Href. by eapply tmerge_throw.
Qed.

(** X19. When one document binds a key to an object and the other binds it
    to a scalar, at a dotted path [q] below objects on both sides, and the
    member names of [B] are ordinary, [merge], with fuel for the depth of
    [B], throws the error of [merge] for a conflicting key of the two
    documents, named by its full path after [path]: the first conflict the
    loops meet, which is the one at [q] when the documents have no other. *)
Theorem merge_conflict_throws (n : nat) (A B : tprops) (path q : list string) :
  clash A B q → wf (TDict B) = true → names_all ordinary (TDict B) = true →
  depth (TDict B) ≤ n →
  ∃ q', merge_docs n A B path
        = Throw ("merging of key '" ++ join "." (path ++ q') ++ "' failed")%string
        ∧ conflict A B q'
        ∧ ((∀ p, conflict A B p → p = q) → q' = q).
Proof.
  intros Hq Hwf Hnames Hn.
  destruct (tmerge_conflict n A B path q (clash_conflict _ _ _ Hq) Hwf Hn)
    as (q' & E & Hq').
  exists q'. split; [|split; [done|by auto]].
  pose proof (merge_docs_refines n A B path Hwf Hnames) as Href.
  by rewrite E in Href.
Qed.

Lemma merge_keys_and_sequences_witness :
  match merge_docs 2 [("a"%string, TArr [TNum 1]); ("x"%string, TNull)]
                     [("a"%string, TArr [TNum 2]); ("y"%string, TNull)] [] with
  | Ok (h', a) =>
      ∃ C, read (S (height (TDict C))) h' a = Some (TDict C) ∧
        (∀ k, k ∈ tkeys [("a"%string, TArr [TNum 1]); ("x"%string, TNull)]
              ∨ k ∈ tkeys [("a"%string, TArr [TNum 2]); ("y"%string, TNull)]
              → k ∈ tkeys C) ∧
        (∀ k ea eb,
           tget k [("a"%string, TArr [TNum 1]); ("x"%string, TNull)] = Some (TArr ea) →
           tget k [("a"%string, TArr [TNum 2]); ("y"%string, TNull)] = Some (TArr eb) →
           tget k C = Some (TArr (ea ++ eb))) ∧
        (∀ q,
           is_Some (tat q (TDict [("a"%string, TArr [TNum 1]); ("x"%string, TNull)]))
           ∨ is_Some (tat q (TDict [("a"%string, TArr [TNum 2]); ("y"%string, TNull)]))
           → is_Some (tat q (TDict C))) ∧
        (∀ q ea eb,
           tat q (TDict [("a"%string, TArr [TNum 1]); ("x"%string, TNull)])
             = Some (TArr ea) →
           tat q (TDict [("a"%string, TArr [TNum 2]); ("y"%string, TNull)])
             = Some (TArr eb) →
           tat q (TDict C) = Some (TArr (ea ++ eb)))
  | Throw m =>
      ∃ q, m = ("merging of key '" ++ join "." ([] ++ q) ++ "' failed")%string
           ∧ conflict [("a"%string, TArr [TNum 1]); ("x"%string, TNull)]
                      [("a"%string, TArr [TNum 2]); ("y"%string, TNull)] q
  | Stuck => False
  end.
Proof.
  apply merge_keys_and_sequences; [by vm_compute|by vm_compute|simpl; lia].
Defined.

Lemma merge_conflict_throws_witness :
  ∃ q', merge_docs 2 [("a"%string, TDict [("b"%string, TDict [])])]
                     [("a"%string, TDict [("b"%string, TNum 1)])] []
        = Throw ("merging of key '" ++ join "." ([] ++ q') ++ "' failed")%string
      ∧ conflict [("a"%string, TDict [("b"%string, TDict [])])]
                 [("a"%string, TDict [("b"%string, TNum 1)])] q'
      ∧ ((∀ p, conflict [("a"%string, TDict [("b"%string, TDict [])])]
                        [("a"%string, TDict [("b"%string, TNum 1)])] p
               → p = ["a"%string; "b"%string])
         → q' = ["a"%string; "b"%string]).
Proof.
  apply (merge_conflict_throws 2 _ _ [] ["a"%string; "b"%string]).
  - eapply clash_below; [reflexivity|reflexivity|].
    eapply clash_here; reflexivity.
  - reflexivity.
  - reflexivity.
  - simpl. lia.
Defined.

(** C5. The dotted key of the example explodes into the nested objects; and
    the two fragments, exploded and merged in that order, leave the object
    of the example (its members in the order they were set). *)
Theorem explode_merge_examples :
  explode_doc 5 dotted = Ok (Some nested)
  ∧ config_doc 5 [fragment1; fragment2]
    = Ok (Some (TDict [ ("someMember"%string, TNum 42);
                        ("example"%string,
                         TDict [ ("array"%string,
                                  TArr [TNum 1; TNum 2; TNum 3; TNum 4]);
                                 ("something"%string,
                                  TDict [("a"%string, TNum 1);
                                         ("b"%string, TNum 2)]) ]) ]))
  ∧ match config_doc 5 [fragment1; fragment2] with
    | Ok (Some t) => deep_equal t merged && deep_equal merged t
    | _ => false
    end = true.
Proof. repeat split; vm_compute; reflexivity. Qed.

Lemma split_dots_plain s : has_dot s = false → split_dots s = [s].
Proof.
  induction s as [|c r IH]; simpl; [done|].
  intros [Hc Hr]%orb_false_iff. apply bool_decide_eq_false in Hc.
  rewrite decide_False by done. by rewrite IH.
Qed.

Lemma each_key_const {S} (step : string → S → outcome S) ks s :
  (∀ k, k ∈ ks → step k s = Ok s) → each_key step ks s = Ok s.
Proof.
  induction ks as [|k ks IH]; intros H; simpl; [done|].
  rewrite H by left. apply IH. intros k' Hk'. apply H. by right.
Qed.

Lemma plain_tget ps k t :
  plain (TDict ps) = true → tget k ps = Some t →
  has_dot k = false ∧ plain t = true.
Proof.
  intros Hp Hk%tget_elem. simpl in Hp. rewrite forallb_forall in Hp.
  apply list_elem_of_In, Hp in Hk. simpl in Hk.
  apply andb_true_iff in Hk as [Hd ?]. by apply negb_true_iff in Hd.
Qed.

(** [explode] leaves an exploded document as it is. *)
Lemma explode_plain n : ∀ P h o ps path,
  reads P h (VRef o) (TDict ps) → plain (TDict ps) = true →
  depth (TDict ps) ≤ S n →
  explode (S n) h o path = Ok h.
Proof.
  induction n as [n IH] using lt_wf_ind. intros P h o ps path Hr Hp Hd.
  inversion Hr as [| | | | |l qs ps' Hl Ho Hps]; subst.
  cbn [explode]. unfold dict_at. rewrite Ho.
  apply each_key_const. intros k Hk. apply (proj1 (enum_keys_elem _ _)) in Hk.
  rewrite (reads_keys _ _ _ _ Hps) in Hk.
  apply tget_Some_keys in Hk as [t Ht].
  destruct (reads_member _ _ _ _ _ _ Hps Ht) as (v & Hv & Hrv).
  destruct (plain_tget _ _ _ Hp Ht) as [Hdot Hpt].
  pose proof (depth_tget _ _ _ Ht) as Hdt.
  unfold explode_key. rewrite (split_dots_plain _ Hdot).
  assert (get_prop h o k = v) as ->.
  { unfold get_prop, dict_at. by rewrite Ho, Hv. }
  destruct (reads_kinds _ _ _ _ Hrv) as [-> _].
  destruct t as [| | | | |ps']; try done.
  destruct v as [| | | | |l']; try done.
  destruct n as [|n]; [simpl in *; lia|].
  eapply IH; [lia|exact Hrv|done|lia].
Qed.

Lemma depth_le_height t : depth t ≤ height t.
Proof.
  induction t as [| | | |es _|ps IH] using tree_ind'; simpl; try lia.
  apply le_n_S. induction IH as [|[k e] ps He _ IHps]; simpl in *; lia.
Qed.

(** On an exploded document [explode] returns, and returns the document. *)
Lemma explode_plain_unchanged n ps :
  plain (TDict ps) = true → height (TDict ps) < n →
  explode_doc n (TDict ps) = Ok (Some (TDict ps)).
Proof.
  intros Hp Hn. unfold explode_doc.
  destruct (load_lays (TDict ps) []) as (objs & _ & Hl).
  destruct (load (TDict ps) []) as [h v]. cbn [fst snd] in Hl.
  destruct (lays_TDict _ _ _ _ _ Hl) as (o & -> & _).
  apply lays_reads in Hl.
  pose proof (depth_le_height (TDict ps)) as Hd.
  destruct n as [|n]; [lia|].
  rewrite (explode_plain n _ _ _ _ _ Hl Hp) by lia.
  f_equal. apply (read_mono (S (height (TDict ps)))); [|lia].
  by eapply read_complete.
Qed.

(** C4 fails on the code.  [explode] leaves an exploded document as it
    is; but what it returns is not always exploded: where the object of a
    dotted key lands on an object that is there already, its members are
    copied with their dotted names, and a second [explode] changes the
    result. *)
Theorem explode_not_idempotent :
  (∀ n ps, plain (TDict ps) = true → height (TDict ps) < n →
           explode_doc n (TDict ps) = Ok (Some (TDict ps)))
  ∧ explode_doc 5 overlaid = Ok (Some overlaid_once)
  ∧ plain overlaid_once = false
  ∧ explode_doc 5 overlaid_once = Ok (Some overlaid_twice)
  ∧ deep_equal overlaid_once overlaid_twice = false.
Proof.
  split; [exact explode_plain_unchanged|]. repeat split; vm_compute; reflexivity.
Qed.

Lemma explode_not_idempotent_witness : explode_doc 5 nested = Ok (Some nested).
Proof.
  apply (proj1 explode_not_idempotent 5); [reflexivity|simpl; lia].
Defined.

(** ** The template engine *)

Lemma opt_length c s : List.length (opt c s) ≤ List.length s.
Proof. destruct s as [|d r]; simpl; [done|]. destruct (isc c d); simpl; lia. Qed.

Lemma close_at_shorter s k : close_at s = Some k → List.length k < List.length s.
Proof.
  unfold close_at. destruct (chop (txt "??>") s) as [r|] eqn:E.
  - apply chop_spec in E as ->. intros [= <-].
    pose proof (opt_length cr r). pose proof (opt_length nl (opt cr r)).
    simpl. lia.
  - intros ->%chop_spec. simpl. lia.
Qed.

Lemma body_close_shorter s code k :
  body_close s = Some (code, k) → List.length k < List.length s.
Proof.
  revert code k. induction s as [|c r IH]; intros code k; simpl; [done|].
  destruct (close_at r) as [k'|] eqn:E.
  - intros [= <- <-]. apply close_at_shorter in E. lia.
  - destruct (body_close r) as [[code' k']|]; [|done].
    intros [= <- <-]. specialize (IH _ _ eq_refl). lia.
Qed.

Lemma block_at_shorter s code k :
  block_at s = Some (code, k) → List.length k < List.length s.
Proof.
  rewrite block_at_eq. unfold block_direct.
  destruct (chop (txt "<??") (opt nl (opt cr s))) as [r|] eqn:E.
  - destruct (body_close r) as [[code' k']|] eqn:E'.
    + intros [= <- <-]. apply body_close_shorter in E'. apply chop_spec in E.
      pose proof (opt_length cr s). pose proof (opt_length nl (opt cr s)).
      rewrite E in *. simpl in *. lia.
    + destruct (chop (txt "<?") s) as [r'|] eqn:E2; [|done].
      intros H%body_close_shorter. apply chop_spec in E2 as ->. simpl. lia.
  - destruct (chop (txt "<?") s) as [r'|] eqn:E2; [|done].
    intros H%body_close_shorter. apply chop_spec in E2 as ->. simpl. lia.
Qed.

Lemma close_at_inside_long r k :
  r ≠ [] → has_close r = false → close_at (r ++ txt "??>" ++ k) = None.
Proof.
  intros Hne Hc. unfold close_at.
  destruct r as [|a [|b [|c r]]]; [done|..]; crunch.
Qed.

Lemma close_at_inside_short r k :
  r ≠ [] → has_close r = false → last r ≠ Some "?"%char →
  close_at (r ++ txt "?>" ++ k) = None.
Proof.
  intros Hne Hc Hl. unfold close_at.
  destruct r as [|a [|b [|c r]]]; [done|..]; crunch.
Qed.

Lemma has_close_tail c r : has_close (c :: r) = false → has_close r = false.
Proof. simpl. by intros [_ ?]%orb_false_iff. Qed.

Lemma body_close_long code k :
  code ≠ [] → has_close code = false →
  body_close (code ++ txt "??>" ++ k) = Some (code, opt nl (opt cr k)).
Proof.
  induction code as [|c [|c' r] IH]; intros Hne Hc; [done|done|].
  change ((c :: c' :: r) ++ txt "??>" ++ k) with (c :: ((c' :: r) ++ txt "??>" ++ k)).
  cbn [body_close]. rewrite close_at_inside_long, IH; eauto using has_close_tail.
Qed.

Lemma body_close_short code k :
  code ≠ [] → has_close code = false → last code ≠ Some "?"%char →
  body_close (code ++ txt "?>" ++ k) = Some (code, k).
Proof.
  induction code as [|c [|c' r] IH]; intros Hne Hc Hl; [done| |].
  - simpl. unfold close_at. simpl. done.
  - change ((c :: c' :: r) ++ txt "?>" ++ k) with (c :: ((c' :: r) ++ txt "?>" ++ k)).
    cbn [body_close].
    rewrite close_at_inside_short, IH; eauto using has_close_tail.
Qed.

(** The block at a long open marker, with the newline before it. *)
Lemma block_at_long_open code k r :
  body_close (code ++ k) = Some r →
  block_at (nl :: txt "<??" ++ code ++ k) = Some r.
Proof. intros H. rewrite block_at_eq. unfold block_direct. simpl. by rewrite H. Qed.

(** A newline before a short open marker is not part of the block. *)
Lemma block_at_newline_short c code k :
  c ≠ "?"%char → block_at (nl :: txt "<?" ++ (c :: code) ++ k) = None.
Proof. intros Hc. rewrite block_at_eq. unfold block_direct. crunch. Qed.

Lemma block_at_short_open c code k :
  c ≠ "?"%char →
  block_at (txt "<?" ++ (c :: code) ++ k) = body_close ((c :: code) ++ k).
Proof.
  intros Hc. rewrite block_at_eq. unfold block_direct.
  assert (chop (txt "<??") (opt nl (opt cr (txt "<?" ++ (c :: code) ++ k))) = None)
    as -> by crunch.
  done.
Qed.

Lemma apart_tail c X T : apart (c :: X) T → X ≠ [] → apart X T.
Proof.
  intros [->|(T' & -> & H)] Hne; [by left|right]. exists T'. split; [done|].
  intros Hl. apply H. destruct X; [done|]. by rewrite last_cons_cons.
Qed.

Lemma has_open_tail c X : has_open (c :: X) = false → has_open X = false.
Proof. simpl. by intros [_ ?]%orb_false_iff. Qed.

Lemma chop_open_plain Z T :
  has_open Z = false → Z ≠ [] →
  match T with c :: _ => c ≠ "?"%char | [] => True end →
  chop (txt "<?") (Z ++ T) = None.
Proof.
  intros Ho Hne HT. destruct Z as [|c [|d Z]]; [done| |].
  - simpl. case_decide; [|done]. destruct T as [|t T]; [done|].
    simpl. by rewrite decide_False.
  - simpl in *. apply orb_false_iff in Ho as [Ho _].
    case_decide; [|done]. subst. case_decide; [|done]. subst. done.
Qed.

Lemma chop_long_short s : chop (txt "<?") s = None → chop (txt "<??") s = None.
Proof.
  destruct s as [|a [|b s]]; simpl; [done|by case_decide|].
  repeat case_decide; done.
Qed.

Lemma long_open_plain Z T :
  has_open Z = false → Z ≠ [] →
  match T with c :: _ => c ≠ "?"%char | [] => True end →
  chop (txt "<??") (Z ++ T) = None.
Proof. intros. by apply chop_long_short, chop_open_plain. Qed.

Lemma block_at_plain c X T :
  has_open (c :: X) = false → apart (c :: X) T → block_at (c :: X ++ T) = None.
Proof.
  intros Ho Ha. pose proof (has_open_tail _ _ Ho) as HoX.
  assert (HT : match T with c :: _ => c ≠ "?"%char | [] => True end).
  { destruct Ha as [->|(T' & -> & _)]; done. }
  assert (HTl : chop (txt "<??") T = None).
  { destruct Ha as [->|(T' & -> & _)]; done. }
  rewrite block_at_eq. unfold block_direct.
  assert (chop (txt "<?") (c :: X ++ T) = None) as ->.
  { by apply (chop_open_plain (c :: X) T). }
  assert (chop (txt "<??") (opt nl (opt cr (c :: X ++ T))) = None) as ->; [|done].
  assert (Hrest : ∀ Z, has_open Z = false → chop (txt "<??") (Z ++ T) = None).
  { intros [|z Z] HZ; [done|]. by apply (long_open_plain (z :: Z) T). }
  unfold opt at 2. destruct (isc cr c) eqn:Ec.
  - apply isc_true in Ec as ->. destruct X as [|x X].
    + destruct Ha as [->|(T' & -> & Hcr)]; [done|]. simpl. by apply Hcr.
    + change ((x :: X) ++ T) with (x :: (X ++ T)). unfold opt.
      destruct (isc nl x).
      * apply Hrest. by eapply has_open_tail.
      * by apply (Hrest (x :: X)).
  - unfold opt. destruct (isc nl c).
    + by apply Hrest.
    + by apply (Hrest (c :: X)).
Qed.

Section Render.
Variable runInContext : text → loc → heap → outcome (val * heap).

Lemma after_app X Y r : after (X ++ Y) r = after X (after Y r).
Proof. destruct r as [[o h]| |]; simpl; [|done..]. by rewrite app_assoc. Qed.

Lemma render_nil ctx h : render runInContext ctx [] h = Ok ([], h).
Proof. done. Qed.

Lemma render_plain ctx c s h :
  block_at (c :: s) = None → render runInContext ctx (c :: s) h = after [c] (render runInContext ctx s h).
Proof.
  intros E. unfold render. rewrite (items_plain _ _ _ E). simpl.
  by destruct (render_items _ _ _ _) as [[o h']| |].
Qed.

Lemma render_hit ctx s code k h :
  block_at s = Some (code, k) →
  render runInContext ctx s h =
  match runInContext code ctx h with
  | Ok (v, h1) => after (replacement h1 v) (render runInContext ctx k h1)
  | Throw m => Throw m
  | Stuck => Stuck
  end.
Proof.
  intros E. unfold render. rewrite (items_hit _ block_at_shorter _ _ _ E). simpl.
  destruct (runInContext code ctx h) as [[v h1]| |]; [|done..].
  by destruct (render_items _ _ _ _) as [[o h']| |].
Qed.

Lemma render_skip ctx X T h :
  has_open X = false → apart X T →
  render runInContext ctx (X ++ T) h = after X (render runInContext ctx T h).
Proof.
  induction X as [|c X IH]; intros Ho Ha.
  - simpl. by destruct (render runInContext ctx T h) as [[o h']| |].
  - change ((c :: X) ++ T) with (c :: X ++ T).
    rewrite render_plain by by apply block_at_plain.
    destruct X as [|x X'].
    + done.
    + rewrite IH.
      * by rewrite <- after_app.
      * simpl in Ho. by apply orb_false_iff in Ho as [_ ?].
      * by apply apart_tail in Ha.
Qed.

Lemma render_text ctx X h : has_open X = false → render runInContext ctx X h = Ok (X, h).
Proof.
  intros Ho. rewrite <- (app_nil_r X) at 1.
  rewrite render_skip; [|done|by left]. simpl. by rewrite app_nil_r.
Qed.
End Render.

Section Blocks.
Variable runInContext : text → loc → heap → outcome (val * heap).

Lemma render_long_long ctx X Y code h :
  has_open X = false → last X ≠ Some cr → code_ok code →
  render runInContext ctx (X ++ [nl] ++ txt "<??" ++ code ++ txt "??>" ++ [nl] ++ Y) h =
  match runInContext code ctx h with
  | Ok (v, h1) => after (X ++ replacement h1 v) (render runInContext ctx Y h1)
  | Throw m => Throw m
  | Stuck => Stuck
  end.
Proof.
  intros HX Hcr (Hc & Hne & _ & _).
  rewrite render_skip; [|done|right; eexists; split; [done|by intros ?]].
  erewrite render_hit; cycle 1.
  { apply block_at_long_open, body_close_long; [|done]. by destruct code. }
  destruct (runInContext code ctx h) as [[v h1]| |]; [|done..].
  by rewrite after_app.
Qed.



Lemma render_short_short ctx X Y code h :
  has_open X = false → code_ok code →
  render runInContext ctx (X ++ [nl] ++ txt "<?" ++ code ++ txt "?>" ++ [nl] ++ Y) h =
  match runInContext code ctx h with
  | Ok (v, h1) => after (X ++ [nl] ++ replacement h1 v) (render runInContext ctx (nl :: Y) h1)
  | Throw m => Throw m
  | Stuck => Stuck
  end.
Proof.
  intros HX (Hc & Hne & Hq & Hl). destruct code as [|c code]; [done|].
  assert (c ≠ "?"%char) by (intros ->; done).
  rewrite render_skip; [|done|right; eexists; split; [done|]].
  2:{ intros _. simpl. by rewrite decide_False. }
  change ([nl] ++ txt "<?" ++ (c :: code) ++ txt "?>" ++ [nl] ++ Y)
    with (nl :: txt "<?" ++ (c :: code) ++ (txt "?>" ++ [nl] ++ Y)).
  rewrite render_plain by by apply block_at_newline_short.
  erewrite render_hit; cycle 1.
  { rewrite block_at_short_open by done. by apply body_close_short. }
  destruct (runInContext (c :: code) ctx h) as [[v h1]| |]; [|done..].
  by rewrite <- !after_app, <- app_assoc.
Qed.


(** C7. A block whose result is [undefined] is replaced by nothing: the
    text written is what is written for the text after the whole match;
    and so the newlines that long markers trim vanish with the block. *)
Theorem undefined_block_vanishes ctx :
  (∀ s code k h h1,
     block_at s = Some (code, k) →
     runInContext code ctx h = Ok (VUndefined, h1) →
     render runInContext ctx s h = render runInContext ctx k h1)
  ∧ (∀ X Y code h h1,
     has_open X = false → has_open Y = false → last X ≠ Some cr →
     code_ok code → runInContext code ctx h = Ok (VUndefined, h1) →
     render runInContext ctx (X ++ [nl] ++ txt "<??" ++ code ++ txt "??>" ++ [nl] ++ Y) h
       = Ok (X ++ Y, h1)).
Proof.
  split.
  - intros s code k h h1 Hb Hrun. rewrite (render_hit _ _ _ _ _ _ Hb), Hrun.
    simpl. by destruct (render runInContext ctx k h1) as [[o h']| |].
  - intros X Y code h h1 HX HY Hcr Hcode Hrun.
    rewrite render_long_long, Hrun, render_text by done. simpl.
    by rewrite app_nil_r.
Qed.

Lemma to_string_scalar n h e :
  (∀ l, e ≠ VRef l) → to_str n h e = to_string h e.
Proof.
  intros H. unfold to_string. destruct e as [| | | | |l]; [| | | | |by destruct (H l)];
    by destruct n, (List.length h).
Qed.

(** C10, as the code has it.  The result of a block is dropped when it is
    [undefined]; any other result whose conversion to a string returns is
    written in its string form: [null] as the four characters of its name,
    a boolean as its name, a string as it is, a number in decimal (with all
    its digits below [2 ^ 53]), an array of scalars as its elements joined
    by commas, and an object without a member [toString] of its own as
    [[object Object]].  So what is written for a block is empty for
    [undefined] and for a result whose string form is empty, such as the
    empty string or an empty array. *)
Theorem block_result_coercion ctx :
  (∀ s code k h v h1,
     block_at s = Some (code, k) → runInContext code ctx h = Ok (v, h1) →
     has_string h1 v = true →
     render runInContext ctx s h =
     after (match v with VUndefined => [] | _ => txt (to_string h1 v) end)
           (render runInContext ctx k h1))
  ∧ (∀ h, to_string h VNull = "null"%string
          ∧ to_string h (VBool true) = "true"%string
          ∧ to_string h (VBool false) = "false"%string
          ∧ to_string h (VNum 42) = "42"%string
          ∧ to_string h (VNum (10 ^ 21)) = "1e+21"%string)
  ∧ (∀ h s, to_string h (VStr s) = s)
  ∧ (∀ h z, (Z.abs z < 2 ^ 53)%Z → to_string h (VNum z) = of_Z z)
  ∧ (∀ h l es,
       h !! l = Some (OArr es) → Forall (λ e, ∀ l', e ≠ VRef l') es →
       to_string h (VRef l)
       = join "," (map (λ e, match e with
                             | VUndefined | VNull => EmptyString
                             | _ => to_string h e
                             end) es))
  ∧ (∀ h l ps,
       h !! l = Some (ODict ps) → pget "toString" ps = None →
       to_string h (VRef l) = "[object Object]"%string)
  ∧ (∀ h v, has_string h v = true →
       (replacement h v = [] ↔ v = VUndefined ∨ to_string h v = EmptyString))
  ∧ (∀ X Y code h h1,
     has_open X = false → has_open Y = false → code_ok code →
     runInContext code ctx h = Ok (VNull, h1) →
     render runInContext ctx (X ++ [nl] ++ txt "<?" ++ code ++ txt "?>" ++ [nl] ++ Y) h
       = Ok (X ++ [nl] ++ txt "null" ++ [nl] ++ Y, h1)).
Proof.
  split; [|split; [|split; [|split; [|split; [|split; [|split]]]]]].
  - intros s code k h v h1 Hb Hrun _.
    by rewrite (render_hit _ _ _ _ _ _ Hb), Hrun.
  - intros h. unfold to_string. by destruct (List.length h).
  - intros h s. unfold to_string. by destruct (List.length h).
  - intros h z Hz. unfold to_string.
    assert (E : number_string z = of_Z z).
    { unfold number_string. by rewrite (proj2 (Z.ltb_lt _ _) Hz). }
    by destruct (List.length h).
  - intros h l es Hl Hes. unfold to_string at 1.
    pose proof (lookup_lt_Some _ _ _ Hl) as Hlt.
    destruct (List.length h) as [|n] eqn:En; [lia|].
    cbn [to_str]. rewrite Hl. f_equal. clear Hl.
    induction Hes as [|e es He _ IH]; [done|]. cbn [map]. rewrite IH. f_equal.
    by rewrite (to_string_scalar n h e He).
  - intros h l ps Hl _. unfold to_string.
    destruct (List.length h); cbn [to_str]; by rewrite Hl.
  - intros h v _. assert (Ht : ∀ s, txt s = [] ↔ s = EmptyString).
    { intros [|c s]; simpl; split; done. }
    unfold replacement. destruct v; rewrite ?Ht; split; try tauto; try done;
      try (by intros [?|?]); by left.
  - intros X Y code h h1 HX HY Hcode Hrun.
    assert (HnY : has_open (nl :: Y) = false) by done.
    rewrite render_short_short, Hrun, render_text by done. simpl.
    unfold to_string. destruct (List.length h1); simpl; by rewrite <- !app_assoc.
Qed.
End Blocks.

Section Files.
Variable runInContext : text → loc → heap → outcome (val * heap).

Lemma has_open_app X Y :
  has_open X = false → has_open (nl :: Y) = false → has_open (X ++ nl :: Y) = false.
Proof.
  intros HX HY. induction X as [|c X IH]; [done|].
  simpl in *. apply orb_false_iff in HX as [H1 H2]. rewrite IH by done.
  rewrite orb_false_r. destruct X as [|d X]; [|done]. simpl.
  by rewrite andb_false_r.
Qed.

(** X20. Two blocks of a file run in order against one scope, the second
    in the store the first left; and of two files of one block each, the
    block of the second file runs against the same sandbox object, in the
    store that the block of the first file left (the results being values
    whose conversion to a string returns). *)
Theorem configuration_shared_across_files h config hs sandbox :
  scope h config = (hs, sandbox) →
  (∀ X Y Z code1 code2 v1 v2 h0 h1 h2,
     has_open X = false → has_open Y = false → has_open Z = false →
     code_ok code1 → code_ok code2 →
     runInContext code1 sandbox h0 = Ok (v1, h1) → has_string h1 v1 = true →
     runInContext code2 sandbox h1 = Ok (v2, h2) → has_string h2 v2 = true →
     render runInContext sandbox
       (X ++ short_block code1 ++ Y ++ short_block code2 ++ Z) h0
     = Ok (X ++ [nl] ++ replacement h1 v1 ++ [nl] ++ Y
             ++ [nl] ++ replacement h2 v2 ++ [nl] ++ Z, h2))
  ∧ (∀ X1 Y1 X2 Y2 code1 code2 v1 v2 h1 h2 o1 o2,
     has_open X1 = false → has_open Y1 = false →
     has_open X2 = false → has_open Y2 = false →
     code_ok code1 → code_ok code2 →
     runInContext code1 sandbox hs = Ok (v1, h1) → has_string h1 v1 = true →
     runInContext code2 sandbox h1 = Ok (v2, h2) → has_string h2 v2 = true →
     with_preamble h1 config (X1 ++ [nl] ++ replacement h1 v1 ++ [nl] ++ Y1) = Ok o1 →
     with_preamble h2 config (X2 ++ [nl] ++ replacement h2 v2 ++ [nl] ++ Y2) = Ok o2 →
     processFiles runInContext h config
       [X1 ++ short_block code1 ++ Y1; X2 ++ short_block code2 ++ Y2]
     = Ok [o1; o2]).
Proof.
  intros Hs. split.
  - intros X Y Z code1 code2 v1 v2 h0 h1 h2 HX HY HZ Hc1 Hc2 Hr1 _ Hr2 _.
    unfold short_block. rewrite <- !app_assoc.
    rewrite render_short_short, Hr1 by done.
    rewrite (app_comm_cons Y).
    rewrite (render_short_short runInContext sandbox (nl :: Y) Z code2 h1), Hr2
      by done.
    rewrite (render_text _ _ (nl :: Z)) by done. simpl.
    by rewrite <- !app_assoc.
  - intros X1 Y1 X2 Y2 code1 code2 v1 v2 h1 h2 o1 o2
      HX1 HY1 HX2 HY2 Hc1 Hc2 Hr1 _ Hr2 _ Hp1 Hp2.
    assert (Hf1 : processFile runInContext sandbox config hs
                    (X1 ++ short_block code1 ++ Y1) = Ok (o1, h1)).
    { unfold processFile, short_block. rewrite <- !app_assoc.
      rewrite render_short_short, Hr1 by done.
      rewrite (render_text _ _ (nl :: Y1)) by done. cbn [after].
      rewrite <- !app_assoc. change (nl :: Y1) with ([nl] ++ Y1). by rewrite Hp1. }
    assert (Hf2 : processFile runInContext sandbox config h1
                    (X2 ++ short_block code2 ++ Y2) = Ok (o2, h2)).
    { unfold processFile, short_block. rewrite <- !app_assoc.
      rewrite render_short_short, Hr2 by done.
      rewrite (render_text _ _ (nl :: Y2)) by done. cbn [after].
      rewrite <- !app_assoc. change (nl :: Y2) with ([nl] ++ Y2). by rewrite Hp2. }
    unfold processFiles. rewrite Hs. cbn [processLoop]. by rewrite Hf1, Hf2.
Qed.
End Files.

(** C1. The program on two files, with no configuration file: the block
    of the first file sets a member of the configuration, and the block of
    the second file, which only reads that member, writes its value.
    Processed alone, the second file reads [undefined] and writes nothing:
    what the first file did is observed from the second, where the files
    were to run in isolation. *)
Theorem configuration_leaks_across_files :
  ctemplate 1 (run_table leak_table) []
    [txt "<? config.leak = 1 ?>"; txt "<? config.leak ?>"]
  = Ok [txt "1"; txt "1"]
  ∧ ctemplate 1 (run_table leak_table) [] [txt "<? config.leak ?>"] = Ok [[]].
Proof. split; vm_compute; reflexivity. Qed.

Lemma configuration_shared_witness :
  processFiles (run_table leak_table) [ODict []] 0
    [ [] ++ short_block (txt " config.leak = 1 ") ++ [];
      [] ++ short_block (txt " config.leak ") ++ [] ]
  = Ok [ [nl] ++ txt "1" ++ [nl]; [nl] ++ txt "1" ++ [nl] ].
Proof.
  eapply (proj2 (configuration_shared_across_files (run_table leak_table)
                   [ODict []] 0 _ _ eq_refl) [] [] [] []).
  all: try reflexivity.
  all: repeat split; done.
Defined.


Lemma undefined_block_vanishes_witness :
  render (always VUndefined) 0
    (txt "X" ++ [nl] ++ txt "<??" ++ txt " f() " ++ txt "??>" ++ [nl] ++ txt "Y") []
  = Ok (txt "X" ++ txt "Y", []).
Proof.
  refine (proj2 (undefined_block_vanishes (always VUndefined) 0)
            (txt "X") (txt "Y") (txt " f() ") [] [] _ _ _ _ _);
    try reflexivity; try done.
Defined.

Lemma block_result_coercion_witness :
  render (always VNull) 0
    (txt "X" ++ [nl] ++ txt "<?" ++ txt " null " ++ txt "?>" ++ [nl] ++ txt "Y") []
  = Ok (txt "X" ++ [nl] ++ txt "null" ++ [nl] ++ txt "Y", []).
Proof.
  refine (proj2 (proj2 (proj2 (proj2 (proj2 (proj2 (proj2
            (block_result_coercion (always VNull) 0)))))))
            (txt "X") (txt "Y") (txt " null ") [] [] _ _ _ _);
    try reflexivity; try done.
Defined.

(** The claim of C10 fails: a block whose result is the empty string, or
    an empty array, writes nothing, as a block whose result is [undefined]
    does. *)
Lemma empty_result_counterexample :
  VStr EmptyString ≠ VUndefined
  ∧ render (always (VStr EmptyString)) 0 (txt "a<? x ?>b") [] = Ok (txt "ab", [])
  ∧ render (always VUndefined) 0 (txt "a<? x ?>b") [] = Ok (txt "ab", [])
  ∧ render (always (VRef 0)) 0 (txt "a<? x ?>b") [OArr []] = Ok (txt "ab", [OArr []]).
Proof. split; [done|]. repeat split; vm_compute; reflexivity. Qed.

(** * More properties of the program *)

Import CHelpers.

(** ** The formatter changes white space only *)

Lemma dense_app a b : dense (a ++ b) = dense a ++ dense b.
Proof. unfold dense. apply List.filter_app. Qed.

Lemma dense_blank w : forallb is_space w = true → dense w = [].
Proof.
  induction w as [|c w IH]; simpl; [done|].
  intros [-> Hw]%andb_true_iff. simpl. auto.
Qed.

Lemma dense_tabs i : tabs i → dense i = [].
Proof.
  intros Hi. apply dense_blank. eapply forallb_weaken; [|exact Hi].
  intros c ->%isc_true. done.
Qed.

Lemma is_break_space c : is_break c = true → is_space c = true.
Proof.
  unfold is_break, is_space.
  intros [[H|H]%orb_true_iff|H]%orb_true_iff; rewrite H; by rewrite ?orb_true_r.
Qed.

Lemma dense_strip s : dense (strip s) = dense s.
Proof.
  induction s as [s IH] using (induction_ltof1 _ (@List.length ascii)).
  unfold ltof in IH. destruct s as [|c r]; [done|].
  unfold strip in *. destruct (strip_at (c :: r)) as [[g k]|] eqn:E.
  - rewrite (items_hit _ strip_at_shorter _ _ _ E). cbn [map List.concat].
    destruct (strip_at_spec _ _ _ E) as (l & El & Hl & Hg).
    assert (List.length k < List.length (c :: r)) by (rewrite El; by apply consumed_shorter).
    rewrite El, !dense_app, IH by done.
    f_equal. destruct g as [m|w]; simpl.
    + by subst.
    + symmetry. apply dense_blank. eapply forallb_weaken; [|exact Hg].
      apply is_break_space.
  - rewrite (items_plain _ _ _ E). cbn [map List.concat strip_out].
    change (c :: r) with ([c] ++ r). rewrite !dense_app, IH by (simpl; lia). done.
Qed.

Lemma scan_at_text s g k :
  scan_at s = Some (g, k) → ∃ l, s = l ++ k ∧ l ≠ [] ∧
    match g with
    | GString m => m = l
    | GOpen1 => ∃ w, l = txt "=" ++ w ++ txt "{" ∧ forallb is_space w = true
    | GOpen2 => l = txt "{"
    | GSymbol c => l = [c] ∧ (isc "," c || isc ";" c || isc "}" c) = true
    end.
Proof.
  rewrite scan_at_eq. unfold scan_direct. destruct (open1_at s) as [k'|] eqn:E.
  - intros H; inversion H; subst. apply open1_at_spec in E as (w & -> & Hw).
    exists (txt "=" ++ w ++ txt "{"). rewrite <- !app_assoc. eauto.
  - destruct s as [|c r]; [done|]. destruct (isc "{" c) eqn:Ec.
    { intros H; inversion H; subst. apply isc_true in Ec as ->. by exists (txt "{"). }
    destruct (isc "," c || isc ";" c || isc "}" c) eqn:Es.
    { intros H; inversion H; subst. by exists [c]. }
    destruct (literal (c :: r)) as [[l k']|] eqn:E'; [|done].
    intros H; inversion H; subst. apply literal_spec in E' as [-> ?]. eauto.
Qed.

Lemma on_match_tabs st g : tabs (indent st) → tabs (indent (fst (on_match st g))).
Proof.
  intros Hi.
  assert (Hd : tabs (indent st ++ [tab])).
  { unfold tabs in *. by rewrite forallb_app, Hi. }
  assert (Ht : tabs (tail (indent st))).
  { unfold tabs in *. destruct (indent st); [done|]. simpl in Hi.
    by apply andb_true_iff in Hi as [_ ?]. }
  destruct g as [| |c|l]; simpl; try done.
  destruct (isc "}" c); [done|]. destruct (isc ";" c); [done|].
  by destruct (isc "," c).
Qed.

Lemma dense_scan s : ∀ st, tabs (indent st) → dense (scan st s) = dense s.
Proof.
  induction s as [s IH] using (induction_ltof1 _ (@List.length ascii)).
  unfold ltof in IH. intros st Hi. destruct s as [|c r]; [done|].
  destruct (scan_at (c :: r)) as [[g k]|] eqn:E.
  - rewrite (scan_hit _ _ _ _ E).
    destruct (scan_at_text _ _ _ E) as (l & El & Hl & Hg).
    assert (List.length k < List.length (c :: r)) by (rewrite El; by apply consumed_shorter).
    rewrite El, !dense_app, IH by (done || by apply on_match_tabs).
    f_equal.
    assert (Hd : dense (indent st ++ [tab]) = []).
    { rewrite dense_app, (dense_tabs _ Hi). done. }
    assert (Ht : dense (tail (indent st)) = []).
    { apply dense_tabs. unfold tabs in *. destruct (indent st); [done|]. simpl in Hi.
      by apply andb_true_iff in Hi as [_ ?]. }
    destruct g as [| |x|m]; cbn [on_match snd].
    + destruct Hg as (w & -> & Hw).
      by rewrite !dense_app, (dense_blank w Hw), (dense_tabs _ Hi).
    + subst l. by rewrite !dense_app, (dense_tabs _ Hi).
    + destruct Hg as [-> Hx]. destruct (isc "}" x) eqn:E1.
      { apply isc_true in E1 as ->. cbn [snd]. by rewrite !dense_app, Ht. }
      destruct (isc ";" x) eqn:E2.
      { apply isc_true in E2 as ->. cbn [snd].
        by rewrite !dense_app, (dense_tabs _ Hi). }
      destruct (isc "," x) eqn:E3; [|done].
      apply isc_true in E3 as ->. cbn [snd]. destruct (0 <? mode st); [|done].
      by rewrite !dense_app, (dense_tabs _ Hi).
    + by subst.
  - rewrite (scan_plain _ _ _ E).
    change (c :: scan st r) with ([c] ++ scan st r).
    change (c :: r) with ([c] ++ r). rewrite !dense_app, IH by (simpl; lia || done).
    done.
Qed.

Lemma dense_tidy s : dense (tidy s) = dense s.
Proof.
  induction s as [s IH] using (induction_ltof1 _ (@List.length ascii)).
  unfold ltof in IH. destruct s as [|c r]; [done|].
  destruct (tidy_at (c :: r)) as [[g k]|] eqn:E.
  - rewrite (tidy_hit _ _ _ E).
    pose proof (tidy_at_shorter _ _ _ E) as Hk.
    apply tidy_at_spec in E. destruct g as [t|].
    + destruct E as (w & -> & Ht & Hw & _).
      change (nl :: t ++ tidy k) with ([nl] ++ t ++ tidy k).
      change (nl :: t ++ w ++ k) with ([nl] ++ t ++ w ++ k).
      rewrite !dense_app, IH by done. f_equal. f_equal. rewrite (dense_blank w); [done|].
      eapply forallb_weaken; [|exact Hw]. by intros ? ->%isc_true.
    + destruct E as (w & -> & _ & Hw).
      change (nl :: [] ++ tidy k) with ([nl] ++ tidy k).
      change (nl :: w ++ nl :: k) with ([nl] ++ w ++ [nl] ++ k).
      rewrite !dense_app, IH by done. rewrite (dense_blank w); [done|].
      eapply forallb_weaken; [|exact Hw].
      intros ? [->%isc_true| ->%isc_true]%orb_true_iff; done.
  - rewrite (tidy_plain _ _ E).
    change (c :: tidy r) with ([c] ++ tidy r).
    change (c :: r) with ([c] ++ r). rewrite !dense_app, IH by (simpl; lia). done.
Qed.

Lemma dense_cons c r :
  dense (c :: r) = if is_space c then dense r else c :: dense r.
Proof. unfold dense. simpl. by destruct (is_space c). Qed.

Lemma dense_trimRight s : dense (trimRight s) = dense s.
Proof.
  induction s as [|c r IH]; [done|]. cbn [trimRight].
  destruct (trimRight r) as [|d r'] eqn:E.
  - rewrite (dense_cons c r), <- IH. by destruct (is_space c) eqn:Ec; rewrite ?dense_cons, ?Ec.
  - by rewrite (dense_cons c r), (dense_cons c (d :: r')), IH.
Qed.

(** X1. The formatter changes white space only: without its white space,
    the output of [format] is the input without its white space. *)
Theorem format_keeps_text (code : text) (initialIndent : nat) :
  dense (format code initialIndent) = dense code.
Proof.
  unfold format. rewrite dense_trimRight, dense_tidy, dense_scan, dense_strip; [done|].
  unfold tabs. simpl. induction initialIndent; simpl; auto.
Qed.

(** ** Escapes of [blob] and [charArray] *)

Lemma below_256 (P : N → bool) :
  forallb (λ k, P (N.of_nat k)) (seq 0 256) = true →
  ∀ c, (c < 256)%N → P c = true.
Proof.
  intros H c Hc. rewrite forallb_forall in H.
  rewrite <- (N2Nat.id c). apply H. apply in_seq. lia.
Qed.

Lemma blob_byte_shape c : (c < 256)%N → escape_of dq (blob_byte c) c = true.
Proof. apply (below_256 (λ c, escape_of dq (blob_byte c) c)). by vm_compute. Qed.

Lemma blob_byte_printable c :
  (c < 256)%N → forallb (λ x, printable (N_of_ascii x)) (blob_byte c) = true.
Proof.
  apply (below_256 (λ c, forallb (λ x, printable (N_of_ascii x)) (blob_byte c))).
  by vm_compute.
Qed.

Lemma char_escape_shape c : (c < 256)%N → escape_of sq (char_escape c) c = true.
Proof. apply (below_256 (λ c, escape_of sq (char_escape c) c)). by vm_compute. Qed.

Lemma octal_digit_plain d a :
  octal_digit d = Some a →
  isc dq d || isc sq d || isc "?" d || isc bs d = false.
Proof.
  intros H. rewrite <- (ascii_N_embedding d) in *.
  revert H. generalize (N_ascii_bounded d). generalize (N_of_ascii d). intros c Hc.
  pose proof (below_256 (λ c, match octal_digit (ascii_of_N c) with
     | Some _ => negb (isc dq (ascii_of_N c) || isc sq (ascii_of_N c)
                       || isc "?" (ascii_of_N c) || isc bs (ascii_of_N c))
     | None => true end) ltac:(by vm_compute) c Hc) as H.
  simpl in H. intros E. rewrite E in H. by apply negb_true_iff in H.
Qed.

Lemma c_codes_fuel_irrel q n : ∀ m s,
  List.length s ≤ n → List.length s ≤ m →
  c_codes_fuel n q s = c_codes_fuel m q s.
Proof.
  induction n as [|n IH]; intros [|m] [|c r] Hn Hm; simpl in *; try done; try lia.
  destruct (isc bs c).
  - destruct r as [|d r1]; [done|].
    destruct (_ || _); [by rewrite (IH m r1) by (simpl in *; lia)|].
    destruct (octal_digit d) as [a|]; [|done].
    destruct r1 as [|e r2]; [done|].
    destruct (octal_digit e) as [b|]; [|by rewrite (IH m (e :: r2)) by (simpl in *; lia)].
    destruct r2 as [|f r3]; [done|].
    destruct (octal_digit f) as [g|].
    + by rewrite (IH m r3) by (simpl in *; lia).
    + by rewrite (IH m (f :: r3)) by (simpl in *; lia).
  - destruct (isc q c); [done|]. by rewrite (IH m r) by lia.
Qed.

Lemma c_codes_fuel_step q w c rest n :
  escape_of q w c = true →
  c_codes_fuel (S n) q (w ++ rest) = cons c <$> c_codes_fuel n q rest.
Proof.
  intros H.
  destruct w as [|x [|y [|d1 [|d0 [|? ?]]]]]; try done; simpl in H.
  - apply andb_true_iff in H as [[Hb Hq]%andb_true_iff Hc].
    apply negb_true_iff in Hb, Hq. apply N.eqb_eq in Hc as <-.
    simpl. by rewrite Hb, Hq.
  - apply andb_true_iff in H as [[Hb Hs]%andb_true_iff Hc].
    apply N.eqb_eq in Hc as <-. simpl. by rewrite Hb, Hs.
  - apply andb_true_iff in H as [Hb H].
    destruct (octal_digit y) as [a|] eqn:Ea; [|done].
    destruct (octal_digit d1) as [b|] eqn:Eb; [|done].
    destruct (octal_digit d0) as [g|] eqn:Eg; [|done].
    apply N.eqb_eq in H as <-. simpl.
    by rewrite Hb, (octal_digit_plain _ _ Ea), Ea, Eb, Eg.
Qed.

Lemma c_codes_step q w c rest :
  escape_of q w c = true →
  c_codes q (w ++ rest) = cons c <$> c_codes q rest.
Proof.
  intros H. unfold c_codes.
  rewrite (c_codes_fuel_irrel q _ (S (List.length (w ++ rest)))) by lia.
  rewrite (c_codes_fuel_step _ _ _ _ _ H). f_equal.
  apply c_codes_fuel_irrel; rewrite ?length_app; lia.
Qed.

Lemma c_codes_concat q (f : N → text) data :
  Forall (λ c, escape_of q (f c) c = true) data →
  c_codes q (List.concat (map f data)) = Some data.
Proof.
  induction 1 as [|c data Hc _ IH]; [done|]. simpl.
  by rewrite (c_codes_step _ _ _ _ Hc), IH.
Qed.

Lemma c_literal_quoted q body :
  c_literal q ([q] ++ body ++ [q]) = c_codes q body.
Proof.
  unfold c_literal. simpl. rewrite last_snoc, isc_refl, removelast_last. done.
Qed.

(** X2. A byte array is read back from its [blob]: the text is a C string
    literal of printable characters whose bytes are the data. *)
Theorem blob_round_trip (data : list N) :
  Forall (λ c, (c < 256)%N) data →
  c_string (blob data) = Some data
  ∧ Forall (λ x, printable (N_of_ascii x) = true) (blob data).
Proof.
  intros H. split.
  - unfold c_string, blob. rewrite c_literal_quoted. apply c_codes_concat.
    eapply Forall_impl; [exact H|]. intros c Hc. by apply blob_byte_shape.
  - unfold blob. apply Forall_app. split; [by repeat constructor|].
    apply Forall_app. split; [|by repeat constructor].
    induction H as [|c data Hc _ IH]; [constructor|]. simpl.
    apply Forall_app. split; [|done].
    apply Forall_forall. intros x Hx. apply blob_byte_printable in Hc.
    rewrite forallb_forall in Hc. apply Hc. by apply list_elem_of_In.
Qed.

Lemma blob_round_trip_witness :
  c_string (blob [1; 97; 3; 34; 255]%N) = Some [1; 97; 3; 34; 255]%N
  ∧ Forall (λ x, printable (N_of_ascii x) = true) (blob [1; 97; 3; 34; 255]%N).
Proof. apply blob_round_trip. repeat constructor. Defined.

Lemma constant_end_escape w c k :
  escape_of sq w c = true → constant_end (w ++ sq :: k) = Some (w, k).
Proof.
  destruct w as [|x [|y [|d1 [|d0 [|? ?]]]]]; try done; cbn [escape_of].
  - intros [[Hb Hq]%andb_true_iff _]%andb_true_iff.
    apply negb_true_iff in Hb, Hq. cbn [app constant_end].
    by rewrite Hq, Hb, isc_refl.
  - intros [[Hb Hs]%andb_true_iff _]%andb_true_iff. cbn [app constant_end].
    apply isc_true in Hb as ->. change (isc sq bs) with false.
    by rewrite !isc_refl.
  - intros [Hb H]%andb_true_iff. apply isc_true in Hb as ->.
    destruct (octal_digit y) as [a|] eqn:Ea; [|done].
    destruct (octal_digit d1) as [b|] eqn:Eb; [|done].
    destruct (octal_digit d0) as [g|] eqn:Eg; [|done].
    pose proof (octal_digit_plain _ _ Eb) as H1.
    pose proof (octal_digit_plain _ _ Eg) as H0.
    rewrite !orb_false_iff in H1, H0.
    destruct H1 as (((_ & Hq1) & _) & Hb1), H0 as (((_ & Hq0) & _) & Hb0).
    cbn [app constant_end]. change (isc sq bs) with false.
    by rewrite !isc_refl, Hq1, Hb1, Hq0, Hb0.
Qed.

Lemma c_codes_one w c : escape_of sq w c = true → c_codes sq w = Some [c].
Proof.
  intros H. rewrite <- (app_nil_r w). by rewrite (c_codes_step sq w c [] H).
Qed.

Lemma c_constants_literals n (value : list N) :
  value ≠ [] → Forall (λ c, (c < 256)%N) value →
  List.length (tjoin (txt ",") (char_literals value)) ≤ n →
  c_constants n (tjoin (txt ",") (char_literals value)) = Some value.
Proof.
  revert n. induction value as [|c [|d r] IH]; intros n Hne Hv Hn; [done| |].
  - inversion Hv as [|? ? Hc _]; subst. apply char_escape_shape in Hc.
    cbn [char_literals map tjoin] in *. destruct n as [|n]; [simpl in Hn; lia|].
    cbn [app c_constants]. rewrite isc_refl.
    rewrite (constant_end_escape _ _ [] Hc), (c_codes_one _ _ Hc). done.
  - inversion Hv as [|? ? Hc Hr]; subst. apply char_escape_shape in Hc.
    change (tjoin (txt ",") (char_literals (c :: d :: r)))
      with (([sq] ++ char_escape c ++ [sq]) ++ txt ","
            ++ tjoin (txt ",") (char_literals (d :: r))) in *.
    destruct n as [|n]; [simpl in Hn; lia|].
    rewrite <- !app_assoc. cbn [app c_constants]. rewrite isc_refl.
    cbn [txt list_ascii_of_string app].
    rewrite (constant_end_escape _ _ _ Hc), (c_codes_one _ _ Hc).
    rewrite isc_refl, IH; [done|done|done|].
    rewrite !length_app in Hn. change (List.length (txt ",")) with 1 in Hn.
    cbn [List.length] in Hn. lia.
Qed.

(** X3. What [charArray] writes for a string of code units below 256 is
    read back, as a C compiler reads an initializer of character
    constants, to the codes of the string, one for each character, in
    order. *)
Theorem charArray_round_trip (value : list N) :
  Forall (λ c, (c < 256)%N) value →
  c_char_array (charArray value) = Some value.
Proof.
  intros Hv.
  change (charArray value)
    with ("{"%char :: (tjoin (txt ",") (char_literals value) ++ ["}"%char])).
  unfold c_char_array. rewrite last_snoc, removelast_last.
  change (isc "{" "{" && isc "}" "}") with true. cbn iota.
  destruct value as [|c r]; [done|].
  pose proof (c_constants_literals _ (c :: r) ltac:(done) Hv (Nat.le_refl _)) as E.
  destruct (tjoin (txt ",") (char_literals (c :: r))) as [|x body] eqn:Eb; [|done].
  destruct r; discriminate Eb.
Qed.

Lemma charArray_round_trip_witness :
  c_char_array (charArray [116; 39; 10; 233]%N) = Some [116; 39; 10; 233]%N.
Proof. apply charArray_round_trip. by repeat constructor. Defined.

(** ** More on merge *)

(** Scalars stay where they are. *)
Lemma tmerge_scalars n : ∀ A B path C,
  tmerge n A B path = Ok C → wf (TDict B) = true →
  ∀ q t, is_scalar t = true →
    tat q (TDict A) = Some t ∨ tat q (TDict B) = Some t →
    tat q (TDict C) = Some t.
Proof.
  induction n as [|n IH]; intros A B path C H Hwf q t Ht Hq; [done|].
  destruct q as [|k q]; [by destruct Hq as [[= <-]|[= <-]]|].
  simpl in H. pose proof Hwf as [Hnd _]%wf_dict. cbn [tat] in *.
  destruct (tget k B) as [tb|] eqn:Hb.
  - destruct (tmerge_loop_bound _ _ _ _ _ _ k H Hnd) as (A1 & A2 & E1 & E2 & E3).
    { apply tget_Some_keys. eauto. }
    rewrite E3. unfold tmerge_key in E2. rewrite Hb, E1 in E2.
    destruct (tget k A) as [ta|] eqn:Ha.
    + destruct ta as [| | | |ea|a'], tb as [| | | |eb|b']; try done.
      * inversion E2; subst. rewrite tget_tput_eq.
        destruct q as [|k' q]; simpl in *; [|by destruct Hq].
        by destruct Hq as [[= <-]|[= <-]].
      * destruct (tmerge n a' b' (path ++ [k])) as [c|m|] eqn:Er; try done.
        inversion E2; subst. rewrite tget_tput_eq.
        eapply (IH _ _ _ _ Er); [by eapply wf_tget|done..].
    + inversion E2; subst. rewrite tget_tput_eq. by destruct Hq.
  - destruct (tmerge_loop_get _ _ _ _ _ _ k H) as (_ & E & _).
    rewrite E by by apply tget_None_keys. by destruct Hq.
Qed.

(** X4. For a document [B] whose member names are ordinary, [merge]
    returns exactly when the two documents have no conflict: a key bound
    on both sides, below objects, to anything but two objects or two arrays
    (two equal numbers are a conflict); otherwise it throws. *)
Theorem merge_returns_iff (n : nat) (A B : tprops) (path : list string) :
  wf (TDict B) = true → names_all ordinary (TDict B) = true →
  depth (TDict B) ≤ n →
  ((∃ h' a, merge_docs n A B path = Ok (h', a)) ↔ (∀ q, ¬ conflict A B q))
  ∧ ((∃ m, merge_docs n A B path = Throw m) ↔ (∃ q, conflict A B q)).
Proof.
  intros Hwf Hnames Hn.
  pose proof (merge_docs_refines n A B path Hwf Hnames) as Href.
  pose proof (tmerge_total n A B path Hn) as Htot.
  split; split.
  - intros (h' & a & E) q Hq.
    destruct (tmerge_conflict n A B path q Hq Hwf Hn) as (q' & E' & _).
    rewrite E' in Href. congruence.
  - intros Hno. destruct (tmerge n A B path) as [C|m|] eqn:E; [| |done].
    + destruct Href as (h' & a & -> & _). eauto.
    + apply tmerge_throw in E as (q & _ & Hq); [|done]. by destruct (Hno q).
  - intros (m & E). destruct (tmerge n A B path) as [C|m'|] eqn:E'; [| |done].
    + destruct Href as (h' & a & Eq & _). congruence.
    + apply tmerge_throw in E' as (q & _ & Hq); [|done]. eauto.
  - intros (q & Hq).
    destruct (tmerge_conflict n A B path q Hq Hwf Hn) as (q' & E' & _).
    rewrite E' in Href. eauto.
Qed.

Lemma merge_returns_iff_witness :
  ((∃ h' a, merge_docs 1 [("x"%string, TNum 1)] [("x"%string, TNum 1)] []
            = Ok (h', a))
   ↔ (∀ q, ¬ conflict [("x"%string, TNum 1)] [("x"%string, TNum 1)] q))
  ∧ ((∃ m, merge_docs 1 [("x"%string, TNum 1)] [("x"%string, TNum 1)] []
           = Throw m)
     ↔ (∃ q, conflict [("x"%string, TNum 1)] [("x"%string, TNum 1)] q)).
Proof. apply merge_returns_iff; [reflexivity|reflexivity|simpl; lia]. Defined.

(** X5. [merge] never overwrites: for two documents without a conflict,
    the member names of [B] ordinary, and fuel for the depth of [B], it
    returns, and every scalar of [A] and every scalar of [B] is in the
    result at the dotted path where it was. *)
Theorem merge_keeps_scalars (n : nat) (A B : tprops) (path : list string) :
  wf (TDict B) = true → names_all ordinary (TDict B) = true →
  depth (TDict B) ≤ n → (∀ q, ¬ conflict A B q) →
  ∃ h' a C, merge_docs n A B path = Ok (h', a)
    ∧ read (S (height (TDict C))) h' a = Some (TDict C)
    ∧ ∀ q t, is_scalar t = true →
        tat q (TDict A) = Some t ∨ tat q (TDict B) = Some t →
        tat q (TDict C) = Some t.
Proof.
  intros Hwf Hnames Hn Hno.
  pose proof (merge_docs_refines n A B path Hwf Hnames) as Href.
  destruct (tmerge n A B path) as [C|m|] eqn:E.
  - destruct Href as (h' & a & -> & Hr). exists h', (VRef a), C.
    split; [done|]. split; [done|]. by apply (tmerge_scalars _ _ _ _ _ E Hwf).
  - apply tmerge_throw in E as (q & _ & Hq); [|done]. by destruct (Hno q).
  - by destruct (tmerge_total n A B path Hn).
Qed.

Lemma merge_keeps_scalars_witness :
  ∃ h' a C,
    merge_docs 2 [("a"%string, TDict [("x"%string, TNum 1)])]
                 [("a"%string, TDict [("y"%string, TNum 2)])] [] = Ok (h', a)
    ∧ read (S (height (TDict C))) h' a = Some (TDict C)
    ∧ ∀ q t, is_scalar t = true →
        tat q (TDict [("a"%string, TDict [("x"%string, TNum 1)])]) = Some t
        ∨ tat q (TDict [("a"%string, TDict [("y"%string, TNum 2)])]) = Some t →
        tat q (TDict C) = Some t.
Proof.
  apply merge_keeps_scalars; [reflexivity|reflexivity|simpl; lia|].
  intros q H.
  inversion H as [A B k ta tb Ha Hb Hm|A B k a' b' q' Ha Hb Hc]; subst;
    simpl in Ha, Hb; destruct (decide (k = "a"%string)) as [->|]; try done.
  - injection Ha as <-. injection Hb as <-. by vm_compute in Hm.
  - injection Ha as <-. injection Hb as <-.
    inversion Hc as [A B k ta tb Ha Hb Hm|A B k a'' b'' q'' Ha Hb Hc']; subst;
      simpl in Ha, Hb; repeat case_decide; simplify_eq.
Defined.

Lemma tget_middle k t B1 B2 :
  k ∉ tkeys B1 → tget k (B1 ++ (k, t) :: B2) = Some t.
Proof.
  induction B1 as [|[k' t'] B1 IH]; simpl.
  - by rewrite decide_True.
  - intros [? ?]%not_elem_of_cons. rewrite decide_False by done. auto.
Qed.

Lemma tmerge_into_empty rec path B : ∀ B2 B1,
  B = B1 ++ B2 → NoDup (tkeys B) →
  each_key (tmerge_key rec B path) (tkeys B2) B1 = Ok (B1 ++ B2).
Proof.
  induction B2 as [|[k t] B2 IH]; intros B1 HB Hnd; simpl.
  { by rewrite app_nil_r. }
  assert (Hk1 : k ∉ tkeys B1).
  { rewrite HB in Hnd. unfold tkeys in *. rewrite map_app in Hnd. simpl in Hnd.
    apply NoDup_app in Hnd as (_ & Hk & _). intros Hin. apply (Hk _ Hin). left. }
  unfold tmerge_key at 1. rewrite HB at 1. rewrite (tget_middle _ _ _ _ Hk1).
  assert (tget k B1 = None) as HB1 by by apply tget_None_keys.
  rewrite HB1, (tput_absent _ _ _ HB1).
  rewrite (IH (B1 ++ [(k, t)])); [by rewrite <- app_assoc| |done].
  by rewrite <- app_assoc.
Qed.

(** X6. Merging an empty object into [A] leaves [A] as it is, and merging
    [B], whose member names are ordinary, into an empty object gives [B]. *)
Theorem merge_empty (n : nat) (A B : tprops) (path : list string) :
  wf (TDict B) = true → names_all ordinary (TDict B) = true →
  depth (TDict B) ≤ n →
  (∃ h' a, merge_docs n A [] path = Ok (h', a)
           ∧ read (S (height (TDict A))) h' a = Some (TDict A))
  ∧ (∃ h' b, merge_docs n [] B path = Ok (h', b)
             ∧ read (S (height (TDict B))) h' b = Some (TDict B)).
Proof.
  intros Hwf Hnames Hn. split.
  - pose proof (merge_docs_refines n A [] path eq_refl eq_refl) as Href.
    destruct n as [|n]; [simpl in Hn; lia|]. simpl in Href.
    destruct Href as (h' & a & -> & Hr). eauto.
  - pose proof (merge_docs_refines n [] B path Hwf Hnames) as Href.
    destruct n as [|n]; [simpl in Hn; lia|]. cbn [tmerge] in Href.
    pose proof Hwf as [Hnd _]%wf_dict.
    rewrite (tmerge_into_empty _ _ B B [] eq_refl Hnd) in Href.
    destruct Href as (h' & a & -> & Hr). eauto.
Qed.

Lemma merge_empty_witness :
  (∃ h' a, merge_docs 1 [("x"%string, TNum 1)] [] [] = Ok (h', a)
           ∧ read (S (height (TDict [("x"%string, TNum 1)]))) h' a
             = Some (TDict [("x"%string, TNum 1)]))
  ∧ (∃ h' b, merge_docs 1 [] [("y"%string, TNum 2)] [] = Ok (h', b)
             ∧ read (S (height (TDict [("y"%string, TNum 2)]))) h' b
               = Some (TDict [("y"%string, TNum 2)])).
Proof. apply merge_empty; [reflexivity|reflexivity|simpl; lia]. Defined.

(** ** More on explode *)

Lemma split_dots_cons_plain k rest :
  has_dot k = false →
  split_dots (k ++ String "."%char rest) = k :: split_dots rest.
Proof.
  induction k as [|c k IH]; simpl.
  - done.
  - intros [Hc Hk]%orb_false_iff. apply bool_decide_eq_false in Hc.
    rewrite decide_False by done. by rewrite IH.
Qed.

Lemma split_dots_join segs :
  segs ≠ [] → Forall (λ s, has_dot s = false) segs →
  split_dots (join "." segs) = segs.
Proof.
  intros Hne H. induction H as [|s r Hs Hr IH]; [done|].
  destruct r as [|s' r].
  - simpl. by apply split_dots_plain.
  - change (join "." (s :: s' :: r)) with (s ++ String "."%char (join "." (s' :: r)))%string.
    rewrite split_dots_cons_plain by done. by rewrite IH.
Qed.

Lemma chain_cons h s r v h1 inner :
  proto ≠ s → chain h r v = Ok (h1, inner) →
  chain h (s :: r) v = Ok (h1 ++ [ODict [(s, inner)]], VRef (List.length h1)).
Proof. intros Hs E. simpl. rewrite decide_False by done. by rewrite E. Qed.

Lemma chain_reads rest : ∀ h v t (P : loc → Prop),
  proto ∉ rest → reads P h v t → (∀ l, P l → l < List.length h) →
  ∃ objs inner, chain h rest v = Ok (h ++ objs, inner) ∧
    reads (λ l, P l ∨ List.length h ≤ l < List.length (h ++ objs))
          (h ++ objs) inner (nest rest t).
Proof.
  induction rest as [|s r IH]; intros h v t P Hp Hr HP.
  - exists [], v. simpl. rewrite app_nil_r. split; [done|].
    eapply reads_weaken; [done|]. auto.
  - apply not_elem_of_cons in Hp as [Hs Hp].
    destruct (IH h v t P Hp Hr HP) as (objs & inner & E & Hi).
    exists (objs ++ [ODict [(s, inner)]]), (VRef (List.length (h ++ objs))).
    rewrite (chain_cons _ _ _ _ _ _ Hs E), !app_assoc.
    split; [done|].
    eapply (R_dict _ _ _ [(s, inner)]).
    + right. rewrite !length_app. simpl. lia.
    + by apply list_lookup_middle.
    + constructor; [|constructor]. split; [done|]. simpl.
      eapply reads_impl; [exact Hi|]. intros l Hl. split.
      * destruct Hl as [?|[? ?]]; [by left|right]. rewrite !length_app in *. simpl. lia.
      * apply lookup_app_l. destruct Hl as [Hl|[? ?]]; [|done].
        apply HP in Hl. rewrite length_app. lia.
Qed.

Lemma chain_extends segs : ∀ h v,
  proto ∉ segs → ∃ objs inner, chain h segs v = Ok (h ++ objs, inner).
Proof.
  induction segs as [|s r IH]; intros h v Hp.
  - exists [], v. simpl. by rewrite app_nil_r.
  - apply not_elem_of_cons in Hp as [Hs Hp].
    destruct (IH h v Hp) as (objs & inner & E).
    exists (objs ++ [ODict [(s, inner)]]), (VRef (List.length (h ++ objs))).
    by rewrite (chain_cons _ _ _ _ _ _ Hs E), app_assoc.
Qed.

Lemma index_value_dot rest : ∀ k acc,
  index_value (k ++ String "."%char rest) acc = None.
Proof.
  induction k as [|c k IH]; intros acc; [done|]. simpl.
  by destruct (_ && _).
Qed.

Lemma array_index_dot k rest : array_index (k ++ String "."%char rest) = None.
Proof.
  unfold array_index. rewrite decide_False.
  - rewrite index_value_dot. destruct (k ++ _)%string; [done|]. by case_decide.
  - by destruct k as [|c [|c' k]].
Qed.

Lemma enum_keys_single k : enum_keys [k] = [k].
Proof. unfold enum_keys. simpl. by destruct (array_index k). Qed.

Lemma pget_pdel_ne k k' ps : k ≠ k' → pget k (pdel k' ps) = pget k ps.
Proof.
  intros Hne. induction ps as [|[k2 v] ps IH]; simpl; [done|].
  destruct (decide (k' = k2)) as [->|].
  - by rewrite decide_False.
  - simpl. by rewrite IH.
Qed.

Lemma each_key_throw {S} (step : string → S → outcome S) l1 k l2 s m :
  (∀ k', k' ∈ l1 → step k' s = Ok s) → step k s = Throw m →
  each_key step (l1 ++ k :: l2) s = Throw m.
Proof.
  intros H Hk. induction l1 as [|k1 l1 IH]; simpl.
  - by rewrite Hk.
  - rewrite H by left. apply IH. intros k' Hk'. apply H. by right.
Qed.

Lemma load_single key t :
  load (TDict [(key, t)]) [] =
  (fst (load t []) ++ [ODict [(key, snd (load t []))]],
   VRef (List.length (fst (load t [])))).
Proof.
  change (load (TDict [(key, t)]) []) with
    (let '(h', qs) := load_all (load_member load) [(key, t)] [] in
     let '(h'', l) := alloc h' (ODict qs) in (h'', VRef l)).
  cbn [load_all]. unfold load_member at 1. cbn [fst snd].
  destruct (load t []) as [h1 v]. reflexivity.
Qed.

(** *** The store under the writes of explode *)

Lemma dict_at_insert (h : heap) o ps :
  o < List.length h → dict_at (<[o := ODict ps]> h) o = Some ps.
Proof. intros H. apply dict_at_Some. by apply list_lookup_insert_eq. Qed.

Lemma dict_at_snoc (h : heap) ps :
  dict_at (h ++ [ODict ps]) (List.length h) = Some ps.
Proof. apply dict_at_Some. by apply list_lookup_middle. Qed.

Lemma dict_at_app (h objs : heap) l ps :
  dict_at h l = Some ps → dict_at (h ++ objs) l = Some ps.
Proof.
  rewrite !dict_at_Some. intros H. pose proof (lookup_lt_Some _ _ _ H).
  rewrite <- H. by apply lookup_app_l.
Qed.

Lemma dict_at_length (h : heap) l ps : dict_at h l = Some ps → l < List.length h.
Proof. rewrite dict_at_Some. apply lookup_lt_Some. Qed.

Lemma set_prop_at h o k v ps :
  dict_at h o = Some ps → set_prop h o k v = <[o := ODict (pput k v ps)]> h.
Proof. intros H. unfold set_prop. by rewrite H. Qed.

Lemma del_prop_at h o k ps :
  dict_at h o = Some ps → del_prop h o k = <[o := ODict (pdel k ps)]> h.
Proof. intros H. unfold del_prop. by rewrite H. Qed.

Lemma get_prop_at h o k ps :
  dict_at h o = Some ps → get_prop h o k = default VUndefined (pget k ps).
Proof. intros H. unfold get_prop. by rewrite H. Qed.

Lemma each_key_single {S} (step : string → S → outcome S) k s :
  each_key step [k] s = step k s.
Proof. simpl. by destruct (step k s). Qed.

Lemma del_prop_spec h o k ps :
  dict_at h o = Some ps →
  dict_at (del_prop h o k) o = Some (pdel k ps)
  ∧ List.length (del_prop h o k) = List.length h
  ∧ ∀ l, l ≠ o → del_prop h o k !! l = h !! l.
Proof.
  intros H. rewrite (del_prop_at _ _ _ _ H). pose proof (dict_at_length _ _ _ H).
  split; [by apply dict_at_insert|]. split; [apply length_insert|].
  intros l ?. by apply list_lookup_insert_ne.
Qed.

Lemma set_prop_spec h o k v ps :
  dict_at h o = Some ps →
  set_prop h o k v !! o = Some (ODict (pput k v ps))
  ∧ List.length (set_prop h o k v) = List.length h
  ∧ ∀ l, l ≠ o → set_prop h o k v !! l = h !! l.
Proof.
  intros H. rewrite (set_prop_at _ _ _ _ _ H). pose proof (dict_at_length _ _ _ H).
  split; [by apply list_lookup_insert_eq|]. split; [apply length_insert|].
  intros l ?. by apply list_lookup_insert_ne.
Qed.

(** [merge] of an object with one member. *)
Lemma merge_single n h dest src k inner pd path :
  dict_at h src = Some [(k, inner)] → dict_at h dest = Some pd →
  merge (S n) h dest src path =
  match pget k pd with
  | None =>
      if inherited k then
        if decide (k = proto) then
          match isDict h inner with
          | Some _ => Stuck
          | None => Throw (merge_error (path ++ [k]))
          end
        else Throw (merge_error (path ++ [k]))
      else Ok (set_prop h dest k inner)
  | Some dv =>
      match isDict h dv, isDict h inner with
      | Some d', Some s' => merge n h d' s' (path ++ [k])
      | _, _ =>
          match isArray h dv, isArray h inner with
          | Some d', Some s' =>
              match arr_at h d', arr_at h s' with
              | Some ed, Some es => Ok (<[d' := OArr (ed ++ es)]> h)
              | _, _ => Stuck
              end
          | _, _ => Throw (merge_error (path ++ [k]))
          end
      end
  end.
Proof.
  intros Hs Hd. cbn [merge]. rewrite Hs. cbn [keys map fst].
  rewrite enum_keys_single, each_key_single. unfold merge_key.
  rewrite Hd, (get_prop_at _ _ _ _ Hs). simpl.
  by rewrite decide_True.
Qed.

(** The call of [explode] on the value of a key, when the value is an
    exploded document. *)
Lemma explode_value n P h v t path :
  reads P h v t → plain t = true → depth t ≤ n →
  match isDict h v with
  | Some l => explode n h l path
  | None => Ok h
  end = Ok h.
Proof.
  intros Hr Hp Hd. destruct (reads_kinds _ _ _ _ Hr) as [-> _].
  destruct t as [| | | | |ps]; try done. destruct v as [| | | | |l]; try done.
  destruct n as [|n]; [simpl in Hd; lia|]. by eapply explode_plain.
Qed.

Lemma nest_height segs t : height (nest segs t) = List.length segs + height t.
Proof.
  induction segs as [|s r IH]; [done|]. cbn [nest foldr height map snd list_max length].
  fold (nest r t). rewrite IH. simpl. lia.
Qed.

Lemma inherited_proto s : inherited s = false → proto ≠ s.
Proof. intros H <-. by vm_compute in H. Qed.

(** X7. A document with one dotted key explodes into the chain of objects
    the key stands for, around the value it had: for segments without a
    dot that are no names of inherited members, and a value that is
    exploded already. *)
Theorem explode_dotted_key (n : nat) (segs : list string) (t : tree) :
  segs ≠ [] →
  Forall (λ s, has_dot s = false ∧ inherited s = false) segs →
  plain t = true →
  List.length segs + height t < n →
  explode_doc n (TDict [(join "." segs, t)]) = Ok (Some (nest segs t)).
Proof.
  intros Hne Hall Hp Hn.
  assert (Hsegs : Forall (λ s, has_dot s = false) segs)
    by (eapply Forall_impl; [exact Hall|]; by intros s [? ?]).
  assert (Hprot : proto ∉ segs).
  { intros Hin. rewrite Forall_forall in Hall.
    by destruct (Hall _ Hin) as [_ ?%inherited_proto]. }
  unfold explode_doc. rewrite load_single.
  destruct (load_lays t []) as (objs & E1 & Hl). simpl in E1, Hl.
  destruct (load t []) as [h1 v]. cbn [fst snd] in *. subst objs.
  apply lays_reads in Hl. set (o := List.length h1) in *.
  set (key := join "." segs).
  set (h := h1 ++ [ODict [(key, v)]]).
  assert (Ho : dict_at h o = Some [(key, v)]) by apply dict_at_snoc.
  assert (Hh : List.length h = S o).
  { subst h. rewrite length_app. simpl. lia. }
  assert (Hv : reads (within 0 o) h v t).
  { eapply reads_frame; [exact Hl|]. intros l [_ ?]. by apply lookup_app_l. }
  pose proof (depth_le_height t) as Hdt.
  destruct n as [|n]; [lia|]. cbn [explode]. rewrite Ho.
  cbn [keys map fst]. rewrite enum_keys_single, each_key_single.
  unfold explode_key.
  rewrite (get_prop_at _ _ _ _ Ho). cbn [pget]. rewrite decide_True by done.
  cbn [default]. subst key. rewrite (split_dots_join _ Hne Hsegs).
  destruct segs as [|first [|second rest]]; [done| |].
  - (* one segment: the key has no dot *)
    rewrite (explode_value n _ _ _ _ _ Hv Hp) by (simpl in Hn; lia).
    do 2 f_equal. apply (read_mono (S (height (TDict [(first, t)])))).
    + apply (read_complete (λ l, within 0 o l ∨ l = o)).
      eapply R_dict; [by right|by apply dict_at_Some|].
      constructor; [|constructor]. split; [done|].
      eapply reads_weaken; [exact Hv|]. by left.
    + simpl in *. lia.
  - (* two segments or more *)
    apply not_elem_of_cons in Hprot as [Hfirst Hprot].
    apply Forall_cons in Hall as [[_ Hinh] _].
    set (tl := second :: rest) in *.
    set (hd := del_prop h o (join "." (first :: tl))).
    destruct (del_prop_spec h o (join "." (first :: tl)) _ Ho) as (Hd0 & Hhd & Hfd).
    fold hd in Hd0, Hhd, Hfd. cbn [pdel] in Hd0. rewrite decide_True in Hd0 by done.
    assert (Hvd : reads (within 0 o) hd v t).
    { eapply reads_frame; [exact Hv|]. intros l [_ ?]. apply Hfd. lia. }
    destruct (chain_reads tl hd v t _ Hprot Hvd) as (objs & inner & Ec & Hc).
    { intros l [_ ?]. lia. }
    unfold id. rewrite (chain_cons _ _ _ _ _ _ Hfirst Ec).
    set (hr := hd ++ objs) in *.
    set (h2 := hr ++ [ODict [(first, inner)]]).
    assert (Hr2 : List.length hr = S o + List.length objs).
    { subst hr. rewrite length_app. lia. }
    assert (Hd2 : dict_at h2 o = Some []).
    { subst h2 hr. by do 2 apply dict_at_app. }
    destruct n as [|n]; [simpl in Hn; lia|].
    rewrite (merge_single n h2 o (List.length hr) first inner [] _ (dict_at_snoc _ _) Hd2).
    cbn [pget]. rewrite Hinh.
    set (h3 := set_prop h2 o first inner).
    destruct (set_prop_spec h2 o first inner _ Hd2) as (Ho3 & _ & Hf3').
    fold h3 in Ho3, Hf3'. cbn [pput] in Ho3.
    assert (Hf3 : ∀ l, l ≠ o → l < List.length hr → h3 !! l = hr !! l).
    { intros l ? ?. rewrite Hf3' by done. subst h2. by apply lookup_app_l. }
    assert (Hv3 : reads (within 0 o) h3 v t).
    { eapply reads_frame; [exact Hvd|]. intros l [_ ?].
      rewrite Hf3 by lia. subst hr. apply lookup_app_l. lia. }
    rewrite (explode_value (S n) _ _ _ _ _ Hv3 Hp) by (simpl in Hn; lia).
    do 2 f_equal.
    apply (read_mono (S (height (TDict [(first, nest tl t)])))).
    + apply (read_complete (λ l, (within 0 o l ∨ S o ≤ l < List.length hr) ∨ l = o)).
      eapply (R_dict _ _ _ [(first, inner)]); [by right|exact Ho3|].
      constructor; [|constructor]. split; [done|]. cbn [snd].
      eapply reads_impl; [exact Hc|]. intros l Hin. split.
      * left. destruct Hin as [?|[? ?]]; [by left|right]. lia.
      * apply Hf3; destruct Hin as [[_ ?]|[? ?]]; lia.
    + simpl. rewrite nest_height. simpl in Hn. subst tl. simpl. lia.
Qed.

Lemma explode_dotted_key_witness :
  explode_doc 5 (TDict [(join "." ["a"; "b"; "c"; "d"]%string, TNum 42)])
  = Ok (Some (nest ["a"; "b"; "c"; "d"]%string (TNum 42))).
Proof.
  apply explode_dotted_key; [done|by repeat constructor|done|simpl; lia].
Defined.

Lemma split_dots_nonempty s : split_dots s ≠ [].
Proof.
  destruct s as [|c r]; simpl; [done|].
  destruct (decide (c = "."%char)); [done|]. by destruct (split_dots r).
Qed.

Lemma append_dot_ne k rest : (k ++ String "."%char rest)%string ≠ k.
Proof.
  induction k as [|c k IH]; simpl; [done|]. intros [= E]. by apply IH.
Qed.

Lemma reads_scalar P h v t :
  reads P h v t → is_scalar t = true →
  ∀ h', isDict h' v = None ∧ isArray h' v = None.
Proof. by destruct 1. Qed.

(** X8. An object with a dotted key [k.rest] and a member [k] bound to a
    scalar, its other members undotted and bound to no object: [explode]
    throws, and the message names the first segment twice: the path of the
    merge starts with the first segment, and [merge] adds it again. *)
Theorem explode_conflict_message (n : nat) (k rest : string) (s t : tree)
    (ps : tprops) :
  tget k ps = Some s → is_scalar s = true →
  tget (k ++ String "."%char rest)%string ps = Some t →
  (∀ k' t', tget k' ps = Some t' → k' ≠ (k ++ String "."%char rest)%string →
            has_dot k' = false ∧ is_dict t' = false) →
  proto ∉ split_dots (k ++ String "."%char rest) →
  2 ≤ n →
  explode_doc n (TDict ps)
  = Throw ("merging of key '" ++ join "." [k; k] ++ "' failed")%string.
Proof.
  intros Hs Hsc Ht Hoth Hprot Hn.
  assert (Hne : (k ++ String "."%char rest)%string ≠ k) by apply append_dot_ne.
  assert (Hk : has_dot k = false) by (by apply (Hoth k s Hs)).
  rewrite (split_dots_cons_plain _ _ Hk) in Hprot.
  apply not_elem_of_cons in Hprot as [Hp1 Hp2].
  unfold explode_doc.
  destruct (load_lays (TDict ps) []) as (objs & _ & Hl).
  destruct (load (TDict ps) []) as [h v]. cbn [fst snd] in Hl.
  destruct (lays_TDict _ _ _ _ _ Hl) as (o & -> & _).
  apply lays_reads in Hl.
  inversion Hl as [| | | | |l qs ps' Hw Ho Hps]; subst.
  pose proof (proj2 (dict_at_Some _ _ _) Ho) as Hdo.
  destruct n as [|n]; [lia|].
  assert (explode (S n) h o []
          = Throw ("merging of key '" ++ join "." [k; k] ++ "' failed")%string)
    as ->; [|done].
  cbn [explode]. rewrite Hdo, (reads_keys _ _ _ _ Hps).
  destruct (list_elem_of_split_l (enum_keys (tkeys ps))
              (k ++ String "."%char rest)%string) as (l1 & l2 & E & Hl1).
  { apply enum_keys_elem, tget_Some_keys. eauto. }
  rewrite E. apply each_key_throw.
  - (* the keys before the dotted key *)
    intros k' Hk'.
    assert (Hin : k' ∈ tkeys ps).
    { apply enum_keys_elem. rewrite E. apply elem_of_app. by left. }
    assert (Hne' : k' ≠ (k ++ String "."%char rest)%string) by (by intros ->).
    apply tget_Some_keys in Hin as [t' Ht'].
    destruct (Hoth k' t' Ht' Hne') as [Hd' Hnd'].
    destruct (reads_member _ _ _ _ _ _ Hps Ht') as (v' & Hv' & Hrv').
    unfold explode_key. rewrite (split_dots_plain _ Hd').
    rewrite (get_prop_at _ _ _ _ Hdo), Hv'. cbn [default]. unfold id.
    destruct (reads_kinds _ _ _ _ Hrv') as [-> _]. by destruct t'.
  - (* the dotted key *)
    destruct (reads_member _ _ _ _ _ _ Hps Hs) as (sv & Hsv & Hrs).
    pose proof (reads_scalar _ _ _ _ Hrs Hsc) as Hkind.
    unfold explode_key. rewrite (split_dots_cons_plain _ _ Hk).
    destruct (split_dots rest) as [|s1 r] eqn:Er;
      [by destruct (split_dots_nonempty rest)|].
    set (kx := (k ++ String "."%char rest)%string) in *.
    destruct (del_prop_spec h o kx _ Hdo) as (Hd0 & _ & _).
    destruct (chain_extends (s1 :: r) (del_prop h o kx) (get_prop h o kx) Hp2)
      as (objs' & inner & Ec).
    rewrite (chain_cons _ _ _ _ _ _ Hp1 Ec).
    assert (Hd2 : dict_at ((del_prop h o kx ++ objs') ++ [ODict [(k, inner)]]) o
                  = Some (pdel kx qs)) by (by do 2 apply dict_at_app).
    destruct n as [|n]; [lia|].
    rewrite (merge_single _ _ _ _ _ _ _ _ (dict_at_snoc _ _) Hd2).
    rewrite pget_pdel_ne, Hsv by done.
    destruct (Hkind ((del_prop h o kx ++ objs') ++ [ODict [(k, inner)]]))
      as [-> ->].
    reflexivity.
Qed.

Lemma explode_conflict_message_witness :
  explode_doc 2 (TDict [ ("x"%string, TArr [TNum 0]); ("a"%string, TNum 1);
                         ("a.b"%string, TNum 2); ("1"%string, TNull) ])
  = Throw "merging of key 'a.a' failed"%string.
Proof.
  apply (explode_conflict_message 2 "a" "b" (TNum 1) (TNum 2)); [done|done|done| | |lia].
  - intros k' t' H Hne. simpl in H. repeat case_decide; by simplify_eq.
  - intros [E|[E|E%elem_of_nil]%elem_of_cons]%elem_of_cons; done.
Defined.


(** X22. What [explode] returns depends on the order in which it visits
    the members.  When the dotted key [a.b] comes before the member [a],
    its object is merged into [a.b] before [a] is exploded, and the result
    is exploded; when it comes after, the members merged in keep their
    dotted names.  A name that is an array index is visited first wherever
    it stands in the text. *)
Theorem explode_member_order :
  explode_doc 6 (TDict [ ("a.b"%string, TDict [("c.d"%string, TNum 5)]);
                         ("a"%string, TDict [("b"%string, TDict [])]) ])
  = Ok (Some (TDict [("a"%string, TDict [("b"%string,
                TDict [("c"%string, TDict [("d"%string, TNum 5)])])])]))
  ∧ explode_doc 6 (TDict [ ("a"%string, TDict [("b"%string, TDict [])]);
                           ("a.b"%string, TDict [("c.d"%string, TNum 5)]) ])
    = Ok (Some (TDict [("a"%string, TDict [("b"%string,
                  TDict [("c.d"%string, TNum 5)])])]))
  ∧ explode_doc 6 (TDict [ ("1.b"%string, TDict [("c.d"%string, TNum 5)]);
                           ("1"%string, TDict [("b"%string, TDict [])]) ])
    = Ok (Some (TDict [("1"%string, TDict [("b"%string,
                  TDict [("c.d"%string, TNum 5)])])]))
  ∧ explode_doc 6 (TDict [ ("1"%string, TDict [("b"%string, TDict [])]);
                           ("1.b"%string, TDict [("c.d"%string, TNum 5)]) ])
    = Ok (Some (TDict [("1"%string, TDict [("b"%string,
                  TDict [("c.d"%string, TNum 5)])])])).
Proof. repeat split; vm_compute; reflexivity. Qed.

(** ** Expressions anchored at the end, and searching *)

Lemma back_some {A} f s (k : text → option A) a :
  back f s k = Some a →
  ∃ w r, s = w ++ r ∧ forallb f w = true ∧ k r = Some a.
Proof.
  induction s as [|x s IH]; simpl.
  - intros H. by exists [], [].
  - destruct (f x) eqn:E; [|intros H; by exists [], (x :: s)].
    destruct (back f s k) as [b|] eqn:Eb; simpl.
    + intros [= ->]. destruct (IH eq_refl) as (w & r & -> & Hw & Hr).
      exists (x :: w), r. simpl. by rewrite E.
    + intros H. by exists [], (x :: s).
Qed.

Lemma back_none {A} f s (k : text → option A) :
  (∀ w r, s = w ++ r → k r = None) → back f s k = None.
Proof.
  induction s as [|x s IH]; intros H; simpl.
  - by apply (H [] []).
  - rewrite IH; [|intros w r ->; by apply (H (x :: w) r)].
    simpl. rewrite (H [] (x :: s)) by done. by destruct (f x).
Qed.

Lemma back_at {A} f w r (k : text → option A) :
  forallb f w = true →
  (∀ w' r', w ++ r = w' ++ r' → List.length r < List.length r' → k r' = None) →
  (∀ w' r', r = w' ++ r' → w' ≠ [] → k r' = None) →
  back f (w ++ r) k = k r.
Proof.
  intros Hw Hlong Hshort. induction w as [|x w IH]; simpl in *.
  - destruct r as [|y r]; [done|]. simpl. destruct (f y); [|done].
    rewrite back_none; [done|]. intros w' r' ->. by apply (Hshort (y :: w') r').
  - apply andb_true_iff in Hw as [-> Hw]. rewrite IH; [| done |].
    + rewrite (Hlong [] (x :: w ++ r)); [by destruct (k r)|done|].
      simpl. rewrite length_app. lia.
    + intros w' r' E Hl. apply (Hlong (x :: w') r'); [by rewrite E|done].
Qed.

Lemma search_some {A} (m : text → option A) s a :
  search m s = Some a → ∃ p r, s = p ++ r ∧ m r = Some a.
Proof.
  induction s as [|x s IH]; simpl.
  - destruct (m []) eqn:E; [|done]. intros [= ->]. by exists [], [].
  - destruct (m (x :: s)) eqn:E.
    + intros [= ->]. by exists [], (x :: s).
    + intros (p & r & -> & Hr)%IH. by exists (x :: p), r.
Qed.

Lemma search_found {A} (m : text → option A) p r :
  is_Some (m r) → is_Some (search m (p ++ r)).
Proof.
  intros Hr. induction p as [|x p IH]; simpl.
  - destruct r; simpl; by destruct (m _).
  - by destruct (m (x :: p ++ r)).
Qed.

Section EndFacts.
#[local] Arguments run {A} !r n s c k /.

Lemma exec_end_semi r :
  is_Some (exec_end semi_re r) ↔
  ∃ w, r = ";"%char :: w ∧ forallb is_space w = true.
Proof.
  unfold exec_end, semi_re. destruct r as [|x r].
  { split; [by intros [? ?]|by intros (? & ? & ?)]. }
  cbn [run]. destruct (isc ";" x) eqn:Ex.
  2:{ split; [by intros [? ?]|]. intros (w & [= -> ->] & _). by rewrite isc_refl in Ex. }
  apply isc_true in Ex as ->. rewrite star_class by (simpl; lia). split.
  - intros [a (w & r' & -> & Hw & Hr)%back_some].
    destruct r' as [|? ?]; [|done]. exists w. by rewrite app_nil_r.
  - intros (w & [= <-] & Hw). rewrite <- (app_nil_r r).
    rewrite back_at; [done|done| |].
    + intros w' [|y r'] _ Hl; [simpl in Hl; lia|done].
    + intros w' r' E Hne. by destruct w'.
Qed.

Lemma ends_semi_spec x :
  ends_semi x = true ↔
  ∃ a w, x = a ++ txt ";" ++ w ∧ forallb is_space w = true.
Proof.
  unfold ends_semi. rewrite bool_decide_eq_true. split.
  - intros [m (p & r & -> & Hr)%search_some].
    destruct (proj1 (exec_end_semi r)) as (w & -> & Hw); [by eauto|].
    by exists p, w.
  - intros (a & w & -> & Hw). apply search_found. apply exec_end_semi. eauto.
Qed.

Lemma anchored_lit p n (s : text) c a :
  run (lit p) n s c
    (λ s' c', match s' with [] => Some (c', s') | _ :: _ => None end)
  = Some a → s = p ∧ a = (c, []).
Proof.
  rewrite run_lit. destruct (chop p s) as [[|? ?]|] eqn:E; try done.
  intros [= <-]. apply chop_spec in E. by rewrite app_nil_r in E.
Qed.

Lemma output_name_spec file stem :
  output_name file = Some stem ↔
  file = stem ++ txt ".template" ∧ stem ≠ []
  ∧ forallb (λ c, negb (isc nl c || isc cr c)) stem = true.
Proof.
  unfold output_name, exec_end, template_re, plus, dot.
  set (n := S (List.length file)). cbn [run].
  destruct file as [|x r].
  { split; [done|]. intros (E & Hne & _). by destruct stem. }
  destruct (negb (isc nl x || isc cr x)) eqn:Ex.
  2:{ split; [done|]. intros (E & Hne & Hs). destruct stem as [|y stem]; [done|].
      simpl in E, Hs. injection E as <- _. by rewrite Ex in Hs. }
  rewrite star_class by (subst n; simpl; lia).
  match goal with |- context [back _ r ?k] => set (K := k) end.
  assert (HK : ∀ r' a, K r' = Some a →
            r' = txt ".template" ∧
            a = ([(1, take (List.length (x :: r) - List.length r') (x :: r))], [])).
  { intros r' a Ha. subst K.
    by apply anchored_lit in Ha. }
  assert (HT : ∀ w, r = w ++ txt ".template" →
            K (txt ".template") = Some ([(1, x :: w)], [])).
  { intros w ->. subst K. cbv beta. rewrite run_lit.
    assert (chop (txt ".template") (txt ".template") = Some []) as -> by done.
    change (x :: w ++ txt ".template") with ((x :: w) ++ txt ".template").
    by rewrite take_consumed. }
  split.
  - destruct (back _ r K) as [[c k]|] eqn:E; [|done].
    apply back_some in E as (w & r' & -> & Hw & Hr).
    destruct (HK _ _ Hr) as [-> Ea].
    pose proof (f_equal fst Ea) as Ec. cbn [fst] in Ec. subst c. cbn [group].
    rewrite decide_True by done.
    change (x :: w ++ txt ".template") with ((x :: w) ++ txt ".template").
    rewrite take_consumed. intros [= <-]. simpl. by rewrite Ex.
  - intros (E & Hne & Hs). destruct stem as [|y w]; [done|].
    assert (x = y ∧ r = w ++ txt ".template") as [<- Er] by (by injection E).
    clear E. cbn [forallb] in Hs. apply andb_true_iff in Hs as [_ Hs].
    rewrite Er.
    rewrite back_at; [|done| |].
    + rewrite (HT w Er). cbn [group]. by rewrite decide_True.
    + intros w' r' E Hl. destruct (K r') as [a|] eqn:Ea; [|done].
      apply HK in Ea as [-> _]. lia.
    + intros w' r' E Hw'. destruct (K r') as [a|] eqn:Ea; [|done].
      apply HK in Ea as [-> _]. apply (f_equal List.length) in E.
      rewrite length_app in E. destruct w'; [done|]. simpl in E. lia.
Qed.

Lemma exec_end_kind kind r :
  is_Some (exec_end (kind_re kind) r) ↔
  r = txt "." ++ kind ++ txt "." ++ txt "js" ∨ r = txt "." ++ kind ++ txt "." ++ txt "json".
Proof.
  unfold exec_end, kind_re. cbn [run]. rewrite run_lit.
  destruct (chop (txt "." ++ kind ++ txt ".") r) as [r'|] eqn:E.
  - apply chop_spec in E as ->. rewrite !run_lit.
    rewrite <- !app_assoc.
    split.
    + destruct (chop (txt "js") r') as [[|? ?]|] eqn:E1.
      * apply chop_spec in E1 as ->. intros _. by left.
      * cbn [orelse]. destruct (chop (txt "json") r') as [[|? ?]|] eqn:E2;
          [|by intros [? ?]..].
        apply chop_spec in E2 as ->. intros _. by right.
      * cbn [orelse]. destruct (chop (txt "json") r') as [[|? ?]|] eqn:E2;
          [|by intros [? ?]..].
        apply chop_spec in E2 as ->. intros _. by right.
    + intros [E|E].
      * assert (r' = txt "js") as ->; [|done].
        apply (app_inv_head (txt "." ++ kind ++ txt ".")).
        by rewrite <- !app_assoc.
      * assert (r' = txt "json") as ->; [|done].
        apply (app_inv_head (txt "." ++ kind ++ txt ".")).
        by rewrite <- !app_assoc.
  - split; [by intros [? ?]|].
    intros [->| ->]; rewrite !app_assoc, chop_app in E; done.
Qed.

Lemma selected_spec kind x :
  selected kind x = true ↔
  ∃ p, x = p ++ txt "." ++ kind ++ txt ".js" ∨ x = p ++ txt "." ++ kind ++ txt ".json".
Proof.
  unfold selected. rewrite bool_decide_eq_true. split.
  - intros [m (p & r & -> & Hr)%search_some]. exists p.
    destruct (proj1 (exec_end_kind kind r)) as [->| ->]; eauto.
  - intros (p & [->| ->]); apply search_found, exec_end_kind; auto.
Qed.
End EndFacts.

(** X9. What [struct], [union] and [block] make of an element ends in a
    semicolon, followed by white space at most; an element that ends so
    already is left as it is, any other gets one semicolon; and doing it
    twice changes nothing more. *)
Theorem terminate_semicolon (x : text) :
  (ends_semi x = true ↔
     ∃ a w, x = a ++ txt ";" ++ w ∧ forallb is_space w = true)
  ∧ ends_semi (terminate x) = true
  ∧ (ends_semi x = true → terminate x = x)
  ∧ (ends_semi x = false → terminate x = x ++ txt ";")
  ∧ terminate (terminate x) = terminate x.
Proof.
  assert (H : ends_semi (terminate x) = true).
  { unfold terminate. destruct (ends_semi x) eqn:E; [done|].
    apply ends_semi_spec. by exists x, []. }
  split; [apply ends_semi_spec|]. split; [done|]. split; [|split].
  - intros E. unfold terminate. by rewrite E.
  - intros E. unfold terminate. by rewrite E.
  - unfold terminate at 1. by rewrite H.
Qed.

Lemma terminate_semicolon_witness :
  terminate (txt "return") = txt "return" ++ txt ";".
Proof.
  apply (proj1 (proj2 (proj2 (proj2 (terminate_semicolon (txt "return")))))).
  reflexivity.
Defined.

(** X10. Without the option [output], the file written for an input file
    is its name without the ending [.template]: a name matches exactly
    when it is a text of one character at least, without a line break,
    followed by [.template], and that text is the name of the output.
    Any other name, [.template] itself among them, has no match: the case
    in which the program dies. *)
Theorem output_name_rule (file stem : text) :
  output_name file = Some stem ↔
  file = stem ++ txt ".template" ∧ stem ≠ []
  ∧ forallb (λ c, negb (isc nl c || isc cr c)) stem = true.
Proof. apply output_name_spec. Qed.

Lemma output_name_rule_witness : output_name (txt "main.c.template") = Some (txt "main.c").
Proof.
  apply (proj2 (output_name_rule (txt "main.c.template") (txt "main.c"))).
  split; [reflexivity|]. split; [discriminate|reflexivity].
Defined.

(** X11. Of the names in a directory, [readPath] keeps those that end in
    [.config.js] or [.config.json] (for schemas: [.schema.js] or
    [.schema.json]), and no other; the name may be the ending alone. *)
Theorem readdir_filter_rule (kind : text) (names : list text) (x : text) :
  In x (readdir_filter kind names) ↔
  In x names ∧ ∃ p, x = p ++ txt "." ++ kind ++ txt ".js"
                    ∨ x = p ++ txt "." ++ kind ++ txt ".json".
Proof.
  unfold readdir_filter. rewrite filter_In. by rewrite selected_spec.
Qed.

Lemma readdir_filter_rule_witness :
  In (txt "a.config.json")
     (readdir_filter (txt "config") [txt "a.config.json"; txt "a.json"]).
Proof.
  apply (proj2 (readdir_filter_rule (txt "config")
                  [txt "a.config.json"; txt "a.json"] (txt "a.config.json"))).
  split; [by left|]. exists (txt "a"). by right.
Defined.

(** ** A function head and a block, formatted *)

Lemma calm_inv c :
  calm c = true →
  isc "{" c = false ∧ isc "}" c = false ∧ isc ";" c = false
  ∧ isc dq c = false ∧ isc sq c = false ∧ is_break c = false.
Proof. unfold calm. rewrite negb_true_iff, !orb_false_iff. tauto. Qed.

Lemma calm_not_nl c : calm c = true → c ≠ nl.
Proof. intros (_ & _ & _ & _ & _ & H)%calm_inv ->. done. Qed.

Lemma quiet_calm w : forallb quiet w = true → forallb calm w = true.
Proof. apply forallb_weaken. by intros c [? _]%andb_true_iff. Qed.

Lemma literal_calm c r : isc dq c = false → isc sq c = false → literal (c :: r) = None.
Proof.
  intros Hd Hs. unfold literal. rewrite Hd. cbn [chop].
  destruct (decide (sq = c)) as [<-|?]; [by rewrite isc_refl in Hs|].
  rewrite Hs. simpl. by destruct r as [|? [|? ?]].
Qed.

Lemma strip_plain s :
  forallb (λ c, negb (isc dq c || isc sq c || is_break c)) s = true → strip s = s.
Proof.
  unfold strip. induction s as [|c r IH]; [done|].
  cbn [forallb]. intros [Hc Hr]%andb_true_iff.
  apply negb_true_iff in Hc. rewrite !orb_false_iff in Hc. destruct Hc as ((Hd & Hs) & Hb).
  rewrite items_plain.
  - cbn [map List.concat strip_out]. simpl. by rewrite IH.
  - rewrite strip_at_eq. unfold strip_direct. rewrite literal_calm by done.
    simpl. by rewrite Hb.
Qed.

Lemma calm_plain w :
  forallb calm w = true →
  forallb (λ c, negb (isc dq c || isc sq c || is_break c)) w = true.
Proof.
  apply forallb_weaken. intros c (_ & _ & _ & -> & -> & ->)%calm_inv. done.
Qed.

Lemma span_space_calm l k :
  forallb calm l = true →
  ∃ b k', snd (span is_space (l ++ ";"%char :: k)) = b :: k' ∧ isc "{" b = false.
Proof.
  induction l as [|c l IH]; cbn [forallb app].
  - intros _. by exists ";"%char, k.
  - intros [Hc Hl]%andb_true_iff. cbn [span]. destruct (is_space c).
    + destruct (IH Hl) as (b & k' & E & Hb).
      destruct (span is_space (l ++ ";"%char :: k)) as [w r']. eauto.
    + apply calm_inv in Hc as (Hc & _). eauto.
Qed.

Lemma open1_at_calm l k :
  forallb calm l = true → open1_at (l ++ ";"%char :: k) = None.
Proof.
  destruct l as [|c l]; [done|]. cbn [forallb app]. intros [_ Hl]%andb_true_iff.
  cbn [open1_at]. destruct (isc "=" c); [|done].
  destruct (span_space_calm l k Hl) as (b & k' & -> & ->). done.
Qed.

Lemma scan_step st c r :
  mode st = 0 → calm c = true → open1_at (c :: r) = None →
  scan st (c :: r) = c :: scan st r.
Proof.
  intros Hm (Ho & Hc & Hs & Hd & Hq & _)%calm_inv Hopen.
  destruct (isc "," c) eqn:Ec.
  - rewrite (scan_hit st (c :: r) (GSymbol c) r).
    + cbn [on_match]. rewrite Hc, Hs, Ec, Hm. simpl.
      apply isc_true in Ec as ->. done.
    + rewrite scan_at_eq. unfold scan_direct. by rewrite Hopen, Ho, Ec.
  - apply scan_plain. rewrite scan_at_eq. unfold scan_direct.
    rewrite Hopen, Ho, Ec, Hs, Hc. cbn [orb]. by rewrite literal_calm.
Qed.

Lemma scan_quiet st w k :
  mode st = 0 → forallb quiet w = true → scan st (w ++ k) = w ++ scan st k.
Proof.
  intros Hm. induction w as [|c w IH]; [done|].
  cbn [forallb app]. intros [[Hc He]%andb_true_iff Hw]%andb_true_iff.
  rewrite scan_step; [by rewrite IH|done|done|].
  cbn [open1_at]. apply negb_true_iff in He. by rewrite He.
Qed.

Lemma scan_line st l k :
  mode st = 0 → forallb calm l = true →
  scan st (l ++ ";"%char :: k) = l ++ ";"%char :: nl :: indent st ++ scan st k.
Proof.
  intros Hm. induction l as [|c l IH].
  - intros _. cbn [app].
    rewrite (scan_hit st (";"%char :: k) (GSymbol ";") k); [done|].
    by rewrite scan_at_eq.
  - intros Hl. rewrite <- app_comm_cons, scan_step; [|done| |].
    + cbn [forallb] in Hl. apply andb_true_iff in Hl as [_ Hl]. by rewrite IH.
    + cbn [forallb] in Hl. by apply andb_true_iff in Hl as [? _].
    + rewrite app_comm_cons. by apply open1_at_calm.
Qed.

Lemma scan_open st k :
  scan st ("{"%char :: k)
  = "{"%char :: nl :: (indent st ++ [tab])
    ++ scan {| indent := indent st ++ [tab];
               mode := if 0 <? mode st then mode st + 1 else 0 |} k.
Proof.
  rewrite (scan_hit st ("{"%char :: k) GOpen2 k); [done|]. by rewrite scan_at_eq.
Qed.

Lemma scan_close st :
  scan st (txt "}") = nl :: tail (indent st) ++ txt "}".
Proof.
  rewrite (scan_hit st (txt "}") (GSymbol "}") []); [|by rewrite scan_at_eq].
  cbn [on_match]. simpl. by rewrite app_nil_r.
Qed.

Lemma scan_lines st ls k :
  mode st = 0 → Forall (λ l, forallb calm l = true) ls →
  scan st (List.concat (map (λ l, l ++ txt ";") ls) ++ k)
  = List.concat (map (λ l, l ++ txt ";" ++ nl :: indent st) ls) ++ scan st k.
Proof.
  intros Hm. induction 1 as [|l ls Hl _ IH]; [done|].
  cbn [map List.concat]. rewrite <- !app_assoc.
  etrans; [exact (scan_line st l (List.concat (map (λ l, l ++ txt ";") ls) ++ k) Hm Hl)|].
  by rewrite IH.
Qed.

Lemma tidy_calm w k :
  forallb (λ c, negb (isc nl c)) w = true → tidy (w ++ k) = w ++ tidy k.
Proof.
  induction w as [|c w IH]; [done|]. cbn [forallb app].
  intros [Hc Hw]%andb_true_iff. rewrite tidy_other, IH; [done..|].
  apply negb_true_iff in Hc. by apply isc_false.
Qed.

Lemma tabs_not_nl T : tabs T → forallb (λ c, negb (isc nl c)) T = true.
Proof. apply forallb_weaken. by intros c ->%isc_true. Qed.

Lemma tidy_indent T w x r :
  tabs T → forallb (isc sp) w = true →
  isc tab x = false → isc sp x = false → isc nl x = false →
  tidy (nl :: T ++ w ++ x :: r) = nl :: T ++ tidy (x :: r).
Proof.
  intros HT Hw Ht Hs Hn.
  assert (E1 : span (isc tab) (T ++ w ++ x :: r) = (T, w ++ x :: r)).
  { apply span_app; [done|]. destruct w as [|y w]; [done|].
    cbn [forallb] in Hw. apply andb_true_iff in Hw as [->%isc_true _]. done. }
  assert (E2 : span (isc sp) (w ++ x :: r) = (w, x :: r)) by by apply span_app.
  destruct w as [|y w].
  - rewrite (tidy_plain nl).
    + cbn [app]. rewrite (tidy_calm T); [done|]. by apply tabs_not_nl.
    + rewrite tidy_at_eq. unfold tidy_direct. rewrite isc_refl, E1, E2.
      cbn [app]. rewrite (span_app _ T (x :: r)).
      * destruct T; [done|]. by rewrite Hn.
      * eapply forallb_weaken; [|exact HT]. by intros c ->.
      * by rewrite Ht, Hs.
  - rewrite (tidy_hit _ (Some T) (x :: r)).
    + done.
    + rewrite tidy_at_eq. unfold tidy_direct. by rewrite isc_refl, E1, E2.
Qed.

Lemma tidy_blank_line T k :
  tabs T → T ≠ [] → tidy (nl :: T ++ nl :: k) = nl :: tidy k.
Proof.
  intros HT Hne. rewrite (tidy_hit _ None k); [done|].
  rewrite tidy_at_eq. unfold tidy_direct. rewrite isc_refl.
  rewrite (span_app (isc tab) T (nl :: k)) by done.
  cbn [span]. change (isc sp nl) with false. cbn iota.
  rewrite (span_app _ T (nl :: k)).
  - destruct T; [done|]. by rewrite isc_refl.
  - eapply forallb_weaken; [|exact HT]. by intros c ->.
  - done.
Qed.

Lemma trimRight_end s c : is_space c = false → trimRight (s ++ [c]) = s ++ [c].
Proof.
  intros Hc. induction s as [|x s IH]; simpl; [by rewrite Hc|].
  rewrite IH. by destruct s.
Qed.

Lemma terminate_calm l : forallb calm l = true → terminate l = l ++ txt ";".
Proof.
  intros Hl. unfold terminate. destruct (ends_semi l) eqn:E; [|done].
  apply ends_semi_spec in E as (a & w & -> & _).
  rewrite !forallb_app in Hl. by destruct (forallb calm a).
Qed.

Lemma tjoin_nil l : tjoin [] l = List.concat l.
Proof.
  induction l as [|x [|y l] IH]; [done|simpl; by rewrite app_nil_r|].
  change (tjoin [] (x :: y :: l)) with (x ++ [] ++ tjoin [] (y :: l)).
  by rewrite IH.
Qed.

Lemma calm_not_blank c :
  calm c = true → isc tab c = false ∧ isc nl c = false.
Proof.
  intros (_ & _ & _ & _ & _ & H)%calm_inv. unfold is_break in H.
  rewrite !orb_false_iff in H. tauto.
Qed.

Lemma calm_no_nl w :
  forallb calm w = true → forallb (λ c, negb (isc nl c)) w = true.
Proof. apply forallb_weaken. by intros c [_ ->]%calm_not_blank. Qed.

(** The spaces a line starts with go in the third pass. *)
Lemma tidy_body T1 T0 ls :
  tabs T1 → T1 ≠ [] → tabs T0 →
  Forall (λ l, forallb calm l = true) ls →
  tidy (nl :: T1 ++ List.concat (map (λ l, l ++ txt ";" ++ nl :: T1) ls)
           ++ nl :: T0 ++ txt "}")
  = nl :: List.concat (map (λ l, T1 ++ snd (span (isc sp) l) ++ txt ";" ++ [nl]) ls)
       ++ T0 ++ txt "}".
Proof.
  intros H1 Hne H0. induction 1 as [|l ls Hl _ IH].
  - cbn [map List.concat app]. rewrite tidy_blank_line by done.
    by rewrite tidy_calm by by apply tabs_not_nl.
  - cbn [map List.concat]. rewrite <- !app_assoc.
    set (rest := List.concat (map (λ l, l ++ txt ";" ++ nl :: T1) ls)
                 ++ nl :: T0 ++ txt "}") in *.
    destruct (span (isc sp) l) as [w l'] eqn:Es.
    apply span_spec in Es as (-> & Hw & Hl'). cbn [snd].
    rewrite forallb_app in Hl. apply andb_true_iff in Hl as [_ Hl].
    assert (E : ∃ x r, l' ++ txt ";" ++ (nl :: T1) ++ rest = x :: r
                ∧ isc tab x = false ∧ isc sp x = false ∧ isc nl x = false).
    { destruct l' as [|c l']; [by eexists _, _|].
      exists c, (l' ++ txt ";" ++ (nl :: T1) ++ rest). split; [done|].
      cbn [forallb] in Hl. apply andb_true_iff in Hl as [Hc _].
      by destruct (calm_not_blank _ Hc) as [-> ->]. }
    destruct E as (x & r & E & Ht & Hp & Hn). rewrite <- !app_assoc, E.
    rewrite tidy_indent by done. rewrite <- E.
    rewrite (app_assoc l'), tidy_calm.
    2:{ rewrite forallb_app, (calm_no_nl _ Hl). done. }
    change ((nl :: T1) ++ rest) with (nl :: T1 ++ rest). rewrite IH.
    rewrite <- !app_assoc. done.
Qed.

Lemma format_braces (front : text) (lines : list text) (n : nat) :
  forallb quiet front = true →
  Forall (λ l, forallb calm l = true) lines →
  format (front ++ txt "{" ++ List.concat (map (λ l, l ++ txt ";") lines) ++ txt "}") n
  = front ++ txt "{" ++ [nl]
    ++ List.concat (map (λ l, repeat tab (S n) ++ snd (span (isc sp) l) ++ txt ";" ++ [nl])
                      lines)
    ++ repeat tab n ++ txt "}".
Proof.
  intros Hh Hc. change (txt "{" ++ ?x) with ("{"%char :: x).
  unfold format. rewrite strip_plain.
  2:{ rewrite forallb_app, (calm_plain _ (quiet_calm _ Hh)).
      cbn [forallb andb].
      change (negb (isc dq "{" || isc sq "{" || is_break "{")) with true. cbn [andb].
      rewrite forallb_app, andb_true_r.
      induction Hc as [|l ls Hl1 _ IH]; [done|].
      cbn [map List.concat]. rewrite !forallb_app, (calm_plain _ Hl1). apply IH. }
  set (st0 := {| indent := repeat tab n; mode := 0 |}).
  rewrite scan_quiet by done.
  rewrite scan_open. cbn [indent mode st0]. change (0 <? 0) with false. cbn iota.
  rewrite <- repeat_cons. change (tab :: repeat tab n) with (repeat tab (S n)).
  set (st1 := {| indent := repeat tab (S n); mode := 0 |}).
  rewrite (scan_lines st1 lines (txt "}")) by done.
  rewrite scan_close. cbn [indent st1 tail]. cbn [repeat tail].
  rewrite tidy_calm by (apply calm_no_nl; by apply quiet_calm).
  rewrite (tidy_other "{") by done.
  rewrite (tidy_body (tab :: repeat tab n) (repeat tab n) lines); try done.
  2,3: unfold tabs; induction n; by simpl.
  cbn [txt list_ascii_of_string app].
  set (out := List.concat _).
  replace (front ++ "{"%char :: nl :: out ++ repeat tab n ++ ["}"%char])
    with ((front ++ "{"%char :: nl :: out ++ repeat tab n) ++ ["}"%char])
    by (by rewrite <- !app_assoc, <- !app_comm_cons, <- !app_assoc).
  by apply trimRight_end.
Qed.

Lemma terminate_element lb :
  forallb calm (fst lb) = true → terminate (element lb) = fst lb ++ txt ";".
Proof.
  destruct lb as [l [|]]; cbn [element fst snd]; [|apply terminate_calm].
  intros _. unfold terminate.
  assert (ends_semi (l ++ txt ";") = true) as ->; [|done].
  apply ends_semi_spec. by exists l, [].
Qed.

Lemma terminate_elements ls :
  Forall (λ lb, forallb calm (fst lb) = true) ls →
  map terminate (map element ls) = map (λ l, l ++ txt ";") (map fst ls).
Proof.
  intros H. rewrite !map_map. apply map_ext_Forall.
  eapply Forall_impl; [exact H|]. intros lb. apply terminate_element.
Qed.

Lemma calm_stems (ls : list (text * bool)) :
  Forall (λ lb, forallb calm (fst lb) = true) ls →
  Forall (λ l, forallb calm l = true) (map fst ls).
Proof. intros H. by apply Forall_map. Qed.

(** X12. The formatter on a function head and a block of statements, each
    with or without its semicolon: when the head and the statements hold
    no brace, no other semicolon, no quote, tab or line break (and the
    head no equals sign), the result is the head and the opening brace,
    every statement on a line of its own, one tab deeper than the initial
    indent, without the spaces it starts with and with its semicolon, and
    the closing brace at the initial indent. *)
Theorem format_block (front : text) (lines : list (text * bool)) (n : nat) :
  forallb quiet front = true →
  Forall (λ lb, forallb calm (fst lb) = true) lines →
  format (front ++ block (map element lines)) n
  = front ++ txt "{" ++ [nl]
    ++ List.concat (map (λ lb, repeat tab (S n) ++ snd (span (isc sp) (fst lb))
                               ++ txt ";" ++ [nl]) lines)
    ++ repeat tab n ++ txt "}".
Proof.
  intros Hh Hc. unfold block. rewrite tjoin_nil, terminate_elements by done.
  rewrite format_braces by (done || by apply calm_stems).
  by rewrite map_map.
Qed.

Lemma format_block_witness :
  format (function [] (txt "test") [txt "uint8_t* ptr"] VUndefined
          ++ block [call (txt "memset") [txt "ptr"; txt "0"; txt "128"]; txt "return";
                    variable [] (txt "x") (txt "int") VUndefined]) 0
  = txt "void test(uint8_t* ptr){" ++ [nl]
    ++ [tab] ++ txt "memset(ptr, 0, 128);" ++ [nl]
    ++ [tab] ++ txt "return;" ++ [nl]
    ++ [tab] ++ txt "int x;" ++ [nl]
    ++ txt "}".
Proof.
  apply (format_block (txt "void test(uint8_t* ptr)")
           [(txt "memset(ptr, 0, 128)", false); (txt "return", false);
            (txt "int x", true)] 0).
  - reflexivity.
  - by repeat constructor.
Defined.

(** ** A structure or a union, formatted *)

Lemma tjoin_cons sep x y l : tjoin sep (x :: y :: l) = x ++ sep ++ tjoin sep (y :: l).
Proof. done. Qed.

Lemma tjoin_space ls :
  tjoin (txt " ") (map (λ l, l ++ txt ";") ls)
  = List.concat (map (λ l, l ++ txt ";")
                   (match ls with [] => [] | l :: r => l :: map (cons sp) r end)).
Proof.
  destruct ls as [|l r]; [done|]. revert l.
  induction r as [|y r IH]; intros l; [simpl; by rewrite app_nil_r|].
  cbn [map] in *. rewrite tjoin_cons, IH. cbn [List.concat].
  by rewrite <- !app_assoc.
Qed.

Lemma format_fields (front : text) (fields : list text) (n : nat) :
  forallb quiet front = true →
  Forall (λ l, forallb calm l = true) fields →
  format (front ++ txt "{" ++ tjoin (txt " ") (map (λ l, l ++ txt ";") fields)
          ++ txt "}") n
  = front ++ txt "{" ++ [nl]
    ++ List.concat (map (λ l, repeat tab (S n) ++ snd (span (isc sp) l) ++ txt ";" ++ [nl])
                      fields)
    ++ repeat tab n ++ txt "}".
Proof.
  intros Hf Hc.
  rewrite tjoin_space, format_braces; [|done|].
  - do 3 apply (f_equal (app _)).
    apply (f_equal (λ z, List.concat z ++ repeat tab n ++ txt "}")).
    destruct fields as [|l r]; [done|]. cbn [map].
    rewrite map_map. apply (f_equal (cons _)). apply map_ext. intros a.
    cbn [span]. change (isc sp sp) with true. cbn iota.
    by destruct (span (isc sp) a).
  - destruct Hc as [|l r Hl Hr]; [done|]. constructor; [done|].
    apply Forall_map. eapply Forall_impl; [exact Hr|]. intros a Ha.
    cbn [forallb]. by rewrite Ha.
Qed.

(** X13. The formatter on a structure or a union whose members come with
    or without their semicolon: when the name and the members hold no
    brace, no other semicolon, no quote, tab or line break (and the name
    no equals sign), every member is on a line of its own, one tab deeper
    than the initial indent, with its semicolon; the space that joins the
    members is gone, as are the spaces a member starts with. *)
Theorem format_struct (h : heap) (name : val) (fields : list (text * bool))
    (n : nat) :
  forallb quiet (or_else h name []) = true →
  Forall (λ lb, forallb calm (fst lb) = true) fields →
  let body :=
    txt "{" ++ [nl]
    ++ List.concat (map (λ lb, repeat tab (S n) ++ snd (span (isc sp) (fst lb))
                               ++ txt ";" ++ [nl]) fields)
    ++ repeat tab n ++ txt "}" in
  format (struct h name (map element fields)) n
  = txt "struct " ++ or_else h name [] ++ body
  ∧ format (union h name (map element fields)) n
    = txt "union " ++ or_else h name [] ++ body.
Proof.
  intros Hn Hc body. unfold struct, union.
  rewrite terminate_elements by done. split.
  - rewrite (app_assoc (txt "struct ")), format_fields.
    + unfold body. by rewrite <- app_assoc, map_map.
    + by rewrite forallb_app, Hn.
    + by apply calm_stems.
  - rewrite (app_assoc (txt "union ")), format_fields.
    + unfold body. by rewrite <- app_assoc, map_map.
    + by rewrite forallb_app, Hn.
    + by apply calm_stems.
Qed.

Lemma format_struct_witness :
  format (struct [] (VStr "test")
            [variable [] (txt "a") (txt "uint32_t") VUndefined;
             variable [] (txt "b") (txt "uint32_t") VUndefined]) 0
  = txt "struct test{" ++ [nl]
    ++ [tab] ++ txt "uint32_t a;" ++ [nl]
    ++ [tab] ++ txt "uint32_t b;" ++ [nl]
    ++ txt "}".
Proof.
  apply (proj1 (format_struct [] (VStr "test")
                  [(txt "uint32_t a", true); (txt "uint32_t b", true)] 0
                  eq_refl ltac:(by repeat constructor))).
Defined.

(** ** Text without a complete block *)

Lemma has_close_app p s : has_close s = true → has_close (p ++ s) = true.
Proof.
  intros H. induction p as [|c p IH]; [done|]. simpl. by rewrite IH, orb_true_r.
Qed.

Lemma close_at_has_close s k : close_at s = Some k → has_close s = true.
Proof.
  unfold close_at. destruct (chop (txt "??>") s) as [r|] eqn:E.
  - apply chop_spec in E as ->. done.
  - intros ->%chop_spec. done.
Qed.

Lemma body_close_has_close s m : body_close s = Some m → has_close s = true.
Proof.
  revert m. induction s as [|c r IH]; intros m; [done|]. cbn [body_close has_close].
  destruct (close_at r) as [k|] eqn:E.
  - intros _. by rewrite (close_at_has_close _ _ E), orb_true_r.
  - destruct (body_close r) as [m'|]; [|done]. intros _.
    by rewrite (IH _ eq_refl), orb_true_r.
Qed.

Lemma opt_suffix c s : ∃ p, s = p ++ opt c s.
Proof.
  destruct s as [|d r]; [by exists []|]. simpl. destruct (isc c d).
  - by exists [d].
  - by exists [].
Qed.

Lemma block_at_has_close s m : block_at s = Some m → has_close s = true.
Proof.
  rewrite block_at_eq. unfold block_direct.
  assert (H2 : match chop (txt "<?") s with
               | Some r => body_close r
               | None => None
               end = Some m → has_close s = true).
  { destruct (chop (txt "<?") s) as [r|] eqn:E; [|done].
    intros H%body_close_has_close. apply chop_spec in E as ->.
    by apply has_close_app. }
  destruct (chop (txt "<??") (opt nl (opt cr s))) as [r|] eqn:E; [|done].
  destruct (body_close r) as [m'|] eqn:E'; [|done]. intros _.
  apply body_close_has_close in E'. apply chop_spec in E.
  destruct (opt_suffix cr s) as [p1 ->]. destruct (opt_suffix nl (opt cr s)) as [p2 E2].
  rewrite E2, E. by do 3 apply has_close_app.
Qed.

(** X14. A text in which no open marker occurs, or no close marker, holds
    no block: it is written as it is, the store is left as it was, and the
    evaluator of scripts is not asked. *)
Theorem text_without_block_verbatim
    (runInContext : text → loc → heap → outcome (val * heap))
    (context : loc) (X : text) (h : heap) :
  has_open X = false ∨ has_close X = false →
  render runInContext context X h = Ok (X, h).
Proof.
  intros [Ho|Hc]; [by apply render_text|].
  induction X as [|c X IH]; [done|].
  rewrite render_plain.
  - by rewrite IH by by eapply has_close_tail.
  - destruct (block_at (c :: X)) as [m|] eqn:E; [|done].
    apply block_at_has_close in E. congruence.
Qed.

Lemma text_without_block_verbatim_witness :
  render (always (VNum 1)) 0 (txt "a <? b ? > c") [] = Ok (txt "a <? b ? > c", []).
Proof.
  apply (text_without_block_verbatim (always (VNum 1)) 0 (txt "a <? b ? > c") []).
  right. reflexivity.
Defined.

(** ** The globals of the scripts *)

Lemma pget_pput_eq k v ps : pget k (pput k v ps) = Some v.
Proof.
  induction ps as [|[k' v'] r IH]; simpl.
  - by rewrite decide_True.
  - destruct (decide (k = k')) as [->|Hn]; simpl.
    + by rewrite decide_True.
    + by rewrite decide_False.
Qed.

Lemma pget_pput_ne k k' v ps : k ≠ k' → pget k (pput k' v ps) = pget k ps.
Proof.
  intros Hn. induction ps as [|[k'' v''] r IH]; simpl.
  - by rewrite decide_False.
  - destruct (decide (k' = k'')) as [->|Hn']; simpl.
    + by rewrite !decide_False.
    + destruct (decide (k = k'')); [done|apply IH].
Qed.

Lemma pget_absent k ps : k ∉ keys ps → pget k ps = None.
Proof.
  induction ps as [|[k' v'] r IH]; [done|]. simpl.
  intros [Hn Hr]%not_elem_of_cons. rewrite decide_False by done. by apply IH.
Qed.

Lemma fold_pput_absent k ps base :
  pget k ps = None →
  pget k (fold_left (λ ps kv, pput (fst kv) (snd kv) ps) ps base) = pget k base.
Proof.
  revert base. induction ps as [|[k' v'] r IH]; intros base; [done|].
  simpl. destruct (decide (k = k')) as [->|Hn]; [done|].
  intros Hr. rewrite IH by done. by apply pget_pput_ne.
Qed.

Lemma fold_pput_present k v ps base :
  NoDup (keys ps) → pget k ps = Some v →
  pget k (fold_left (λ ps kv, pput (fst kv) (snd kv) ps) ps base) = Some v.
Proof.
  revert base. induction ps as [|[k' v'] r IH]; intros base; [done|].
  simpl. intros [Hk Hr]%NoDup_cons. destruct (decide (k = k')) as [->|Hn].
  - intros [= ->]. rewrite fold_pput_absent by by apply pget_absent.
    apply pget_pput_eq.
  - by apply IH.
Qed.

(** X15. The members of the object [config.ctemplate.export] are globals
    of the scripts: each is a property of the sandbox object, with its
    value; and [config] is the merged configuration unless a member of
    that name is exported, which then takes its place. *)
Theorem exports_are_globals (h : heap) (config c e : loc) (ps : props)
    (hs : heap) (sandbox : loc) :
  get_prop h config "ctemplate" = VRef c →
  get_prop h c "export" = VRef e →
  dict_at h e = Some ps → NoDup (keys ps) →
  scope h config = (hs, sandbox) →
  (∀ k v, pget k ps = Some v → get_prop hs sandbox k = v)
  ∧ (pget "config" ps = None → get_prop hs sandbox "config" = VRef config).
Proof.
  intros Hc He Hps Hnd. unfold scope, ensure_ctemplate. rewrite Hc. cbn [truthy].
  unfold alloc. intros [= <- <-].
  assert (Hs : sandbox_props h config
               = fold_left (λ ps kv, pput (fst kv) (snd kv) ps) ps
                   [("config"%string, VRef config)]).
  { unfold sandbox_props. rewrite Hc, He. unfold isDict.
    apply dict_at_Some in Hps as Hl. rewrite Hl, Hps. done. }
  split.
  - intros k v Hk. rewrite (get_prop_at _ _ _ _ (dict_at_snoc h _)), Hs.
    by rewrite (fold_pput_present k v).
  - intros Hk. rewrite (get_prop_at _ _ _ _ (dict_at_snoc h _)), Hs.
    by rewrite fold_pput_absent.
Qed.

Lemma exports_are_globals_witness :
  let h := [ODict [("ctemplate"%string, VRef 1)];
            ODict [("export"%string, VRef 2)];
            ODict [("config"%string, VNum 7); ("answer"%string, VNum 42)]] in
  get_prop (fst (scope h 0)) (snd (scope h 0)) "config" = VNum 7.
Proof.
  intros h.
  assert (Hnd : NoDup (keys [("config"%string, VNum 7); ("answer"%string, VNum 42)])).
  { apply NoDup_cons. split; [|apply NoDup_singleton].
    intros [E|E%elem_of_nil]%elem_of_cons; [discriminate|done]. }
  apply (proj1 (exports_are_globals h 0 1 2
                  [("config"%string, VNum 7); ("answer"%string, VNum 42)]
                  (fst (scope h 0)) (snd (scope h 0))
                  eq_refl eq_refl eq_refl Hnd eq_refl)).
  reflexivity.
Defined.

(** ** The names of defineGroup *)

Lemma ascii_all (P : ascii → bool) :
  forallb (λ k, P (ascii_of_nat k)) (seq 0 256) = true → ∀ c, P c = true.
Proof.
  intros H c. rewrite forallb_forall in H.
  rewrite <- (ascii_nat_embedding c). apply H. apply in_seq.
  pose proof (nat_ascii_bounded c). lia.
Qed.

Lemma capital_unit c :
  is_capital c = true → upper_unit c = Some [c] ∧ isc "_" c = false.
Proof.
  intros H.
  pose proof (ascii_all (λ c, negb (is_capital c)
    || match upper_unit c with
       | Some [d] => bool_decide (d = c) && negb (isc "_" c)
       | _ => false
       end) ltac:(by vm_compute) c) as A.
  simpl in A. rewrite H in A. simpl in A.
  destruct (upper_unit c) as [[|d [|? ?]]|]; try done.
  apply andb_true_iff in A as [->%bool_decide_eq_true A2%negb_true_iff]. done.
Qed.

Lemma small_unit c :
  alnum c = true → is_capital c = false →
  ∃ d, upper_unit c = Some [d] ∧ isc "_" d = false ∧ lower d = c
       ∧ macro_char d = true.
Proof.
  intros H1 H2.
  pose proof (ascii_all (λ c, negb (alnum c) || is_capital c
    || match upper_unit c with
       | Some [d] => negb (isc "_" d) && bool_decide (lower d = c) && macro_char d
       | _ => false
       end) ltac:(by vm_compute) c) as A.
  simpl in A. rewrite H1, H2 in A. simpl in A.
  destruct (upper_unit c) as [[|d [|? ?]]|]; try done.
  apply andb_true_iff in A as [[A1%negb_true_iff A2%bool_decide_eq_true]%andb_true_iff A3].
  by exists d.
Qed.

Lemma capital_macro_char c : is_capital c = true → macro_char c = true.
Proof.
  intros H.
  pose proof (ascii_all (λ c, negb (is_capital c) || macro_char c)
                ltac:(by vm_compute) c) as A.
  simpl in A. by rewrite H in A.
Qed.

Lemma macro_name_cons c key :
  macro_name (c :: key)
  = match (if is_capital c then Some ["_"%char; c] else upper_unit c),
          macro_name key with
    | Some u, Some r => Some (u ++ r)
    | _, _ => None
    end.
Proof.
  unfold macro_name, underscore. cbn [map List.concat].
  destruct (is_capital c) eqn:E.
  - cbn [app toUpperCase]. change (upper_unit "_") with (Some ["_"%char]).
    destruct (capital_unit c E) as [-> _].
    by destruct (toUpperCase _).
  - done.
Qed.

Lemma macro_name_camel key :
  forallb alnum key = true →
  ∃ n, macro_name key = Some n ∧ camel n = key ∧ forallb macro_char n = true.
Proof.
  induction key as [|c key IH]; [by exists []|].
  cbn [forallb]. intros [Hc (n & En & Hn & Hm)%IH]%andb_true_iff.
  rewrite macro_name_cons, En. destruct (is_capital c) eqn:E.
  - exists ("_"%char :: c :: n). split; [done|]. split.
    + cbn [camel]. change (isc "_" "_") with true. cbn iota. by rewrite Hn.
    + cbn [forallb]. by rewrite (capital_macro_char c E), Hm.
  - destruct (small_unit c Hc E) as (d & -> & Hd & Hl & Hmd).
    exists (d :: n). split; [done|]. split.
    + cbn [camel]. by rewrite Hd, Hl, Hn.
    + cbn [forallb]. by rewrite Hmd, Hm.
Qed.

(** X16. The macro names of [defineGroup]: a key of ASCII letters and
    digits has a name, made of capitals, digits and underscores; and two
    such keys that differ have names that differ. *)
Theorem macro_names_distinct (k1 k2 : text) :
  forallb alnum k1 = true → forallb alnum k2 = true →
  (∃ n, macro_name k1 = Some n ∧ forallb macro_char n = true)
  ∧ (macro_name k1 = macro_name k2 → k1 = k2).
Proof.
  intros (n1 & E1 & C1 & M1)%macro_name_camel (n2 & E2 & C2 & M2)%macro_name_camel.
  split; [by eauto|]. rewrite E1, E2. intros [= ->]. by rewrite <- C1, <- C2.
Qed.

Lemma macro_names_distinct_witness :
  ∃ n, macro_name (txt "oneMoreThenZero") = Some n ∧ forallb macro_char n = true.
Proof.
  apply (proj1 (macro_names_distinct (txt "oneMoreThenZero") (txt "zero")
                  eq_refl eq_refl)).
Defined.

(** ** An array with an initializer, formatted *)

Lemma atom_inv c :
  atom c = true → calm c = true ∧ isc "=" c = false ∧ isc "," c = false.
Proof.
  unfold atom, quiet. rewrite !andb_true_iff, !negb_true_iff. tauto.
Qed.

Lemma atom_calm w : forallb atom w = true → forallb calm w = true.
Proof. apply forallb_weaken. by intros c [? _]%atom_inv. Qed.

Lemma quiet_inv c : quiet c = true → calm c = true ∧ isc "=" c = false.
Proof. unfold quiet. rewrite andb_true_iff, negb_true_iff. tauto. Qed.

Lemma scan_step_atom st c r : atom c = true → scan st (c :: r) = c :: scan st r.
Proof.
  intros (Hc & He & Hm)%atom_inv.
  apply calm_inv in Hc as (Ho & Hc & Hs & Hd & Hq & _).
  apply scan_plain. rewrite scan_at_eq. unfold scan_direct.
  cbn [open1_at]. rewrite He, Ho, Hm, Hs, Hc. cbn [orb]. by rewrite literal_calm.
Qed.

Lemma scan_atoms st w k :
  forallb atom w = true → scan st (w ++ k) = w ++ scan st k.
Proof.
  induction w as [|c w IH]; [done|]. cbn [forallb app].
  intros [Hc Hw]%andb_true_iff. by rewrite scan_step_atom, IH.
Qed.

Lemma scan_open1 st w k :
  forallb is_space w = true →
  scan st (txt "=" ++ w ++ txt "{" ++ k)
  = txt "= {" ++ nl :: (indent st ++ [tab])
    ++ scan {| indent := indent st ++ [tab]; mode := mode st + 1 |} k.
Proof.
  intros Hw. rewrite (scan_hit st _ GOpen1 k); [done|].
  rewrite scan_at_eq. unfold scan_direct.
  assert (open1_at (txt "=" ++ w ++ txt "{" ++ k) = Some k) as ->; [|done].
  apply open1_at_spec. by exists w.
Qed.

Lemma scan_comma st k :
  0 < mode st → scan st (","%char :: k) = ","%char :: nl :: indent st ++ scan st k.
Proof.
  intros Hm. rewrite (scan_hit st _ (GSymbol ",") k); [|by rewrite scan_at_eq].
  cbn [on_match]. change (isc "}" ",") with false. change (isc ";" ",") with false.
  change (isc "," ",") with true. cbn iota.
  destruct (mode st) as [|m]; [lia|]. done.
Qed.

Lemma scan_semi st k :
  scan st (";"%char :: k) = ";"%char :: nl :: indent st ++ scan st k.
Proof. by rewrite (scan_hit st _ (GSymbol ";") k); [|by rewrite scan_at_eq]. Qed.

Lemma scan_brace st k :
  scan st ("}"%char :: k)
  = nl :: tail (indent st) ++ "}"%char
    :: scan {| indent := tail (indent st);
               mode := if 0 <? mode st then mode st - 1 else 0 |} k.
Proof.
  rewrite (scan_hit st _ (GSymbol "}") k); [|by rewrite scan_at_eq].
  cbn [on_match]. change (isc "}" "}") with true. cbn iota. cbn [fst snd].
  by rewrite <- !app_assoc.
Qed.

Lemma scan_elements st ts k :
  0 < mode st → Forall (λ t, forallb atom t = true) ts →
  scan st (List.concat (map (λ t, txt ", " ++ t) ts) ++ k)
  = List.concat (map (λ t, ","%char :: nl :: indent st ++ sp :: t) ts) ++ scan st k.
Proof.
  intros Hm. induction 1 as [|t ts Ht _ IH]; [done|].
  cbn [map List.concat]. rewrite <- !app_assoc.
  change (txt ", " ++ ?x) with (","%char :: sp :: x).
  rewrite scan_comma by done. rewrite (scan_step_atom st sp) by done.
  rewrite scan_atoms by done. rewrite IH.
  cbn [app]. by rewrite <- !app_assoc.
Qed.

Lemma tjoin_concat sep t ts :
  tjoin sep (t :: ts) = t ++ List.concat (map (λ x, sep ++ x) ts).
Proof.
  revert t. induction ts as [|y ts IH]; intros t; [simpl; by rewrite app_nil_r|].
  rewrite tjoin_cons, IH. cbn [map List.concat]. by rewrite <- !app_assoc.
Qed.

Lemma tidy_tabs T : tabs T → tidy (nl :: T) = nl :: T.
Proof.
  intros HT. rewrite (tidy_plain nl).
  - pose proof (tidy_calm T [] (tabs_not_nl _ HT)) as E.
    rewrite app_nil_r in E. rewrite E. change (tidy []) with (@nil ascii).
    by rewrite app_nil_r.
  - rewrite tidy_at_eq. unfold tidy_direct. rewrite isc_refl.
    rewrite <- (app_nil_r T).
    rewrite (span_app (isc tab) T []) by done. cbn [span].
    rewrite (span_app _ T []); [by destruct T|..|done].
    eapply forallb_weaken; [|exact HT]. by intros c ->.
Qed.

Lemma element_head (t K : text) :
  forallb atom t = true → t ≠ [] → hd_error t ≠ Some sp →
  ∃ x r, t ++ K = x :: r ∧ isc tab x = false ∧ isc sp x = false ∧ isc nl x = false.
Proof.
  destruct t as [|c t]; [done|]. cbn [forallb]. intros [Hc _]%andb_true_iff _ Hs.
  exists c, (t ++ K). split; [done|].
  apply atom_inv in Hc as [Hc _]. destruct (calm_not_blank _ Hc) as [-> ->].
  split; [done|]. split; [|done]. apply isc_false. intros ->. by apply Hs.
Qed.

Lemma tidy_elements T1 ts K :
  tabs T1 →
  Forall (λ t, forallb atom t = true ∧ t ≠ [] ∧ hd_error t ≠ Some sp) ts →
  tidy (List.concat (map (λ t, ","%char :: nl :: T1 ++ sp :: t) ts) ++ K)
  = List.concat (map (λ t, ","%char :: nl :: T1 ++ t) ts) ++ tidy K.
Proof.
  intros HT. induction 1 as [|t ts (Ht & Hne & Hs) _ IH]; [done|].
  cbn [map List.concat]. rewrite <- !app_assoc. cbn [app].
  rewrite (tidy_other ",") by done. rewrite <- !app_assoc. cbn [app].
  set (rest := List.concat _ ++ K) in *.
  destruct (element_head t rest Ht Hne Hs) as (x & r & E & H1 & H2 & H3).
  change (sp :: t ++ rest) with ([sp] ++ t ++ rest). rewrite E.
  rewrite tidy_indent by done. rewrite <- E.
  rewrite tidy_calm by (by apply calm_no_nl, atom_calm). by rewrite IH.
Qed.

Lemma trimRight_blank w : forallb is_space w = true → trimRight w = [].
Proof.
  induction w as [|c w IH]; [done|]. cbn [forallb].
  intros [Hc Hw]%andb_true_iff. simpl. by rewrite IH, Hc.
Qed.

Lemma trimRight_tail s c w :
  is_space c = false → forallb is_space w = true →
  trimRight (s ++ c :: w) = s ++ [c].
Proof.
  intros Hc Hw. induction s as [|x s IH].
  - simpl. by rewrite trimRight_blank, Hc.
  - cbn [app]. rewrite trimRight_cons; [by rewrite IH|].
    rewrite IH. by destruct s.
Qed.

Lemma format_initializer_list (front : text) (t : text) (ts : list text) (n : nat) :
  forallb quiet front = true →
  Forall (λ t, forallb atom t = true ∧ t ≠ [] ∧ hd_error t ≠ Some sp) (t :: ts) →
  format (front ++ txt " = " ++ (txt "{" ++ tjoin (txt ", ") (t :: ts) ++ txt "}")
          ++ txt ";") n
  = front ++ txt " = {" ++ [nl] ++ repeat tab (S n)
    ++ tjoin (txt "," ++ [nl] ++ repeat tab (S n)) (t :: ts)
    ++ [nl] ++ repeat tab n ++ txt "};".
Proof.
  intros Hf Hts. inversion Hts as [|? ? (Ht & Hne & Hs) Hr]; subst.
  assert (Ha : Forall (λ t, forallb atom t = true) ts).
  { eapply Forall_impl; [exact Hr|]. by intros ? [? _]. }
  rewrite !tjoin_concat. unfold format.
  assert (HT0 : tabs (repeat tab n)) by (unfold tabs; induction n; by simpl).
  assert (HT1 : tabs (repeat tab (S n))) by (unfold tabs; simpl; exact HT0).
  rewrite strip_plain.
  2:{ rewrite !forallb_app, !andb_true_iff.
      repeat split; try reflexivity.
      - by apply calm_plain, quiet_calm.
      - by apply calm_plain, atom_calm.
      - clear Hr Hts. induction Ha as [|y ys Hy _ IH]; [done|].
        cbn [map List.concat]. rewrite !forallb_app, (calm_plain _ (atom_calm _ Hy)).
        by rewrite IH. }
  set (st0 := {| indent := repeat tab n; mode := 0 |}).
  rewrite <- !app_assoc.
  change (txt " = " ++ txt "{" ++ ?x) with ([sp] ++ txt "=" ++ [sp] ++ txt "{" ++ x).
  rewrite (app_assoc front [sp]).
  rewrite scan_quiet by (done || by rewrite forallb_app, Hf).
  rewrite scan_open1 by done. cbn [indent mode st0].
  rewrite <- repeat_cons. change (tab :: repeat tab n) with (repeat tab (S n)).
  set (st1 := {| indent := repeat tab (S n); mode := 0 + 1 |}).
  rewrite scan_atoms by done.
  rewrite (scan_elements st1 ts) by (done || (cbn; lia)).
  change (txt "}" ++ txt ";") with ("}"%char :: txt ";"). rewrite scan_brace.
  cbn [indent mode st1 tail]. cbn [repeat tail].
  change (txt ";") with (";"%char :: []). rewrite scan_semi. cbn [indent].
  change (scan _ []) with (@nil ascii). rewrite app_nil_r.
  rewrite <- !app_assoc.
  rewrite tidy_calm by (by apply calm_no_nl, quiet_calm).
  change ([sp] ++ txt "= {" ++ ?x) with (sp :: "="%char :: sp :: "{"%char :: x).
  rewrite (tidy_other sp), (tidy_other "="), (tidy_other sp), (tidy_other "{") by done.
  match goal with |- context [tidy (nl :: _ ++ t ++ ?r)] => set (rest := r) end.
  destruct (element_head t rest Ht Hne Hs) as (x & r & E & H1 & H2 & H3).
  rewrite E. change (x :: r) with ([] ++ x :: r).
  rewrite (tidy_indent (tab :: repeat tab n) [] x r) by done. rewrite <- E.
  rewrite tidy_calm by (by apply calm_no_nl, atom_calm).
  unfold rest. rewrite tidy_elements by done.
  match goal with |- context [tidy (nl :: repeat tab n ++ ?k)] =>
    change (nl :: repeat tab n ++ k) with (nl :: repeat tab n ++ [] ++ k) end.
  rewrite (tidy_indent (repeat tab n) [] "}" _) by done.
  rewrite (tidy_other "}"), (tidy_other ";") by done.
  rewrite tidy_tabs by done.
  set (lines := List.concat _).
  transitivity (front ++ txt " = {" ++ [nl] ++ (tab :: repeat tab n) ++ t
                ++ lines ++ [nl] ++ repeat tab n ++ txt "};"); [|reflexivity].
  transitivity (trimRight ((front ++ txt " = {" ++ [nl] ++ (tab :: repeat tab n) ++ t
                              ++ lines ++ [nl] ++ repeat tab n ++ txt "}")
                           ++ ";"%char :: nl :: repeat tab n)).
  { f_equal. by rewrite <- !app_assoc. }
  rewrite trimRight_tail; [by rewrite <- !app_assoc|done|].
  cbn [forallb]. eapply forallb_weaken in HT0; [by rewrite HT0|].
  by intros c ->%isc_true.
Qed.

(** X17. An array declared with the initializer of a list, formatted:
    [format(array(name, type, size, initializer(list)))].  When the
    elements of the list have initializers that are not empty, start with
    no space and hold no brace, semicolon, comma, equals sign, quote, tab
    or line break (numbers, names), the result is the declaration up to
    the opening brace, every element on a line of its own, one tab deeper
    than the initial indent, a comma after each but the last, and the
    closing brace and the semicolon on a line at the initial indent. *)
Theorem format_array_initializer (h : heap) (name type : text) (size : val)
    (l : loc) (es : list val) (ts : list text) (fuel n : nat) :
  let decl :=
    type ++ txt " " ++ name ++ txt "["
    ++ (if absent size then [] else txt (to_string h size)) ++ txt "]" in
  arr_at h l = Some es →
  mapM (initializer fuel h) es = Some ts → ts ≠ [] →
  Forall (λ t, forallb atom t = true ∧ t ≠ [] ∧ hd_error t ≠ Some sp) ts →
  forallb quiet decl = true →
  ∃ init,
    initializer (S fuel) h (VRef l) = Some init
    ∧ format (array h name type size (VStr (string_of_list_ascii init))) n
      = decl ++ txt " = {" ++ [nl] ++ repeat tab (S n)
        ++ tjoin (txt "," ++ [nl] ++ repeat tab (S n)) ts
        ++ [nl] ++ repeat tab n ++ txt "};".
Proof.
  intros decl Hl Hes Hne Hts Hd.
  exists (txt "{" ++ tjoin (txt ", ") ts ++ txt "}"). split.
  - apply arr_at_Some in Hl. cbn [initializer]. by rewrite Hl, Hes.
  - destruct ts as [|t ts]; [done|].
    rewrite <- (format_initializer_list decl t ts n) by done.
    f_equal. unfold array, init_part, decl. cbn [truthy].
    rewrite bool_decide_eq_false_2 by done. cbn [negb].
    assert (E : to_string h (VStr (string_of_list_ascii
                  (txt "{" ++ tjoin (txt ", ") (t :: ts) ++ txt "}")))
                = string_of_list_ascii (txt "{" ++ tjoin (txt ", ") (t :: ts) ++ txt "}")).
    { unfold to_string. by destruct (List.length h). }
    rewrite E. unfold txt at 6. rewrite list_ascii_of_string_of_list_ascii.
    by rewrite <- !app_assoc.
Qed.

Lemma format_array_initializer_witness :
  ∃ init,
    initializer 2 [OArr [VNum 1; VNum 2; VNum 3; VNum 4]] (VRef 0) = Some init
    ∧ format (array [OArr [VNum 1; VNum 2; VNum 3; VNum 4]] (txt "test")
                (txt "uint8_t") (VNum 4) (VStr (string_of_list_ascii init))) 0
      = txt "uint8_t test[4] = {" ++ [nl]
        ++ [tab] ++ txt "1," ++ [nl]
        ++ [tab] ++ txt "2," ++ [nl]
        ++ [tab] ++ txt "3," ++ [nl]
        ++ [tab] ++ txt "4" ++ [nl]
        ++ txt "};".
Proof.
  apply (format_array_initializer [OArr [VNum 1; VNum 2; VNum 3; VNum 4]]
           (txt "test") (txt "uint8_t") (VNum 4) 0
           [VNum 1; VNum 2; VNum 3; VNum 4] [txt "1"; txt "2"; txt "3"; txt "4"] 1 0
           eq_refl eq_refl).
  - discriminate.
  - by repeat constructor.
  - reflexivity.
Defined.
